(** * Youtube-downloader (React-Native client): a shallow embedding

    The development follows the TypeScript sources of the mobile client:
    - [JS]: the fragment of the JavaScript runtime the sources rely on
      (numbers, string methods, the regular expressions that occur);
    - [videoModel]: the records of [src/models/videoModel.ts];
    - [Format]: [src/utils/format.ts] ([parseViewCount], [formatDuration]);
    - [App]: the URL classifiers of [App.tsx];
    - [ytdlpWrapper]: the helpers the in-process wrappers share
      ([extractVideoId], [extractPlaylistId], [sanitizeFilename],
      [normalizeDirUri]);
    - [WrapperA], [WrapperB]: the two in-process variants of the engine
      wrapper ([searchVideos], [pickStreamUrl] of the first, the choice of
      a format and of a file name of the second);
    - [SearchController], [DownloadController]:
      [src/controllers/downloadController.ts];
    - [Downloads]: the buttons of [src/views/DownloadsList.tsx] and their
      handlers in [App.tsx].

    Conventions.  A JavaScript string is a Rocq [string] read as a sequence
    of Latin-1 code points.  A JavaScript number that the code only uses as
    an integer (a duration in seconds, a bitrate, an array length) is a [Z];
    where the code computes with fractions the number is a [JS.number], an
    exact model of the IEEE-754 binary64 values (signed zero left out). *)

From Stdlib Require Import ZArith String Ascii List Bool Lia.
From stdpp Require Import base option list gmap strings.

Local Open Scope string_scope.
Local Open Scope list_scope.
Local Open Scope Z_scope.

(** ** The JavaScript fragment *)
Module JS.

(** *** Numbers *)

(** A binary64 value: not-a-number, an infinity, or the finite value
    [n / 2^k].  The representation is canonical when [k = 0] or [n] is
    odd, so an integer [z] is always [Dy z 0]. *)
Inductive number :=
| NaN
| Infinity (negative : bool)
| Dy (n : Z) (k : N).

Definition Int (z : Z) : number := Dy z 0.

(** [n / 2^k] in canonical form. *)
Fixpoint reduce (fuel : nat) (n : Z) (k : N) : number :=
  match fuel with
  | O => Dy n k
  | S fuel' =>
      if (k =? 0)%N then Dy n k
      else if Z.even n then reduce fuel' (n / 2) (k - 1) else Dy n k
  end.

Definition dyadic (n : Z) (k : N) : number :=
  if n =? 0 then Dy 0 0 else reduce (N.to_nat k) n k.

(** [num / den] rounded to an integer, ties to even ([0 < den]). *)
Definition round_half_even (num den : Z) : Z :=
  let q := num / den in
  let r := num mod den in
  if 2 * r <? den then q
  else if den <? 2 * r then q + 1
  else if Z.even q then q else q + 1.

(** The binary64 value nearest to the rational [num / den] ([0 < den]),
    ties to even: 53 significant bits, least exponent [-1074], overflow
    to an infinity from [2^1024] on. *)
Definition binary64 (num den : Z) : number :=
  if num =? 0 then Dy 0 0 else
  let a := Z.abs num in
  let e0 := Z.log2 a - Z.log2 den in
  let e := if a * 2 ^ Z.max 0 (- e0) <? den * 2 ^ Z.max 0 e0
           then e0 - 1 else e0 in                (* 2^e <= a/den < 2^(e+1) *)
  let q := Z.max (e - 52) (-1074) in              (* the unit in the last place is 2^q *)
  let m := round_half_even (a * 2 ^ Z.max 0 (- q)) (den * 2 ^ Z.max 0 q) in
  if (0 <=? q) && (2 ^ 1024 <=? m * 2 ^ q) then Infinity (num <? 0)
  else dyadic (Z.sgn num * m * 2 ^ Z.max 0 q) (Z.to_N (Z.max 0 (- q))).

(** [x * y] *)
Definition mul (x y : number) : number :=
  match x, y with
  | NaN, _ | _, NaN => NaN
  | Infinity s, Infinity s' => Infinity (xorb s s')
  | Infinity s, Dy n _ | Dy n _, Infinity s =>
      if n =? 0 then NaN else Infinity (xorb s (n <? 0))
  | Dy n k, Dy n' k' => binary64 (n * n') (2 ^ Z.of_N (k + k'))
  end.

(** [x + y] *)
Definition add (x y : number) : number :=
  match x, y with
  | NaN, _ | _, NaN => NaN
  | Infinity s, Infinity s' => if Bool.eqb s s' then Infinity s else NaN
  | Infinity s, Dy _ _ | Dy _ _, Infinity s => Infinity s
  | Dy n k, Dy n' k' =>
      binary64 (n * 2 ^ Z.of_N k' + n' * 2 ^ Z.of_N k) (2 ^ Z.of_N (k + k'))
  end.

(** [Math.round(x)]: the integer nearest to [x], a tie going up. *)
Definition Math_round (x : number) : number :=
  match x with
  | Dy n k => Int ((2 * n + 2 ^ Z.of_N k) / 2 ^ (Z.of_N k + 1))
  | _ => x
  end.

(** [Math.floor(x)]: the greatest integer not above [x]. *)
Definition Math_floor (x : number) : number :=
  match x with
  | Dy n k => Int (n / 2 ^ Z.of_N k)
  | _ => x
  end.

(** *** Characters and strings *)

Definition code (c : ascii) : N := N_of_ascii c.

Definition in_range (lo hi : N) (c : ascii) : bool :=
  ((lo <=? code c) && (code c <=? hi))%N.

Definition is_digit (c : ascii) : bool := in_range 48 57 c.

(** White space and line terminators, as [\s] and [trim] see them:
    TAB, LF, VT, FF, CR, SP and the no-break space. *)
Definition is_space (c : ascii) : bool :=
  in_range 9 13 c || (code c =? 32)%N || (code c =? 160)%N.

Definition lower (c : ascii) : ascii :=
  if in_range 65 90 c || (in_range 192 222 c && negb (code c =? 215)%N)
  then ascii_of_N (code c + 32) else c.

(** Upper case of an ASCII letter; the sources only ask for the upper
    case of "", "k", "m" or "b". *)
Definition upper (c : ascii) : ascii :=
  if in_range 97 122 c then ascii_of_N (code c - 32) else c.

Fixpoint map_string (f : ascii -> ascii) (s : string) : string :=
  match s with
  | EmptyString => EmptyString
  | String c s' => String (f c) (map_string f s')
  end.

Definition toLowerCase : string -> string := map_string lower.
Definition toUpperCase : string -> string := map_string upper.

Fixpoint trimStart (s : string) : string :=
  match s with
  | String c s' => if is_space c then trimStart s' else s
  | EmptyString => EmptyString
  end.

(** [trimEnd] keeps a character when it is not white space or when
    something is kept after it. *)
Fixpoint trimEnd (s : string) : string :=
  match s with
  | String c s' =>
      match trimEnd s' with
      | EmptyString => if is_space c then EmptyString else String c EmptyString
      | rest => String c rest
      end
  | EmptyString => EmptyString
  end.

Definition trim (s : string) : string := trimEnd (trimStart s).

Fixpoint startsWith (s prefix : string) : bool :=
  match prefix, s with
  | EmptyString, _ => true
  | String p prefix', String c s' => Ascii.eqb p c && startsWith s' prefix'
  | String _ _, EmptyString => false
  end.

(** [s.includes(needle)] *)
Fixpoint includes (s needle : string) : bool :=
  startsWith s needle ||
  match s with
  | String _ s' => includes s' needle
  | EmptyString => false
  end.

(** [s.split(separator)] for a one-character separator. *)
Fixpoint split (separator : ascii) (s : string) : list string :=
  match s with
  | EmptyString => [EmptyString]
  | String c s' =>
      if Ascii.eqb c separator then EmptyString :: split separator s'
      else match split separator s' with
           | part :: parts => String c part :: parts
           | [] => [String c EmptyString]
           end
  end.

Fixpoint repeat_char (c : ascii) (n : nat) : string :=
  match n with
  | O => EmptyString
  | S n' => String c (repeat_char c n')
  end.

(** [s.padStart(targetLength, c)] for a one-character filler. *)
Definition padStart (s : string) (targetLength : nat) (c : ascii) : string :=
  (repeat_char c (targetLength - String.length s) ++ s)%string.

Definition digit_char (d : Z) : ascii := ascii_of_N (48 + Z.to_N d).

Fixpoint decimal (fuel : nat) (n : Z) (acc : string) : string :=
  match fuel with
  | O => acc
  | S fuel' =>
      let acc' := String (digit_char (n mod 10)) acc in
      if n <? 10 then acc' else decimal fuel' (n / 10) acc'
  end.

(** [String(n)] for an integer [n] (below [10^21] in size, from where on
    JavaScript switches to the exponent form). *)
Definition String_of (n : Z) : string :=
  if n <? 0 then String "-" (decimal (S (Z.to_nat (Z.log2 (- n)))) (- n) "")
  else decimal (S (Z.to_nat (Z.log2 n))) n "".

(** The value of a digit in a radix up to 16, if it is one. *)
Definition digit_value (radix : Z) (c : ascii) : option Z :=
  let v := if is_digit c then Some (Z.of_N (code c) - 48)
           else if in_range 97 102 c then Some (Z.of_N (code c) - 87)
           else if in_range 65 70 c then Some (Z.of_N (code c) - 55)
           else None in
  match v with
  | Some d => if d <? radix then Some d else None
  | None => None
  end.

(** The longest prefix of digits: its value, how many digits it has,
    and what follows it. *)
Fixpoint digits (radix : Z) (s : string) (value : Z) (count : nat)
    : Z * nat * string :=
  match s with
  | String c s' =>
      match digit_value radix c with
      | Some d => digits radix s' (value * radix + d) (S count)
      | None => (value, count, s)
      end
  | EmptyString => (value, count, s)
  end.

(** [parseFloat(s)] on a string without sign, exponent or leading white
    space, which is what group 1 of the view-count pattern is: the
    longest prefix [digits], [digits.digits] or [.digits] is read, and
    there is no number when that prefix has no digit. *)
Definition parseFloat (s : string) : number :=
  let '(int_part, int_count, rest) := digits 10 s 0 0 in
  match rest with
  | String "." rest' =>
      let '(mantissa, count, _) := digits 10 rest' int_part int_count in
      if Nat.eqb count 0 then NaN
      else binary64 mantissa (10 ^ Z.of_nat (count - int_count))
  | _ => if Nat.eqb int_count 0 then NaN else binary64 int_part 1
  end.

(** [parseInt(s)]: leading white space, a sign, a [0x] prefix for radix
    16, then the longest prefix of digits. *)
Definition parseInt (s : string) : number :=
  let s1 := trimStart s in
  let '(negative, s2) :=
    match s1 with
    | String "-" r => (true, r)
    | String "+" r => (false, r)
    | _ => (false, s1)
    end in
  let '(radix, s3) :=
    match s2 with
    | String "0" (String x r) =>
        if Ascii.eqb x "x" || Ascii.eqb x "X" then (16, r) else (10, s2)
    | _ => (10, s2)
    end in
  let '(value, count, _) := digits radix s3 0 0 in
  if Nat.eqb count 0 then NaN
  else binary64 (if negative then - value else value) 1.

(** *** Regular expressions

    Every pattern in the sources is a sequence of character classes,
    each with a quantifier, possibly anchored.  Matching is by
    backtracking, a quantifier taking as much as it can first. *)
Inductive quantifier := One | Opt | Star | Plus.

Record atom := { class : ascii -> bool; quant : quantifier }.

Record regexp := {
  from_start : bool;          (* [^] *)
  atoms : list atom;
  to_end : bool               (* [$] *)
}.

Definition matcher := string -> option (list string).

(** The atom matches nothing here; go on with the rest. *)
Definition skip (continue : matcher) : matcher :=
  fun s => option_map (cons EmptyString) (continue s).

(** Exactly one character of the class. *)
Definition once (class : ascii -> bool) (continue : matcher) : matcher :=
  fun s =>
    match s with
    | String c s' =>
        if class c then option_map (cons (String c EmptyString)) (continue s')
        else None
    | EmptyString => None
    end.

(** One character of the class if the rest then matches, none otherwise. *)
Definition optional (class : ascii -> bool) (continue : matcher) : matcher :=
  fun s =>
    match s with
    | String c s' =>
        if class c then
          match continue s' with
          | Some segs => Some (String c EmptyString :: segs)
          | None => skip continue s
          end
        else skip continue s
    | EmptyString => skip continue s
    end.

(** As many characters of the class as the rest allows, the most first. *)
Fixpoint many (class : ascii -> bool) (continue : matcher) (s : string)
    : option (list string) :=
  match s with
  | String c s' =>
      if class c then
        match many class continue s' with
        | Some (seg :: segs) => Some (String c seg :: segs)
        | _ => skip continue s
        end
      else skip continue s
  | EmptyString => skip continue s
  end.

(** At least one character of the class. *)
Definition several (class : ascii -> bool) (continue : matcher) : matcher :=
  fun s =>
    match s with
    | String c s' =>
        if class c then
          match many class continue s' with
          | Some (seg :: segs) => Some (String c seg :: segs)
          | _ => None
          end
        else None
    | EmptyString => None
    end.

(** The text each atom matched, in order, when the atoms match a prefix
    of the string (all of it if [to_end]). *)
Fixpoint match_atoms (p : list atom) (to_end : bool) {struct p} : matcher :=
  match p with
  | [] => fun s =>
      if to_end then match s with
                     | EmptyString => Some []
                     | String _ _ => None
                     end
      else Some []
  | a :: p' =>
      match quant a with
      | One => once (class a) (match_atoms p' to_end)
      | Opt => optional (class a) (match_atoms p' to_end)
      | Star => many (class a) (match_atoms p' to_end)
      | Plus => several (class a) (match_atoms p' to_end)
      end
  end.

(** The leftmost match: what precedes it and the text of each atom. *)
Fixpoint search (p : list atom) (to_end : bool) (s : string)
    : option (string * list string) :=
  match match_atoms p to_end s with
  | Some segs => Some (EmptyString, segs)
  | None =>
      match s with
      | String c s' =>
          match search p to_end s' with
          | Some (before, segs) => Some (String c before, segs)
          | None => None
          end
      | EmptyString => None
      end
  end.

Definition exec (r : regexp) (s : string) : option (string * list string) :=
  if from_start r
  then option_map (pair EmptyString) (match_atoms (atoms r) (to_end r) s)
  else search (atoms r) (to_end r) s.

(** [r.test(s)] *)
Definition test (r : regexp) (s : string) : bool :=
  match exec r s with Some _ => true | None => false end.

(** [s.replace(r, "")] for an [r] that ends in [$]: the match, if any,
    runs to the end of [s], so what is left is what precedes it. *)
Definition remove (r : regexp) (s : string) : string :=
  match exec r s with
  | Some (before, _) => before
  | None => s
  end.

(** Character classes. *)
Definition chr (c : ascii) : ascii -> bool := Ascii.eqb c.
(** under the flag [i] *)
Definition chr_i (c : ascii) : ascii -> bool := fun x => Ascii.eqb (lower c) (lower x).
Definition one_of (cs : list ascii) : ascii -> bool := fun x => existsb (Ascii.eqb x) cs.
Definition one_of_i (cs : list ascii) : ascii -> bool :=
  fun x => existsb (fun c => Ascii.eqb (lower c) (lower x)) cs.

Definition the (q : quantifier) (class : ascii -> bool) : atom :=
  {| class := class; quant := q |}.

(** [x / y] for integers [x] and [y], [y] positive: the binary64 value
    nearest to the quotient. *)
Definition div_Int (x y : Z) : number := binary64 x y.

(** [x.toFixed(1)] for a finite [x] below [10^21] in size: the integer
    [n] for which [n / 10] is nearest to [x] (the larger of two), written
    with a point before its last digit; a negative [x] is written as a
    minus sign and [(-x).toFixed(1)]. *)
Definition toFixed1 (x : number) : string :=
  match x with
  | NaN => "NaN"
  | Infinity negative => if negative then "-Infinity" else "Infinity"
  | Dy a k =>
      let n := (20 * Z.abs a + 2 ^ Z.of_N k) / 2 ^ (Z.of_N k + 1) in
      let sign := if a <? 0 then "-" else "" in
      (sign ++ String_of (n / 10) ++ "." ++ String (digit_char (n mod 10)) "")%string
  end.

(** [s.endsWith(suffix)]: some tail of [s] is [suffix]. *)
Fixpoint endsWith (s suffix : string) : bool :=
  String.eqb s suffix ||
  match s with
  | String _ s' => endsWith s' suffix
  | EmptyString => false
  end.

(** [s.replace(/[...]+/g, "")] for one character class: every run of
    characters of the class is deleted, so none of them is left. *)
Fixpoint remove_all (class : ascii -> bool) (s : string) : string :=
  match s with
  | EmptyString => EmptyString
  | String c s' =>
      if class c then remove_all class s' else String c (remove_all class s')
  end.

End JS.

(** ** [src/models/videoModel.ts] *)
Module videoModel.

Record VideoInfo := {
  videoId : string;
  title : string;
  thumbnailUrl : string;
  duration : JS.number;
  channel : string;
  viewCount : option JS.number;
  uploadDate : option string;
  url : string;
  isPlaylist : bool;
  playlistCount : option JS.number
}.

Record SearchResult := {
  videos : list VideoInfo;
  query : string;
  page : Z;
  hasMore : bool
}.

End videoModel.

(** ** [src/utils/format.ts] *)
Module Format.
Import JS.

(** [/\s*views?\s*$/i] *)
Definition views_suffix : regexp :=
  {| from_start := false;
     atoms := [the Star is_space; the One (chr_i "v"); the One (chr_i "i");
               the One (chr_i "e"); the One (chr_i "w"); the Opt (chr_i "s");
               the Star is_space];
     to_end := true |}.

(** [/^([\d.]+)\s*([kmb])?$/i] *)
Definition count_pattern : regexp :=
  {| from_start := true;
     atoms := [the Plus (fun c => is_digit c || chr "." c);
               the Star is_space;
               the Opt (one_of_i ["k"; "m"; "b"]%char)];
     to_end := true |}.

Definition parseViewCount (viewCountText : string) : option number :=
  if String.eqb viewCountText "" then None else
  let text := trim (remove views_suffix (toLowerCase viewCountText)) in
  match exec count_pattern text with
  | Some (_, [group1; _; group2]) =>
      let number := parseFloat group1 in
      let suffix := toUpperCase group2 in
      if String.eqb suffix "K" then Some (Math_round (mul number (Int 1000)))
      else if String.eqb suffix "M" then Some (Math_round (mul number (Int 1000000)))
      else if String.eqb suffix "B" then Some (Math_round (mul number (Int 1000000000)))
      else Some (Math_round number)
  | _ => None
  end.

(** [formatViews(viewCount)]; [None] is [null] or [undefined], and a
    count is an integer (below [10^27] in size, so that [toFixed] stays
    out of the exponent form). *)
Definition formatViews (viewCount : option Z) : string :=
  match viewCount with
  | None => "Unknown"
  | Some n =>
      if 1000000 <=? n then (toFixed1 (div_Int n 1000000) ++ "M")%string
      else if 1000 <=? n then (toFixed1 (div_Int n 1000) ++ "K")%string
      else String_of n
  end.

(** [duration] is an integer number of seconds below [2^53], the
    integers that a number counts one by one.  There [duration % 3600]
    and [duration % 60] are the integer remainders, [Math.floor] of the
    binary64 quotients by 3600 and by 60 is the integer quotient, and
    [String] writes an integer in decimal; a greater [duration] is
    outside this model. *)
Definition formatDuration (duration : Z) : string :=
  if duration <? 0 then "Unknown" else
  let hours := duration / 3600 in
  let minutes := Z.rem duration 3600 / 60 in
  let seconds := Z.rem duration 60 in
  if 0 <? hours then
    (String_of hours ++ ":" ++ padStart (String_of minutes) 2 "0" ++ ":"
       ++ padStart (String_of seconds) 2 "0")%string
  else
    (String_of minutes ++ ":" ++ padStart (String_of seconds) 2 "0")%string.

End Format.

(** ** [App.tsx]: how the search box classifies its input *)
Module App.
Import JS.

(** [/^https?:\/\//i] *)
Definition url_prefix : regexp :=
  {| from_start := true;
     atoms := [the One (chr_i "h"); the One (chr_i "t"); the One (chr_i "t");
               the One (chr_i "p"); the Opt (chr_i "s"); the One (chr_i ":");
               the One (chr_i "/"); the One (chr_i "/")];
     to_end := false |}.

(** [/[?&]list=/] *)
Definition list_parameter : regexp :=
  {| from_start := false;
     atoms := [the One (one_of ["?"; "&"]%char); the One (chr "l");
               the One (chr "i"); the One (chr "s"); the One (chr "t");
               the One (chr "=")];
     to_end := false |}.

Definition isUrl (value : string) : bool := test url_prefix (trim value).
Definition isPlaylistUrl (value : string) : bool := test list_parameter value.

End App.

(** ** [src/services/ytdlpWrapper.ts]: the helpers both in-process
    variants of the wrapper begin with, word for word the same *)
Module ytdlpWrapper.
Import JS.

(** [[a-zA-Z0-9_-]] *)
Definition id_char (c : ascii) : bool :=
  in_range 97 122 c || in_range 65 90 c || is_digit c || chr "_" c || chr "-" c.

(** [/^[a-zA-Z0-9_-]{11}$/] *)
Definition bare_id : regexp :=
  {| from_start := true;
     atoms := [the One id_char; the One id_char; the One id_char;
               the One id_char; the One id_char; the One id_char;
               the One id_char; the One id_char; the One id_char;
               the One id_char; the One id_char];
     to_end := true |}.

Definition not_ampersand (c : ascii) : bool := negb (chr "&" c).

(** [/[?&]v=([^&]+)/] *)
Definition v_parameter : regexp :=
  {| from_start := false;
     atoms := [the One (one_of ["?"; "&"]%char); the One (chr "v");
               the One (chr "="); the Plus not_ampersand];
     to_end := false |}.

(** [/youtu\.be\/([^?&]+)/] *)
Definition short_link : regexp :=
  {| from_start := false;
     atoms := [the One (chr "y"); the One (chr "o"); the One (chr "u");
               the One (chr "t"); the One (chr "u"); the One (chr ".");
               the One (chr "b"); the One (chr "e"); the One (chr "/");
               the Plus (fun c => negb (one_of ["?"; "&"]%char c))];
     to_end := false |}.

Definition extractVideoId (value : string) : option string :=
  let trimmed := trim value in
  if String.eqb trimmed "" then None
  else if test bare_id trimmed then Some trimmed
  else
    match exec v_parameter trimmed with
    | Some (_, [_; _; _; group1]) => Some group1
    | Some _ => None
    | None =>
        match exec short_link trimmed with
        | Some (_, [_; _; _; _; _; _; _; _; _; group1]) => Some group1
        | _ => None
        end
    end.

(** [/[?&]list=([^&]+)/] *)
Definition list_value : regexp :=
  {| from_start := false;
     atoms := [the One (one_of ["?"; "&"]%char); the One (chr "l");
               the One (chr "i"); the One (chr "s"); the One (chr "t");
               the One (chr "="); the Plus not_ampersand];
     to_end := false |}.

Definition extractPlaylistId (value : string) : option string :=
  match exec list_value value with
  | Some (_, [_; _; _; _; _; _; group1]) => Some group1
  | _ => None
  end.

(** The class of the pattern in [sanitizeFilename]: less-than,
    greater-than, colon, the double quote (character 34), slash,
    backslash, bar, question mark and star. *)
Definition forbidden : ascii -> bool :=
  one_of ["<"; ">"; ":"; "034"; "/"; "\"; "|"; "?"; "*"]%char.

Definition sanitizeFilename (name : string) : string :=
  let cleaned := trim (remove_all forbidden name) in
  if String.eqb cleaned "" then "video" else cleaned.

(** [normalizeDirUri(path?)]: [None] is a path that was not given. *)
Definition normalizeDirUri (path : option string) : string :=
  match path with
  | None => ""
  | Some p =>
      if String.eqb p "" then ""
      else if endsWith p "/" then p else (p ++ "/")%string
  end.

End ytdlpWrapper.

(** ** [src/services/ytdlpWrapper.ts], the one-shot session (variant A) *)
Module WrapperA.
Import JS.

(** What the engine hands over is untyped ([Record<string, unknown>]); the
    wrapper inspects it with [typeof], [in] and [Array.isArray]. *)
#[warnings="-register-all"]
Inductive value :=
| undefined
| null
| boolean (b : bool)
| num (n : number)
| str (s : string)
| object (fields : list (string * value))
| array (elements : list value).

Definition truthy (v : value) : bool :=
  match v with
  | undefined | null => false
  | boolean b => b
  | num NaN => false
  | num (Dy n _) => negb (n =? 0)
  | num (Infinity _) => true
  | str s => negb (String.eqb s "")
  | object _ | array _ => true
  end.

Fixpoint field (name : string) (fields : list (string * value)) : option value :=
  match fields with
  | [] => None
  | (k, v) :: rest => if String.eqb k name then Some v else field name rest
  end.

(** [v.name] for the property names the wrapper reads, none of which a
    primitive or an array has; [None] is the [TypeError] of reading a
    property of [null] or [undefined]. *)
Definition get (v : value) (name : string) : option value :=
  match v with
  | undefined | null => None
  | object fields => Some (default undefined (field name fields))
  | _ => Some undefined
  end.

(** [v && typeof v === "object" && name in v] *)
Definition is_object_with (name : string) (v : value) : bool :=
  match v with
  | object fields => bool_decide (is_Some (field name fields))
  | _ => false
  end.

Definition getItemId (item : value) : option string :=
  a ← get item "id";
  id ← (if truthy a then Some a else
        b ← get item "video_id";
        if truthy b then Some b else get item "videoId");
  Some (match id with str s => s | _ => "" end).

Definition getItemTitle (item : value) : option string :=
  title ← get item "title";
  match title with
  | str s => Some s
  | _ =>
      if is_object_with "text" title then
        textValue ← get title "text";
        Some (match textValue with str s => s | _ => "Unknown" end)
      else Some "Unknown"
  end.

Definition getItemThumbnail (item : value) : option string :=
  thumbs ← get item "thumbnails";
  match thumbs with
  | array (first :: _) =>
      url ← get first "url";
      Some (match url with str s => s | _ => "" end)
  | _ => Some ""
  end.

Definition getItemDuration (item : value) : option number :=
  duration ← get item "duration";
  match duration with
  | num n => Some n
  | _ =>
      if is_object_with "seconds" duration then
        seconds ← get duration "seconds";
        Some (match seconds with num n => n | _ => Int 0 end)
      else Some (Int 0)
  end.

Definition getItemAuthor (item : value) : option string :=
  author ← get item "author";
  match author with
  | str s => Some s
  | _ =>
      if is_object_with "name" author then
        name ← get author "name";
        Some (match name with str s => s | _ => "Unknown" end)
      else Some "Unknown"
  end.

Definition getItemViewCount (item : value) : option (option number) :=
  a ← get item "view_count";
  viewCount ← (match a with
               | undefined | null => get item "viewCount"
               | _ => Some a
               end);
  Some (match viewCount with num n => Some n | _ => None end).

Definition getItemUrl (item : value) (fallbackId : string) : option string :=
  url ← get item "url";
  Some (match url with
        | str s => s
        | _ => if negb (String.eqb fallbackId "")
               then ("https://youtube.com/watch?v=" ++ fallbackId)%string
               else ""
        end).

(** The object literal of [searchVideos]; [None] when building it throws. *)
Definition to_VideoInfo (item : value) : option videoModel.VideoInfo :=
  id ← getItemId item;
  title ← getItemTitle item;
  thumbnailUrl ← getItemThumbnail item;
  duration ← getItemDuration item;
  channel ← getItemAuthor item;
  viewCount ← getItemViewCount item;
  url ← getItemUrl item id;
  Some {| videoModel.videoId := id; videoModel.title := title;
          videoModel.thumbnailUrl := thumbnailUrl; videoModel.duration := duration;
          videoModel.channel := channel; videoModel.viewCount := viewCount;
          videoModel.uploadDate := None; videoModel.url := url;
          videoModel.isPlaylist := false; videoModel.playlistCount := None |}.

(** [a.slice(0, n)] for an integer [n]: a negative [n] counts from the end. *)
Definition slice0 {A} (a : list A) (n : Z) : list A :=
  if n <? 0 then take (Z.to_nat (Z.of_nat (length a) + n)) a
  else take (Z.to_nat n) a.

Definition no_results (query : string) : videoModel.SearchResult :=
  {| videoModel.videos := []; videoModel.query := query;
     videoModel.page := 1; videoModel.hasMore := false |}.

(** [searchVideos].  [client] tells whether [getClient()] gave a client,
    [search] is what [client.search(query, ...)] did: [None] when it
    threw, the result object otherwise.  The outcome is [None] when the
    promise is rejected. *)
Definition searchVideos (client : bool) (search : option value)
    (query : string) (maxResults : Z) : option videoModel.SearchResult :=
  if negb client then None else
  let attempt : option videoModel.SearchResult :=
    result ← search;
    found ← get result "videos";
    items ← (match found with
             | array elements => Some elements
             | _ => if truthy found then None else Some []
             end);
    videos ← mapM to_VideoInfo (slice0 items maxResults);
    Some {| videoModel.videos := videos; videoModel.query := query;
            videoModel.page := 1;
            videoModel.hasMore := maxResults <=? Z.of_nat (length videos) |} in
  Some (default (no_results query) attempt).

(** The stream descriptors of a video. *)
Record StreamFormat := {
  url : option string;
  mime_type : option string;
  bitrate : option Z;
  has_audio : option bool;
  has_video : option bool;
  quality_label : option string
}.

Record StreamingData := {
  formats : option (list StreamFormat);
  adaptive_formats : option (list StreamFormat)
}.

Inductive FormatType := mp4 | mp3.

(** [!!format.url] *)
Definition has_url (format : StreamFormat) : bool :=
  match url format with
  | Some u => negb (String.eqb u "")
  | None => false
  end.

(** [format.mime_type?.includes(needle)] *)
Definition mime_includes (needle : string) (format : StreamFormat) : bool :=
  match mime_type format with
  | Some m => includes m needle
  | None => false
  end.

(** [(b.bitrate || 0) - (a.bitrate || 0)] *)
Definition by_bitrate (a b : StreamFormat) : Z :=
  default 0 (bitrate b) - default 0 (bitrate a).

(** [Array.prototype.sort] with a comparator: a stable sort. *)
Fixpoint insert_sorted {A} (compare : A -> A -> Z) (x : A) (l : list A) : list A :=
  match l with
  | [] => [x]
  | y :: l' => if compare x y <=? 0 then x :: l
               else y :: insert_sorted compare x l'
  end.

Definition sort {A} (compare : A -> A -> Z) (l : list A) : list A :=
  fold_right (insert_sorted compare) [] l.

(** The descriptors [pickStreamUrl] chooses among. *)
Definition with_url (streaming : StreamingData) : list StreamFormat :=
  filter (fun f => has_url f = true)
    (default [] (formats streaming) ++ default [] (adaptive_formats streaming)).

(** The local [chosen] of [pickStreamUrl]; [None] when the function
    returns [null] before choosing. *)
Definition chosen (streaming : StreamingData) (formatType : FormatType)
    : option StreamFormat :=
  let formats := with_url streaming in
  match formats with
  | [] => None
  | first :: _ =>
      match formatType with
      | mp3 =>
          let audioFormats := filter (fun f => mime_includes "audio" f = true) formats in
          let preferred := sort by_bitrate audioFormats in
          Some (default first (head preferred))
      | mp4 =>
          let mp4Formats := filter (fun f => mime_includes "video/mp4" f = true) formats in
          let withAudio := find (fun f => bool_decide (has_audio f = Some true)) mp4Formats in
          Some (default (default first (head mp4Formats)) withAudio)
      end
  end.

Definition pickStreamUrl (streaming : StreamingData) (formatType : FormatType)
    : option (string * string) :=
  match chosen streaming formatType with
  | None => None
  | Some c =>
      let extension :=
        match formatType with
        | mp3 => if mime_includes "audio/mp4" c then "m4a" else "webm"
        | mp4 => "mp4"
        end in
      if has_url c then Some (default "" (url c), extension) else None
  end.

End WrapperA.

(** ** [src/services/ytdlpWrapper.ts], the persistent session (variant B) *)
Module WrapperB.
Import JS.

(** The nodes of the engine's search result, every property optional as
    the wrapper's optional chaining takes it. *)
Record Text := { text : option string; runs : option (list (option string)) }.
  (* [runs]: the [text] of each run *)

Inductive Title := title_string (s : string) | title_text (t : Text) | no_title.

Record Video := {
  video_id : option string;
  id : option string;
  thumbnails : option (list (option string));    (* the [url] of each thumbnail *)
  title : Title;
  length_text : option Text;
  short_view_count : option Text;
  view_count : option Text;
  author : option (option string);                (* [author.name] *)
  published : option Text
}.

Record Search := {
  videos : option (list Video);
  has_continuation : option bool
}.

(** [a || b] on optional strings: the first that is present and not empty. *)
Definition or_else (a : option string) (b : option string) : option string :=
  match a with
  | Some s => if String.eqb s "" then b else a
  | None => b
  end.

(** [t?.text] *)
Definition text_of (t : option Text) : option string :=
  match t with Some t' => text t' | None => None end.

Definition title_of (video : Video) : string :=
  match title video with
  | title_string s => s
  | title_text t =>
      match or_else (text t) None with
      | Some s => s
      | None =>
          match runs t with
          | Some (first :: _) => default "Unknown" (or_else first None)
          | _ => "Unknown"
          end
      end
  | no_title => "Unknown"
  end.

Definition duration_of (video : Video) : number :=
  match or_else (text_of (length_text video)) None with
  | Some t =>
      match split ":" t with
      | [m; s] => add (mul (parseInt m) (Int 60)) (parseInt s)
      | [h; m; s] =>
          add (add (mul (parseInt h) (Int 3600)) (mul (parseInt m) (Int 60)))
              (parseInt s)
      | _ => Int 0
      end
  | None => Int 0
  end.

Definition to_VideoInfo (video : Video) : videoModel.VideoInfo :=
  let videoId := default "" (or_else (video_id video) (or_else (id video) None)) in
  let thumbnailUrl :=
    match thumbnails video with
    | Some (first :: _) => default "" (or_else first None)
    | _ => ""
    end in
  let viewCountText :=
    default "" (or_else (text_of (short_view_count video))
                        (or_else (text_of (view_count video)) None)) in
  let channel :=
    match author video with
    | Some name => default "Unknown" (or_else name None)
    | None => "Unknown"
    end in
  {| videoModel.videoId := videoId; videoModel.title := title_of video;
     videoModel.thumbnailUrl := thumbnailUrl;
     videoModel.duration := duration_of video;
     videoModel.channel := channel;
     videoModel.viewCount := Format.parseViewCount viewCountText;
     videoModel.uploadDate := or_else (text_of (published video)) None;
     videoModel.url := ("https://youtube.com/watch?v=" ++ videoId)%string;
     videoModel.isPlaylist := false; videoModel.playlistCount := None |}.

(** [searchVideos].  [search] is what the engine did: [None] when
    getting the session or searching threw, [Some None] for a [null]
    result, the result otherwise.  This variant never rejects. *)
Definition searchVideos (search : option (option Search))
    (query : string) (maxResults : Z) : videoModel.SearchResult :=
  match search with
  | Some (Some searchResults) =>
      match videos searchResults with
      | None | Some [] => WrapperA.no_results query
      | Some found =>
          {| videoModel.videos := map to_VideoInfo (WrapperA.slice0 found maxResults);
             videoModel.query := query;
             videoModel.page := 1;
             videoModel.hasMore := default false (has_continuation searchResults) |}
      end
  | _ => WrapperA.no_results query
  end.

(** A stream descriptor, as far as [downloadVideo] chooses by it. *)
Record StreamFormat := {
  url : option string;
  mime_type : option string;
  bitrate : option Z;
  height : option Z
}.

(** [(fmt.mime_type || "").includes(needle)] *)
Definition mime_includes (needle : string) (fmt : StreamFormat) : bool :=
  includes (default "" (mime_type fmt)) needle.

(** The comparator of the audio formats. *)
Definition by_bitrate (a b : StreamFormat) : Z :=
  let aBitrate := default 0 (bitrate a) in
  let bBitrate := default 0 (bitrate b) in
  bBitrate - aBitrate.

(** The comparator of the video formats. *)
Definition by_resolution (a b : StreamFormat) : Z :=
  let aHeight := default 0 (height a) in
  let bHeight := default 0 (height b) in
  let aScore := if (aHeight <=? 720) && (360 <=? aHeight) then aHeight else 0 in
  let bScore := if (bHeight <=? 720) && (360 <=? bHeight) then bHeight else 0 in
  if (0 <? aScore) && (0 <? bScore) then bScore - aScore
  else if 0 <? aScore then -1
  else if 0 <? bScore then 1
  else bHeight - aHeight.

(** The local [selectedFormat] of [downloadVideo], chosen among all the
    formats of the streaming data; [None] where the function returns
    [false] for want of a format of the kind. *)
Definition selectedFormat (formats : list StreamFormat)
    (formatType : WrapperA.FormatType) : option StreamFormat :=
  match formatType with
  | WrapperA.mp3 =>
      let audioFormats := filter (fun fmt => mime_includes "audio" fmt = true) formats in
      match audioFormats with
      | [] => None
      | _ => head (WrapperA.sort by_bitrate audioFormats)
      end
  | WrapperA.mp4 =>
      let videoFormats := filter (fun fmt => mime_includes "video" fmt = true) formats in
      match videoFormats with
      | [] => None
      | _ => head (WrapperA.sort by_resolution videoFormats)
      end
  end.

(** The local [extension] of [downloadVideo], from the mime type of the
    selected format. *)
Definition extension_of (mime : option string) (formatType : WrapperA.FormatType)
    : string :=
  let extension := "mp4" in
  match or_else mime None with
  | Some mime_type =>
      match split "/" mime_type with
      | _ :: mimeSubtype :: _ =>
          if includes mimeSubtype "webm" then "webm"
          else if includes mimeSubtype "mp4" then
            match formatType with WrapperA.mp3 => "m4a" | WrapperA.mp4 => "mp4" end
          else
            default extension
              (or_else (Some (trim (List.hd "" (split ";" mimeSubtype)))) None)
      | _ => extension
      end
  | None => match formatType with WrapperA.mp3 => "m4a" | WrapperA.mp4 => "mp4" end
  end.

(** The local [fileName] of [downloadVideo]; [title] is what is handed
    to [sanitizeFilename]. *)
Definition fileName (title : string) (mime : option string)
    (formatType : WrapperA.FormatType) : string :=
  (ytdlpWrapper.sanitizeFilename title ++ "." ++ extension_of mime formatType)%string.

End WrapperB.

(** ** [src/controllers/searchController.ts] *)
Module SearchController.

(** What [searchVideos] does with the callbacks it was given. *)
Inductive Invocation :=
| callback (result : videoModel.SearchResult)
| errorCallback.

Record state := {
  currentSearchResult : option videoModel.SearchResult;
  invoked : list Invocation
}.

(** [searchVideos], given how the wrapper's [searchVideos] promise
    settled ([None]: rejected). *)
Definition searchVideos (wrapper : option videoModel.SearchResult)
    (has_callback has_errorCallback : bool) (st : state) : state :=
  match wrapper with
  | Some result =>
      {| currentSearchResult := Some result;
         invoked := invoked st ++ (if has_callback then [callback result] else []) |}
  | None =>
      {| currentSearchResult := currentSearchResult st;
         invoked := invoked st ++ (if has_errorCallback then [errorCallback] else []) |}
  end.

End SearchController.

(** ** [src/controllers/downloadController.ts] *)
Module DownloadController.
Import videoModel.

Inductive Status := queued | downloading | paused | completed | canceled | error.
Inductive FormatType := mp4 | mp3.

Definition Status_eqb (a b : Status) : bool :=
  match a, b with
  | queued, queued | downloading, downloading | paused, paused
  | completed, completed | canceled, canceled | error, error => true
  | _, _ => false
  end.

(** [Array.prototype.includes] on an array literal of statuses. *)
Definition includes (l : list Status) (s : Status) : bool :=
  existsb (Status_eqb s) l.

Record DownloadTask := {
  downloadId : string;
  video : VideoInfo;
  formatType : FormatType;
  status : Status;
  progress : JS.number;
  error_text : option string;      (* the optional field [error] *)
  pauseFlag : bool;
  cancelFlag : bool
}.

Definition with_status (s : Status) (t : DownloadTask) : DownloadTask :=
  {| downloadId := downloadId t; video := video t; formatType := formatType t;
     status := s; progress := progress t; error_text := error_text t;
     pauseFlag := pauseFlag t; cancelFlag := cancelFlag t |}.

Definition with_progress (p : JS.number) (t : DownloadTask) : DownloadTask :=
  {| downloadId := downloadId t; video := video t; formatType := formatType t;
     status := status t; progress := p; error_text := error_text t;
     pauseFlag := pauseFlag t; cancelFlag := cancelFlag t |}.

Definition with_error (e : string) (t : DownloadTask) : DownloadTask :=
  {| downloadId := downloadId t; video := video t; formatType := formatType t;
     status := status t; progress := progress t; error_text := Some e;
     pauseFlag := pauseFlag t; cancelFlag := cancelFlag t |}.

Definition with_pauseFlag (b : bool) (t : DownloadTask) : DownloadTask :=
  {| downloadId := downloadId t; video := video t; formatType := formatType t;
     status := status t; progress := progress t; error_text := error_text t;
     pauseFlag := b; cancelFlag := cancelFlag t |}.

Definition with_cancelFlag (b : bool) (t : DownloadTask) : DownloadTask :=
  {| downloadId := downloadId t; video := video t; formatType := formatType t;
     status := status t; progress := progress t; error_text := error_text t;
     pauseFlag := pauseFlag t; cancelFlag := b |}.

(** A task object lives in the store [heap]; a reference to it is its
    index.  The map [allDownloads], the array [downloadHistory] and the
    closures handed to the wrapper all hold references to the same
    object. *)
Abbreviation ref := nat (only parsing).

(** Where a [downloadVideo] call is: suspended at its [await], run to its
    [return] after the awaited promise was fulfilled, or abandoned because
    the awaited promise was rejected. *)
Inductive Phase := awaiting | returned | rejected.

(** The activation of one [downloadVideo] call: the optional callbacks
    it was given, and where it is. *)
Record Frame := {
  has_progressCallback : bool;
  has_completeCallback : bool;
  has_errorCallback : bool;
  phase : Phase
}.

Definition settle (p : Phase) (f : Frame) : Frame :=
  {| has_progressCallback := has_progressCallback f;
     has_completeCallback := has_completeCallback f;
     has_errorCallback := has_errorCallback f;
     phase := p |}.

(** What the controller does to its surroundings: the caller's
    callbacks it invokes. *)
Inductive Invocation :=
| progressCallback (r : ref) (p : JS.number)
| completeCallback (r : ref) (filename : string)
| errorCallback (r : ref) (message : string).

Record state := {
  heap : list DownloadTask;
  frames : list Frame;                 (* [frames !! r] belongs to [heap !! r] *)
  allDownloads : gmap string ref;
  downloadHistory : list ref;
  invoked : list Invocation;            (* ghost: callbacks invoked, oldest first *)
  assigned : list (ref * Status * Status)
    (* ghost: every assignment [task.status = s], as (task, old, new) *)
}.

Definition init : state :=
  {| heap := []; frames := []; allDownloads := ∅; downloadHistory := [];
     invoked := []; assigned := [] |}.

Definition update (r : ref) (f : DownloadTask -> DownloadTask) (st : state) : state :=
  {| heap := alter f r (heap st); frames := frames st;
     allDownloads := allDownloads st; downloadHistory := downloadHistory st;
     invoked := invoked st; assigned := assigned st |}.

Definition invoke (given : bool) (i : Invocation) (st : state) : state :=
  {| heap := heap st; frames := frames st;
     allDownloads := allDownloads st; downloadHistory := downloadHistory st;
     invoked := if given then invoked st ++ [i] else invoked st;
     assigned := assigned st |}.

(** [task.status = s] *)
Definition assign_status (r : ref) (s : Status) (st : state) : state :=
  {| heap := alter (with_status s) r (heap st); frames := frames st;
     allDownloads := allDownloads st; downloadHistory := downloadHistory st;
     invoked := invoked st;
     assigned := assigned st ++ match heap st !! r with
                                | Some t => [(r, status t, s)]
                                | None => []
                                end |}.

(** [this.allDownloads.get(downloadId)]: the reference and the object. *)
Definition get (id : string) (st : state) : option (ref * DownloadTask) :=
  match allDownloads st !! id with
  | None => None
  | Some r => match heap st !! r with
              | None => None
              | Some t => Some (r, t)
              end
  end.

(** [downloadVideo], up to its [await]: [id] is what [createId()]
    returned.  The result is the new state and the reference of the
    task the call created. *)
Definition downloadVideo_call (id : string) (v : VideoInfo) (f : FormatType)
    (onProgress onComplete onError : bool) (st : state) : state * ref :=
  let r := length (heap st) in
  let task := {| downloadId := id; video := v; formatType := f;
                 status := queued; progress := JS.Int 0; error_text := None;
                 pauseFlag := false; cancelFlag := false |} in
  let st1 := {| heap := heap st ++ [task];
                frames := frames st ++
                  [{| has_progressCallback := onProgress;
                      has_completeCallback := onComplete;
                      has_errorCallback := onError;
                      phase := awaiting |}];
                allDownloads := <[id := r]> (allDownloads st);
                downloadHistory := downloadHistory st;
                invoked := invoked st; assigned := assigned st |} in
  (assign_status r downloading st1, r).

(** The progress closure handed to the wrapper. *)
Definition on_progress (r : ref) (p : JS.number) (st : state) : state :=
  match frames st !! r with
  | None => st
  | Some fr =>
      invoke (has_progressCallback fr) (progressCallback r p)
        (update r (with_progress p) st)
  end.

(** The completion closure handed to the wrapper. *)
Definition on_complete (r : ref) (filename : string) (st : state) : state :=
  match heap st !! r, frames st !! r with
  | Some t, Some fr =>
      if negb (cancelFlag t) then
        invoke (has_completeCallback fr) (completeCallback r filename)
          (assign_status r completed (update r (with_progress (JS.Int 100)) st))
      else st
  | _, _ => st
  end.

(** [downloadVideo], from the point where the awaited wrapper call
    resolves with [success]; returns the download id. *)
Definition downloadVideo_resume (r : ref) (success : bool) (st : state)
    : state * string :=
  match heap st !! r, frames st !! r with
  | Some t, Some fr =>
      let st1 :=
        if negb success then
          if cancelFlag t then
            update r (with_error "Canceled") (assign_status r canceled st)
          else
            invoke (has_errorCallback fr) (errorCallback r "Download failed")
              (update r (with_error "Download failed") (assign_status r error st))
        else st in
      ({| heap := heap st1; frames := alter (settle returned) r (frames st1);
          allDownloads := allDownloads st1;
          downloadHistory := downloadHistory st1 ++ [r];
          invoked := invoked st1; assigned := assigned st1 |},
       downloadId t)
  | _, _ => (st, "")
  end.

Definition pauseDownload (id : string) (st : state) : state * bool :=
  match get id st with
  | None => (st, false)
  | Some (r, task) =>
      if negb (includes [downloading; queued] (status task)) then (st, false)
      else (assign_status r paused (update r (with_pauseFlag true) st), true)
  end.

Definition resumeDownload (id : string) (st : state) : state * bool :=
  match get id st with
  | None => (st, false)
  | Some (r, task) =>
      if negb (Status_eqb (status task) paused) then (st, false)
      else (assign_status r downloading (update r (with_pauseFlag false) st), true)
  end.

Definition cancelDownload (id : string) (st : state) : state * bool :=
  match get id st with
  | None => (st, false)
  | Some (r, task) =>
      if includes [completed; canceled; error] (status task) then (st, false)
      else
        (update r (with_error "Canceled")
           (assign_status r canceled
              (update r (with_pauseFlag false)
                 (update r (with_cancelFlag true) st))),
         true)
  end.

(** [getDownload(downloadId)]: the task object, if there is one. *)
Definition getDownload (id : string) (st : state) : option DownloadTask :=
  snd <$> get id st.

(** What can happen to a controller, one atomic turn of the event loop
    at a time. *)
Inductive event :=
| DownloadVideo (id : string) (v : VideoInfo) (f : FormatType)
    (onProgress onComplete onError : bool)
| WrapperProgress (r : ref) (p : JS.number)
| WrapperComplete (r : ref) (filename : string)
| WrapperResolves (r : ref) (success : bool)
| WrapperRejects (r : ref)
| PauseDownload (id : string)
| ResumeDownload (id : string)
| CancelDownload (id : string).

(** [downloadVideo] when the awaited wrapper call is rejected: the call
    is abandoned where it stands. *)
Definition downloadVideo_reject (r : ref) (st : state) : state :=
  {| heap := heap st; frames := alter (settle rejected) r (frames st);
     allDownloads := allDownloads st; downloadHistory := downloadHistory st;
     invoked := invoked st; assigned := assigned st |}.

Definition Phase_eqb (a b : Phase) : bool :=
  match a, b with
  | awaiting, awaiting | returned, returned | rejected, rejected => true
  | _, _ => false
  end.

Definition in_phase (p : Phase) (r : ref) (st : state) : bool :=
  match frames st !! r with
  | Some fr => Phase_eqb (phase fr) p
  | None => false
  end.

Definition is_suspended : ref -> state -> bool := in_phase awaiting.
Definition has_returned : ref -> state -> bool := in_phase returned.

Definition allocated (r : ref) (st : state) : bool :=
  bool_decide (r < length (heap st))%nat.

(** [step e st] is [None] when [e] cannot happen in [st]: the wrapper
    only holds closures of calls that were made, and an awaited promise
    resolves once. *)
Definition step (e : event) (st : state) : option state :=
  match e with
  | DownloadVideo id v f p c x => Some (fst (downloadVideo_call id v f p c x st))
  | WrapperProgress r p => if allocated r st then Some (on_progress r p st) else None
  | WrapperComplete r fn => if allocated r st then Some (on_complete r fn st) else None
  | WrapperResolves r ok =>
      if is_suspended r st then Some (fst (downloadVideo_resume r ok st)) else None
  | WrapperRejects r =>
      if is_suspended r st then Some (downloadVideo_reject r st) else None
  | PauseDownload id => Some (fst (pauseDownload id st))
  | ResumeDownload id => Some (fst (resumeDownload id st))
  | CancelDownload id => Some (fst (cancelDownload id st))
  end.

Fixpoint run (es : list event) (st : state) : option state :=
  match es with
  | [] => Some st
  | e :: es' => match step e st with
                | Some st' => run es' st'
                | None => None
                end
  end.

Inductive reachable : state -> Prop :=
| reachable_init : reachable init
| reachable_step st e st' : reachable st -> step e st = Some st' -> reachable st'.

End DownloadController.

(** ** The buttons of a download: [renderDownloadItem] of
    [src/views/DownloadsList.tsx] and the handlers of [App.tsx] *)
Module Downloads.
Import DownloadController.

(** The conditions under which the row of a task shows its buttons. *)
Definition isActive (item : DownloadTask) : bool :=
  includes [queued; downloading; paused] (status item).

Definition isPaused (item : DownloadTask) : bool :=
  Status_eqb (status item) paused.

Definition canInteract (item : DownloadTask) : bool :=
  includes [downloading; paused; queued] (status item).

(** What the first button says, when it is shown. *)
Definition first_button (item : DownloadTask) : option string :=
  if isActive item && canInteract item
  then Some (if isPaused item then "Resume" else "Pause")
  else None.

(** [handlePauseResume(downloadId)], with the controller in place. *)
Definition handlePauseResume (downloadId : string) (st : state) : state :=
  match getDownload downloadId st with
  | None => st
  | Some task =>
      if Status_eqb (status task) paused
      then (resumeDownload downloadId st).1
      else (pauseDownload downloadId st).1
  end.

(** [handleCancel(downloadId)], with the controller in place. *)
Definition handleCancel (downloadId : string) (st : state) : state :=
  (cancelDownload downloadId st).1.

End Downloads.

(** * Properties *)

(** ** The download controller *)
Section DownloadControllerFacts.
Import videoModel DownloadController.

Definition terminal (s : Status) : bool := includes [completed; canceled; error] s.

(** A video to run the controller on. *)
Definition a_video : VideoInfo :=
  {| videoId := "dQw4w9WgXcQ"; title := "a title"; thumbnailUrl := "";
     duration := JS.Int 212; channel := "a channel"; viewCount := None;
     uploadDate := None; url := "https://youtube.com/watch?v=dQw4w9WgXcQ";
     isPlaylist := false; playlistCount := None |}.

Lemma get_Some id st r t :
  get id st = Some (r, t) <-> allDownloads st !! id = Some r /\ heap st !! r = Some t.
Proof.
  unfold get. destruct (allDownloads st !! id) as [r'|].
  - destruct (heap st !! r') as [t'|] eqn:E; split.
    + intros [= <- <-]. done.
    + intros [[= <-] ?]. congruence.
    + done.
    + intros [[= <-] ?]. congruence.
  - split; [done | intros [? _]; done].
Qed.

(** The transitions the specification lists. *)
Inductive listed : Status -> Status -> Prop :=
| begin_download : listed queued downloading
| user_pause : listed downloading paused
| user_pause_queued : listed queued paused
| user_resume : listed paused downloading
| user_cancel s : terminal s = false -> listed s canceled
| wrapper_completes : listed downloading completed
| wrapper_fails : listed downloading error.

(** The transitions the controller can perform in addition: the
    wrapper's outcome is recorded whatever non-canceled status the task
    has by then. *)
Inductive unlisted : Status -> Status -> Prop :=
| completes_while_paused : unlisted paused completed
| fails_while_paused : unlisted paused error
| fails_after_completion : unlisted completed error
| completes_after_failure : unlisted error completed.

Definition errors_of (r : ref) (log : list Invocation) : list string :=
  omap (fun i => match i with
                 | errorCallback r' m => if decide (r' = r) then Some m else None
                 | _ => None
                 end) log.

Definition completions_of (r : ref) (log : list Invocation) : list string :=
  omap (fun i => match i with
                 | completeCallback r' f => if decide (r' = r) then Some f else None
                 | _ => None
                 end) log.

Definition task_ok (t : DownloadTask) : Prop :=
  status t <> queued /\ (cancelFlag t = true <-> status t = canceled).

Record invariant (st : state) : Prop := {
  inv_frames : length (frames st) = length (heap st);
  inv_tasks : Forall task_ok (heap st);
  inv_history : forall r,
    count_occ Nat.eq_dec (downloadHistory st) r =
    if has_returned r st then 1%nat else 0%nat;
  inv_errors : forall r,
    has_returned r st = false -> errors_of r (invoked st) = [];
  inv_assigned : forall r a b,
    (r, a, b) ∈ assigned st -> a <> b -> listed a b \/ unlisted a b
}.

Lemma alter_as_insert {A} (f : A -> A) (l : list A) i x :
  l !! i = Some x -> alter f i l = <[i := f x]> l.
Proof.
  intros Hx. apply list_eq. intros j.
  destruct (decide (i = j)) as [->|Hne].
  - rewrite list_lookup_alter_eq, Hx, list_lookup_insert_eq; [done|].
    by eapply lookup_lt_Some.
  - by rewrite list_lookup_alter_ne, list_lookup_insert_ne.
Qed.

(** Each operation as one update of the state. *)
Lemma on_progress_eq r p st t fr :
  heap st !! r = Some t -> frames st !! r = Some fr ->
  on_progress r p st =
  {| heap := <[r := with_progress p t]> (heap st); frames := frames st;
     allDownloads := allDownloads st; downloadHistory := downloadHistory st;
     invoked := invoked st ++
                (if has_progressCallback fr then [progressCallback r p] else []);
     assigned := assigned st |}.
Proof.
  intros Ht Hfr. unfold on_progress, invoke, update. rewrite Hfr. simpl.
  rewrite (alter_as_insert _ _ _ _ Ht).
  destruct (has_progressCallback fr); [done|]. by rewrite app_nil_r.
Qed.

Lemma on_complete_eq r fn st t fr :
  heap st !! r = Some t -> frames st !! r = Some fr ->
  on_complete r fn st =
  if cancelFlag t then st else
  {| heap := <[r := with_status completed (with_progress (JS.Int 100) t)]> (heap st);
     frames := frames st;
     allDownloads := allDownloads st; downloadHistory := downloadHistory st;
     invoked := invoked st ++
                (if has_completeCallback fr then [completeCallback r fn] else []);
     assigned := assigned st ++ [(r, status t, completed)] |}.
Proof.
  intros Ht Hfr. unfold on_complete, invoke, update, assign_status.
  rewrite Ht, Hfr. destruct (cancelFlag t); simpl; [done|].
  rewrite list_alter_alter_eq, (alter_as_insert _ _ _ _ Ht).
  rewrite list_lookup_alter_eq, Ht. simpl.
  destruct (has_completeCallback fr); [done|]. by rewrite app_nil_r.
Qed.

Lemma downloadVideo_resume_eq r ok st t fr :
  heap st !! r = Some t -> frames st !! r = Some fr ->
  downloadVideo_resume r ok st =
  ({| heap := if ok then heap st else
              if cancelFlag t
              then <[r := with_error "Canceled" (with_status canceled t)]> (heap st)
              else <[r := with_error "Download failed" (with_status error t)]> (heap st);
      frames := <[r := settle returned fr]> (frames st);
      allDownloads := allDownloads st;
      downloadHistory := downloadHistory st ++ [r];
      invoked := invoked st ++
                 (if negb ok && negb (cancelFlag t) && has_errorCallback fr
                  then [errorCallback r "Download failed"] else []);
      assigned := assigned st ++
                  (if ok then [] else
                   [(r, status t, if cancelFlag t then canceled else error)]) |},
   downloadId t).
Proof.
  intros Ht Hfr. unfold downloadVideo_resume, invoke, update, assign_status.
  rewrite Ht, Hfr. f_equal.
  destruct ok; simpl.
  - rewrite !app_nil_r. by rewrite (alter_as_insert _ _ _ _ Hfr).
  - destruct (cancelFlag t); simpl;
      rewrite list_alter_alter_eq, (alter_as_insert _ _ _ _ Ht),
        (alter_as_insert _ _ _ _ Hfr), ?app_nil_r; [done|].
    destruct (has_errorCallback fr); [done|]. by rewrite app_nil_r.
Qed.

Lemma pauseDownload_eq id st r t :
  get id st = Some (r, t) ->
  pauseDownload id st =
  if includes [downloading; queued] (status t) then
    ({| heap := <[r := with_status paused (with_pauseFlag true t)]> (heap st);
        frames := frames st;
        allDownloads := allDownloads st; downloadHistory := downloadHistory st;
        invoked := invoked st;
        assigned := assigned st ++ [(r, status t, paused)] |}, true)
  else (st, false).
Proof.
  intros Hget. unfold pauseDownload. rewrite Hget.
  apply get_Some in Hget as [_ Ht].
  destruct (includes _ _); simpl; [|done].
  unfold assign_status, update. simpl.
  by rewrite list_alter_alter_eq, (alter_as_insert _ _ _ _ Ht), list_lookup_alter_eq, Ht.
Qed.

Lemma resumeDownload_eq id st r t :
  get id st = Some (r, t) ->
  resumeDownload id st =
  if Status_eqb (status t) paused then
    ({| heap := <[r := with_status downloading (with_pauseFlag false t)]> (heap st);
        frames := frames st;
        allDownloads := allDownloads st; downloadHistory := downloadHistory st;
        invoked := invoked st;
        assigned := assigned st ++ [(r, status t, downloading)] |}, true)
  else (st, false).
Proof.
  intros Hget. unfold resumeDownload. rewrite Hget.
  apply get_Some in Hget as [_ Ht].
  destruct (Status_eqb _ _); simpl; [|done].
  unfold assign_status, update. simpl.
  by rewrite list_alter_alter_eq, (alter_as_insert _ _ _ _ Ht), list_lookup_alter_eq, Ht.
Qed.

Lemma cancelDownload_eq id st r t :
  get id st = Some (r, t) ->
  cancelDownload id st =
  if includes [completed; canceled; error] (status t) then (st, false) else
    ({| heap := <[r := with_error "Canceled" (with_status canceled
                        (with_pauseFlag false (with_cancelFlag true t)))]> (heap st);
        frames := frames st;
        allDownloads := allDownloads st; downloadHistory := downloadHistory st;
        invoked := invoked st;
        assigned := assigned st ++ [(r, status t, canceled)] |}, true).
Proof.
  intros Hget. unfold cancelDownload. rewrite Hget.
  apply get_Some in Hget as [_ Ht].
  destruct (includes _ _); simpl; [done|].
  unfold assign_status, update. simpl.
  by rewrite !list_alter_alter_eq, (alter_as_insert _ _ _ _ Ht),
    list_lookup_alter_eq, Ht.
Qed.

Lemma downloadVideo_call_eq id v f p c x st :
  downloadVideo_call id v f p c x st =
  ({| heap := heap st ++
              [{| downloadId := id; video := v; formatType := f;
                  status := downloading; progress := JS.Int 0; error_text := None;
                  pauseFlag := false; cancelFlag := false |}];
      frames := frames st ++
                [{| has_progressCallback := p; has_completeCallback := c;
                    has_errorCallback := x; phase := awaiting |}];
      allDownloads := <[id := length (heap st)]> (allDownloads st);
      downloadHistory := downloadHistory st;
      invoked := invoked st;
      assigned := assigned st ++ [(length (heap st), queued, downloading)] |},
   length (heap st)).
Proof.
  unfold downloadVideo_call, assign_status. simpl.
  rewrite list_lookup_middle by done.
  replace (length (heap st)) with (length (heap st) + 0)%nat at 1 by lia.
  by rewrite alter_app_r.
Qed.

Lemma invariant_init : invariant init.
Proof.
  split; simpl; try done.
  intros r a b H. by apply elem_of_nil in H.
Qed.

Lemma in_phase_Some p r st fr :
  frames st !! r = Some fr -> in_phase p r st = Phase_eqb (phase fr) p.
Proof. unfold in_phase. by intros ->. Qed.

Lemma is_suspended_inv r st :
  is_suspended r st = true ->
  exists fr, frames st !! r = Some fr /\ phase fr = awaiting.
Proof.
  unfold is_suspended, in_phase. destruct (frames st !! r) as [fr|]; [|done].
  intros H. exists fr. split; [done|]. by destruct (phase fr).
Qed.

Lemma allocated_spec r st : allocated r st = true <-> (r < length (heap st))%nat.
Proof. unfold allocated. by rewrite bool_decide_eq_true. Qed.

Lemma task_ok_at st r t : invariant st -> heap st !! r = Some t -> task_ok t.
Proof. intros [_ Ht _ _ _] Hr. by eapply Forall_lookup_1. Qed.

Lemma errors_of_app r l1 l2 : errors_of r (l1 ++ l2) = errors_of r l1 ++ errors_of r l2.
Proof. apply omap_app. Qed.

Lemma completions_of_app r l1 l2 :
  completions_of r (l1 ++ l2) = completions_of r l1 ++ completions_of r l2.
Proof. apply omap_app. Qed.

Lemma allocated_same_length r st st' :
  length (heap st') = length (heap st) -> allocated r st' = allocated r st.
Proof. unfold allocated. by intros ->. Qed.

Lemma in_phase_same_frames p r st st' :
  frames st' = frames st -> in_phase p r st' = in_phase p r st.
Proof. unfold in_phase. by intros ->. Qed.

(** The phases after the call of [r] was settled as [q]. *)
Lemma in_phase_settle p q r r' fr st st' :
  frames st !! r = Some fr ->
  frames st' = <[r := settle q fr]> (frames st) ->
  in_phase p r' st' = if decide (r = r') then Phase_eqb q p else in_phase p r' st.
Proof.
  intros Hfr Hst. unfold in_phase. rewrite Hst.
  destruct (decide (r = r')) as [<-|Hne].
  - rewrite list_lookup_insert_eq; [done|]. by eapply lookup_lt_Some.
  - by rewrite list_lookup_insert_ne.
Qed.

(** The phases after a new call. *)
Lemma in_phase_call p r fr st st' :
  frames st' = frames st ++ [fr] ->
  in_phase p r st' =
  if decide (r = length (frames st)) then Phase_eqb (phase fr) p else in_phase p r st.
Proof.
  intros Hst. unfold in_phase. rewrite Hst.
  destruct (decide (r = length (frames st))) as [->|Hne].
  - by rewrite list_lookup_middle.
  - destruct (decide (r < length (frames st))%nat) as [Hlt|Hge].
    + by rewrite lookup_app_l.
    + rewrite !(proj2 (lookup_ge_None _ _)); [done|lia|].
      rewrite length_app. simpl. lia.
Qed.

Lemma downloadVideo_reject_eq r st fr :
  frames st !! r = Some fr ->
  downloadVideo_reject r st =
  {| heap := heap st; frames := <[r := settle rejected fr]> (frames st);
     allDownloads := allDownloads st; downloadHistory := downloadHistory st;
     invoked := invoked st; assigned := assigned st |}.
Proof.
  intros Hfr. unfold downloadVideo_reject. by rewrite (alter_as_insert _ _ _ _ Hfr).
Qed.

(** A step that rewrites one task in place and leaves the frames and the
    history alone keeps the invariant, provided the new task is fine and
    what it adds to the two logs is. *)
Lemma invariant_in_place st st' r t t' :
  invariant st ->
  heap st !! r = Some t ->
  heap st' = <[r := t']> (heap st) ->
  frames st' = frames st ->
  downloadHistory st' = downloadHistory st ->
  task_ok t' ->
  (forall r', errors_of r' (invoked st') = errors_of r' (invoked st)) ->
  (assigned st' = assigned st \/
   assigned st' = assigned st ++ [(r, status t, status t')] /\
   (status t <> status t' -> listed (status t) (status t') \/
                             unlisted (status t) (status t'))) ->
  invariant st'.
Proof.
  intros [Hf Ht Hh He Ha] Hr Hheap Hframes Hhist Hok Herr Hasg.
  assert (Hlen : length (heap st') = length (heap st))
    by (by rewrite Hheap, length_insert).
  split.
  - by rewrite Hframes, Hlen.
  - rewrite Hheap. by apply Forall_insert.
  - intros r'. rewrite Hhist, Hh. unfold has_returned.
    by rewrite (in_phase_same_frames _ _ _ _ Hframes).
  - intros r'. unfold has_returned.
    rewrite Herr, (in_phase_same_frames _ _ _ _ Hframes). apply He.
  - intros r' a b Hin Hne. destruct Hasg as [Hasg|[Hasg Hnew]]; rewrite Hasg in Hin.
    + by apply (Ha r').
    + apply elem_of_app in Hin as [Hin|Hin%list_elem_of_singleton]; [by apply (Ha r')|].
      injection Hin as -> -> ->. by apply Hnew.
Qed.

(** The status a wrapper outcome is recorded over. *)
Lemma outcome_transition t s :
  task_ok t -> cancelFlag t = false -> s = completed \/ s = error ->
  status t <> s -> listed (status t) s \/ unlisted (status t) s.
Proof.
  intros [Hq Hc] Hcf Hs Hne.
  assert (status t <> canceled) by (intros E; apply Hc in E; congruence).
  destruct Hs as [-> | ->]; destruct (status t); try done;
    first [ left; by constructor | right; by constructor ].
Qed.

Lemma invariant_step e st st' :
  invariant st -> step e st = Some st' -> invariant st'.
Proof.
  intros Hinv Hstep. pose proof Hinv as [Hf Ht Hh He Ha].
  destruct e as [id v f p c x|r p|r fn|r ok|r|id|id|id]; cbn [step] in Hstep.
  - rewrite downloadVideo_call_eq in Hstep. cbn [fst] in Hstep.
    injection Hstep as <-.
    assert (Hsame : forall r,
      has_returned r
        {| heap := heap st ++
             [{| downloadId := id; video := v; formatType := f;
                 status := downloading; progress := JS.Int 0; error_text := None;
                 pauseFlag := false; cancelFlag := false |}];
           frames := frames st ++
             [{| has_progressCallback := p; has_completeCallback := c;
                 has_errorCallback := x; phase := awaiting |}];
           allDownloads := <[id := length (heap st)]> (allDownloads st);
           downloadHistory := downloadHistory st; invoked := invoked st;
           assigned := assigned st ++ [(length (heap st), queued, downloading)] |}
      = has_returned r st).
    { intros r. unfold has_returned. erewrite in_phase_call by done. simpl.
      destruct (decide (r = length (frames st))) as [->|]; [|done].
      unfold in_phase. by rewrite (proj2 (lookup_ge_None _ _)). }
    split; cbn [heap frames downloadHistory invoked assigned].
    + rewrite !length_app. simpl. lia.
    + apply Forall_app. split; [done|]. repeat constructor; simpl; done.
    + intros r. by rewrite Hsame, Hh.
    + intros r. rewrite Hsame. apply He.
    + intros r a b [Hin|Hin%list_elem_of_singleton]%elem_of_app Hne.
      * by apply (Ha r).
      * injection Hin as -> -> ->. left. constructor.
  - destruct (allocated r st) eqn:Hal; [|done]. injection Hstep as <-.
    apply allocated_spec in Hal.
    destruct (lookup_lt_is_Some_2 (heap st) r Hal) as [t Hr].
    destruct (lookup_lt_is_Some_2 (frames st) r ltac:(lia)) as [fr Hfr].
    rewrite (on_progress_eq _ _ _ _ _ Hr Hfr).
    pose proof (task_ok_at _ _ _ Hinv Hr) as Hok.
    eapply (invariant_in_place st _ r t); try done; simpl.
    + intros r'. rewrite errors_of_app.
      destruct (has_progressCallback fr); simpl; by rewrite app_nil_r.
    + by left.
  - destruct (allocated r st) eqn:Hal; [|done]. injection Hstep as <-.
    apply allocated_spec in Hal.
    destruct (lookup_lt_is_Some_2 (heap st) r Hal) as [t Hr].
    destruct (lookup_lt_is_Some_2 (frames st) r ltac:(lia)) as [fr Hfr].
    rewrite (on_complete_eq _ _ _ _ _ Hr Hfr).
    pose proof (task_ok_at _ _ _ Hinv Hr) as Hok.
    destruct (cancelFlag t) eqn:Hcf; [done|].
    eapply (invariant_in_place st _ r t); try done; simpl.
    + destruct Hok as [Hq Hc]. split; simpl; [done|]. rewrite Hcf. split; done.
    + intros r'. rewrite errors_of_app.
      destruct (has_completeCallback fr); simpl; by rewrite app_nil_r.
    + right. split; [done|]. apply outcome_transition; auto.
  - destruct (is_suspended r st) eqn:Hsus; [|done]. injection Hstep as <-.
    destruct (is_suspended_inv _ _ Hsus) as (fr & Hfr & Hph).
    assert (Hal : (r < length (heap st))%nat)
      by (rewrite <- Hf; by eapply lookup_lt_Some).
    destruct (lookup_lt_is_Some_2 (heap st) r Hal) as [t Hr].
    rewrite (downloadVideo_resume_eq _ _ _ _ _ Hr Hfr). cbn [fst].
    pose proof (task_ok_at _ _ _ Hinv Hr) as Hok.
    set (h' := if ok then heap st else _).
    set (i' := invoked st ++ _). set (a' := assigned st ++ _).
    assert (Hlen : length h' = length (heap st)).
    { subst h'. destruct ok, (cancelFlag t); by rewrite ?length_insert. }
    assert (Hret : forall r',
      has_returned r' {| heap := h'; frames := <[r := settle returned fr]> (frames st);
                         allDownloads := allDownloads st;
                         downloadHistory := downloadHistory st ++ [r];
                         invoked := i'; assigned := a' |} =
      if decide (r = r') then true else has_returned r' st).
    { intros r'. by apply (in_phase_settle returned returned r r' fr st). }
    assert (Hold : has_returned r st = false).
    { unfold has_returned. by rewrite (in_phase_Some _ _ _ _ Hfr), Hph. }
    split; cbn [heap frames downloadHistory invoked assigned].
    + by rewrite length_insert, Hlen.
    + subst h'. destruct ok; [done|].
      destruct Hok as [Hq Hc].
      destruct (cancelFlag t) eqn:Hcf; apply Forall_insert; try done.
      split; simpl; [done|]. rewrite Hcf. split; done.
    + intros r'. rewrite count_occ_app, Hh, Hret. simpl.
      destruct (decide (r = r')) as [<-|Hne].
      * rewrite Hold. by destruct (Nat.eq_dec r r).
      * destruct (Nat.eq_dec r r'); [done|]. lia.
    + intros r'. rewrite Hret.
      destruct (decide (r = r')) as [<-|Hne]; [done|]. intros Hr'.
      subst i'. rewrite errors_of_app, (He r' Hr'). simpl.
      destruct (negb ok && negb (cancelFlag t) && has_errorCallback fr); [|done].
      simpl. by rewrite decide_False.
    + intros r' a b Hin Hne. subst a'.
      apply elem_of_app in Hin as [Hin|Hin]; [by apply (Ha r')|].
      destruct ok; [by apply elem_of_nil in Hin|].
      apply list_elem_of_singleton in Hin. injection Hin as -> -> ->.
      destruct (cancelFlag t) eqn:Hcf.
      * destruct Hok as [_ [Hc _]]. by rewrite (Hc Hcf) in Hne.
      * apply outcome_transition; auto.
  - destruct (is_suspended r st) eqn:Hsus; [|done]. injection Hstep as <-.
    destruct (is_suspended_inv _ _ Hsus) as (fr & Hfr & Hph).
    rewrite (downloadVideo_reject_eq _ _ _ Hfr).
    assert (Hret : forall r',
      has_returned r' {| heap := heap st; frames := <[r := settle rejected fr]> (frames st);
                         allDownloads := allDownloads st;
                         downloadHistory := downloadHistory st;
                         invoked := invoked st; assigned := assigned st |} =
      has_returned r' st).
    { intros r'. unfold has_returned.
      etrans; [by apply (in_phase_settle returned rejected r r' fr st)|].
      destruct (decide (r = r')) as [<-|]; [|done].
      by rewrite (in_phase_Some _ _ _ _ Hfr), Hph. }
    split; cbn [heap frames downloadHistory invoked assigned]; try done.
    + by rewrite length_insert.
    + intros r'. by rewrite Hret, Hh.
    + intros r'. rewrite Hret. apply He.
  - injection Hstep as <-.
    destruct (get id st) as [[r t]|] eqn:Hget;
      [|unfold pauseDownload; by rewrite Hget].
    rewrite (pauseDownload_eq _ _ _ _ Hget).
    apply get_Some in Hget as [_ Hr].
    destruct (task_ok_at _ _ _ Hinv Hr) as [Hq Hc].
    destruct (includes _ (status t)) eqn:Hin; [|done]. cbn [fst].
    eapply (invariant_in_place st _ r t); try done; simpl.
    + split; simpl; [done|]. split; [|done]. intros Hcf.
      apply Hc in Hcf. by rewrite Hcf in Hin.
    + right. split; [done|]. intros _.
      destruct (status t); try done; left; constructor.
  - injection Hstep as <-.
    destruct (get id st) as [[r t]|] eqn:Hget;
      [|unfold resumeDownload; by rewrite Hget].
    rewrite (resumeDownload_eq _ _ _ _ Hget).
    apply get_Some in Hget as [_ Hr].
    destruct (task_ok_at _ _ _ Hinv Hr) as [Hq Hc].
    destruct (Status_eqb (status t) paused) eqn:Hin; [|done]. cbn [fst].
    eapply (invariant_in_place st _ r t); try done; simpl.
    + split; simpl; [done|]. split; [|done]. intros Hcf.
      apply Hc in Hcf. by rewrite Hcf in Hin.
    + right. split; [done|]. intros _.
      destruct (status t); try done; left; constructor.
  - injection Hstep as <-.
    destruct (get id st) as [[r t]|] eqn:Hget;
      [|unfold cancelDownload; by rewrite Hget].
    rewrite (cancelDownload_eq _ _ _ _ Hget).
    apply get_Some in Hget as [_ Hr].
    destruct (includes _ (status t)) eqn:Hin; [done|]. cbn [fst].
    eapply (invariant_in_place st _ r t); try done; simpl.
    right. split; [done|]. intros _. left. by constructor.
Qed.

Lemma reachable_invariant st : reachable st -> invariant st.
Proof.
  induction 1 as [|st e st' _ IH Hstep]; [apply invariant_init|].
  by eapply invariant_step.
Qed.

(** Once the cancel flag of a task is set, one more step leaves the
    task canceled, invokes no completion callback for it, and changes
    its progress only by a progress report of the wrapper. *)
Lemma canceled_step e st st' r t :
  invariant st -> heap st !! r = Some t -> cancelFlag t = true ->
  step e st = Some st' ->
  exists t', heap st' !! r = Some t' /\ cancelFlag t' = true /\
    completions_of r (invoked st') = completions_of r (invoked st) /\
    (progress t' = progress t \/ e = WrapperProgress r (progress t')).
Proof.
  intros Hinv Hr Hcf Hstep. pose proof Hinv as [Hf _ _ _ _].
  pose proof (lookup_lt_Some _ _ _ Hr) as Hlt.
  destruct e as [id v f p c x|r0 p|r0 fn|r0 ok|r0|id|id|id]; cbn [step] in Hstep.
  - rewrite downloadVideo_call_eq in Hstep. injection Hstep as <-. simpl.
    exists t. rewrite lookup_app_l by done. auto.
  - destruct (allocated r0 st) eqn:Hal; [|done]. injection Hstep as <-.
    apply allocated_spec in Hal.
    destruct (lookup_lt_is_Some_2 (heap st) r0 Hal) as [t0 Hr0].
    destruct (lookup_lt_is_Some_2 (frames st) r0 ltac:(lia)) as [fr Hfr].
    rewrite (on_progress_eq _ _ _ _ _ Hr0 Hfr). simpl.
    rewrite completions_of_app.
    assert (Hnone : completions_of r
              (if has_progressCallback fr then [progressCallback r0 p] else []) = []).
    { by destruct (has_progressCallback fr). }
    rewrite Hnone, app_nil_r.
    destruct (decide (r0 = r)) as [->|Hne].
    + rewrite list_lookup_insert_eq by done. simplify_eq.
      exists (with_progress p t). auto.
    + rewrite list_lookup_insert_ne by done. exists t. auto.
  - destruct (allocated r0 st) eqn:Hal; [|done]. injection Hstep as <-.
    apply allocated_spec in Hal.
    destruct (lookup_lt_is_Some_2 (heap st) r0 Hal) as [t0 Hr0].
    destruct (lookup_lt_is_Some_2 (frames st) r0 ltac:(lia)) as [fr Hfr].
    rewrite (on_complete_eq _ _ _ _ _ Hr0 Hfr).
    destruct (cancelFlag t0) eqn:Hcf0; [exists t; auto|]. simpl.
    assert (Hne : r0 <> r) by (intros ->; congruence).
    rewrite list_lookup_insert_ne by done. exists t.
    rewrite completions_of_app.
    destruct (has_completeCallback fr); simpl; rewrite ?decide_False by done;
      rewrite ?app_nil_r; auto.
  - destruct (is_suspended r0 st) eqn:Hsus; [|done]. injection Hstep as <-.
    destruct (is_suspended_inv _ _ Hsus) as (fr & Hfr & _).
    assert (Hal : (r0 < length (heap st))%nat)
      by (rewrite <- Hf; by eapply lookup_lt_Some).
    destruct (lookup_lt_is_Some_2 (heap st) r0 Hal) as [t0 Hr0].
    rewrite (downloadVideo_resume_eq _ _ _ _ _ Hr0 Hfr). simpl.
    rewrite completions_of_app.
    assert (Hnone : completions_of r
              (if negb ok && negb (cancelFlag t0) && has_errorCallback fr
               then [errorCallback r0 "Download failed"] else []) = [])
      by (by destruct (_ && _)).
    rewrite Hnone, app_nil_r.
    destruct ok; [exists t; auto|].
    destruct (decide (r0 = r)) as [->|Hne].
    + simplify_eq. rewrite Hcf. rewrite list_lookup_insert_eq by done.
      eexists. split; [done|]. auto.
    + destruct (cancelFlag t0); rewrite list_lookup_insert_ne by done;
        exists t; auto.
  - destruct (is_suspended r0 st) eqn:Hsus; [|done]. injection Hstep as <-.
    exists t. auto.
  - injection Hstep as <-.
    destruct (get id st) as [[r0 t0]|] eqn:Hget;
      [|unfold pauseDownload; rewrite Hget; exists t; auto].
    rewrite (pauseDownload_eq _ _ _ _ Hget).
    apply get_Some in Hget as [_ Hr0].
    destruct (includes _ (status t0)) eqn:Hin; [|exists t; auto]. simpl.
    assert (Hne : r0 <> r).
    { intros ->. simplify_eq. destruct (task_ok_at _ _ _ Hinv Hr) as [_ Hc].
      apply Hc in Hcf. by rewrite Hcf in Hin. }
    rewrite list_lookup_insert_ne by done. exists t; auto.
  - injection Hstep as <-.
    destruct (get id st) as [[r0 t0]|] eqn:Hget;
      [|unfold resumeDownload; rewrite Hget; exists t; auto].
    rewrite (resumeDownload_eq _ _ _ _ Hget).
    apply get_Some in Hget as [_ Hr0].
    destruct (Status_eqb (status t0) paused) eqn:Hin; [|exists t; auto]. simpl.
    assert (Hne : r0 <> r).
    { intros ->. simplify_eq. destruct (task_ok_at _ _ _ Hinv Hr) as [_ Hc].
      apply Hc in Hcf. by rewrite Hcf in Hin. }
    rewrite list_lookup_insert_ne by done. exists t; auto.
  - injection Hstep as <-.
    destruct (get id st) as [[r0 t0]|] eqn:Hget;
      [|unfold cancelDownload; rewrite Hget; exists t; auto].
    rewrite (cancelDownload_eq _ _ _ _ Hget).
    apply get_Some in Hget as [_ Hr0].
    destruct (includes _ (status t0)) eqn:Hin; [exists t; auto|]. simpl.
    assert (Hne : r0 <> r).
    { intros ->. simplify_eq. destruct (task_ok_at _ _ _ Hinv Hr) as [_ Hc].
      apply Hc in Hcf. by rewrite Hcf in Hin. }
    rewrite list_lookup_insert_ne by done. exists t; auto.
Qed.

Lemma run_invariant es : forall st st',
  invariant st -> run es st = Some st' -> invariant st'.
Proof.
  induction es as [|e es IH]; intros st st' Hinv Hrun; simpl in Hrun.
  - by injection Hrun as <-.
  - destruct (step e st) as [st1|] eqn:Hstep; [|done].
    eapply IH; [|done]. by eapply invariant_step.
Qed.

Lemma run_reachable es : forall st st',
  reachable st -> run es st = Some st' -> reachable st'.
Proof.
  induction es as [|e es IH]; intros st st' Hre Hrun; simpl in Hrun.
  - by injection Hrun as <-.
  - destruct (step e st) as [st1|] eqn:Hstep; [|done].
    eapply IH; [|done]. by eapply reachable_step.
Qed.

Lemma canceled_run es : forall st st' r t,
  invariant st -> heap st !! r = Some t -> cancelFlag t = true ->
  run es st = Some st' ->
  exists t', heap st' !! r = Some t' /\ cancelFlag t' = true /\
    completions_of r (invoked st') = completions_of r (invoked st) /\
    (progress t' = progress t \/ WrapperProgress r (progress t') ∈ es).
Proof.
  induction es as [|e es IH]; intros st st' r t Hinv Hr Hcf Hrun; simpl in Hrun.
  - injection Hrun as <-. exists t. auto.
  - destruct (step e st) as [st1|] eqn:Hstep; [|done].
    destruct (canceled_step _ _ _ _ _ Hinv Hr Hcf Hstep)
      as (t1 & Hr1 & Hcf1 & Hcomp1 & Hprog1).
    destruct (IH st1 st' r t1 (invariant_step _ _ _ Hinv Hstep) Hr1 Hcf1 Hrun)
      as (t' & Hr' & Hcf' & Hcomp' & Hprog').
    exists t'. repeat split; [done|done|congruence|].
    destruct Hprog' as [Hp|Hp]; [|right; by apply elem_of_cons; right].
    rewrite Hp. destruct Hprog1 as [Hp1|Hp1]; [by left|].
    right. rewrite Hp1. apply elem_of_cons; by left.
Qed.

(** *** Claims *)

(** C1.  When the wrapper call of a [downloadVideo] call resolves as a
    failure: if the task's [cancelFlag] is set by then, the task ends
    with status [canceled] and error text "Canceled" and no error
    callback has been invoked for it; otherwise it ends with status
    [error] and error text "Download failed", and the error callback the
    call was given has been invoked exactly once, with that text. *)
Theorem failure_is_cancellation_or_error st r t fr :
  reachable st ->
  heap st !! r = Some t -> frames st !! r = Some fr -> phase fr = awaiting ->
  exists t', heap (downloadVideo_resume r false st).1 !! r = Some t' /\
    if cancelFlag t then
      status t' = canceled /\ error_text t' = Some "Canceled" /\
      errors_of r (invoked (downloadVideo_resume r false st).1) = []
    else
      status t' = error /\ error_text t' = Some "Download failed" /\
      errors_of r (invoked (downloadVideo_resume r false st).1) =
      if has_errorCallback fr then ["Download failed"] else [].
Proof.
  intros Hre Hr Hfr Hsus. apply reachable_invariant in Hre as Hinv.
  destruct Hinv as [_ _ _ He _].
  assert (Hnone : errors_of r (invoked st) = []).
  { apply He. unfold has_returned. by rewrite (in_phase_Some _ _ _ _ Hfr), Hsus. }
  pose proof (lookup_lt_Some _ _ _ Hr) as Hlt.
  rewrite (downloadVideo_resume_eq _ _ _ _ _ Hr Hfr). simpl.
  rewrite errors_of_app, Hnone. simpl.
  destruct (cancelFlag t); rewrite list_lookup_insert_eq by done;
    eexists; (split; [done|]); simpl; [done|].
  repeat split. destruct (has_errorCallback fr); simpl; [|done].
  by rewrite decide_True.
Qed.

Lemma failure_is_cancellation_or_error_witness :
  let st := (downloadVideo_call "k3j9x0aa" a_video mp4 true true true init).1 in
  exists t', heap (downloadVideo_resume 0 false st).1 !! 0%nat = Some t' /\
    status t' = error /\ error_text t' = Some "Download failed" /\
    errors_of 0 (invoked (downloadVideo_resume 0 false st).1) = ["Download failed"].
Proof.
  intros st.
  assert (Hre : reachable st).
  { apply (reachable_step init
             (DownloadVideo "k3j9x0aa" a_video mp4 true true true));
      [apply reachable_init | reflexivity]. }
  exact (failure_is_cancellation_or_error st 0
           {| downloadId := "k3j9x0aa"; video := a_video; formatType := mp4;
              status := downloading; progress := JS.Int 0; error_text := None;
              pauseFlag := false; cancelFlag := false |}
           {| has_progressCallback := true; has_completeCallback := true;
              has_errorCallback := true; phase := awaiting |}
           Hre eq_refl eq_refl eq_refl).
Defined.

(** The state after a call for [a_video] under the id "k3j9x0aa",
    and after the user paused that download. *)
Definition one_download : state :=
  (downloadVideo_call "k3j9x0aa" a_video mp4 true true true init).1.

Definition one_paused : state := (pauseDownload "k3j9x0aa" one_download).1.

(** C2, as stated, fails: from [paused] it is not only [resumeDownload]
    that succeeds, [cancelDownload] returns true as well. *)
Lemma cancelDownload_succeeds_from_paused :
  exists t, get "k3j9x0aa" one_paused = Some (0%nat, t) /\
    status t = paused /\
    (resumeDownload "k3j9x0aa" one_paused).2 = true /\
    (cancelDownload "k3j9x0aa" one_paused).2 = true.
Proof. eexists. repeat split; reflexivity. Qed.

(** C2, amended.  For a task in a terminal status ([completed],
    [canceled], [error]) each of [pauseDownload], [resumeDownload] and
    [cancelDownload] returns false and changes nothing.  From [paused],
    [resumeDownload] and [cancelDownload] return true and
    [pauseDownload] returns false.  From [downloading] and from
    [queued], [pauseDownload] and [cancelDownload] return true and
    [resumeDownload] returns false.  An operation that returns false
    leaves the controller as it was. *)
Theorem pause_resume_cancel_by_status id st r t :
  get id st = Some (r, t) ->
  (terminal (status t) = true ->
     pauseDownload id st = (st, false) /\
     resumeDownload id st = (st, false) /\
     cancelDownload id st = (st, false)) /\
  (status t = paused ->
     pauseDownload id st = (st, false) /\
     (resumeDownload id st).2 = true /\
     (cancelDownload id st).2 = true) /\
  (status t = downloading \/ status t = queued ->
     (pauseDownload id st).2 = true /\
     resumeDownload id st = (st, false) /\
     (cancelDownload id st).2 = true).
Proof.
  intros Hget.
  rewrite (pauseDownload_eq _ _ _ _ Hget), (resumeDownload_eq _ _ _ _ Hget),
    (cancelDownload_eq _ _ _ _ Hget).
  unfold terminal. destruct (status t); simpl; repeat split; try done.
  all: match goal with H : _ \/ _ |- _ => by destruct H end.
Qed.

Lemma pause_resume_cancel_by_status_witness :
  pauseDownload "k3j9x0aa" one_paused = (one_paused, false) /\
  (resumeDownload "k3j9x0aa" one_paused).2 = true /\
  (cancelDownload "k3j9x0aa" one_paused).2 = true.
Proof.
  refine (proj1 (proj2 (pause_resume_cancel_by_status "k3j9x0aa" one_paused 0
    {| downloadId := "k3j9x0aa"; video := a_video; formatType := mp4;
       status := paused; progress := JS.Int 0; error_text := None;
       pauseFlag := true; cancelFlag := false |} _)) _); reflexivity.
Defined.

(** The user pauses the download, the transfer goes on (the wrapper
    does not look at the pause flag) and completes. *)
Definition completed_while_paused : state :=
  on_complete 0 "a title.mp4" one_paused.

Lemma completed_while_paused_run :
  run [DownloadVideo "k3j9x0aa" a_video mp4 true true true;
       PauseDownload "k3j9x0aa";
       WrapperComplete 0 "a title.mp4"] init = Some completed_while_paused.
Proof. reflexivity. Qed.

(** C3, as stated, fails: in that run the completion takes the task
    from [paused] to [completed], which is not a listed transition. *)
Lemma completed_from_paused :
  reachable completed_while_paused /\
  assigned completed_while_paused =
    [(0%nat, queued, downloading); (0%nat, downloading, paused);
     (0%nat, paused, completed)] /\
  ~ listed paused completed.
Proof.
  split; [exact (run_reachable _ _ _ reachable_init completed_while_paused_run)|].
  split; [reflexivity|]. intros H. inversion H.
Qed.

(** C3, amended.  Every status change the controller performs on a task
    is one of the listed transitions or one of [paused -> completed],
    [paused -> error], [completed -> error], [error -> completed]: the
    outcome the wrapper reports is recorded whenever the task's cancel
    flag is unset.  So a task enters [completed] from [downloading],
    [paused] or [error], and enters [error] from [downloading],
    [paused] or [completed]; never from [queued] or [canceled]. *)
Theorem status_changes st r a b :
  reachable st -> (r, a, b) ∈ assigned st -> a <> b ->
  (listed a b \/ unlisted a b) /\
  (b = completed -> a = downloading \/ a = paused \/ a = error) /\
  (b = error -> a = downloading \/ a = paused \/ a = completed).
Proof.
  intros Hre Hin Hne. apply reachable_invariant in Hre as [_ _ _ _ Ha].
  destruct (Ha r a b Hin Hne) as [H|H]; (split; [auto|]);
    inversion H; subst; split; intros; try done; auto.
Qed.

Lemma status_changes_witness :
  (listed paused completed \/ unlisted paused completed) /\
  (completed = completed ->
     paused = downloading \/ paused = paused \/ paused = error) /\
  (completed = error ->
     paused = downloading \/ paused = paused \/ paused = completed).
Proof.
  refine (status_changes completed_while_paused 0 paused completed _ _ _).
  - exact (run_reachable _ _ _ reachable_init completed_while_paused_run).
  - apply elem_of_cons. right. apply elem_of_cons. right.
    apply elem_of_cons. by left.
  - discriminate.
Defined.

(** C9.  When the wrapper call of a [downloadVideo] call resolves, the
    call appends its task to [downloadHistory], whatever the outcome:
    the task was not in the history before and is in it exactly once
    afterwards, also when it ends [canceled] or [error].  In every
    state the history holds each task whose call has run to its end
    exactly once, and no other. *)
Theorem history_records_every_call st r ok :
  reachable st -> is_suspended r st = true ->
  downloadHistory (downloadVideo_resume r ok st).1 = downloadHistory st ++ [r] /\
  count_occ Nat.eq_dec (downloadHistory st) r = 0%nat /\
  count_occ Nat.eq_dec (downloadHistory (downloadVideo_resume r ok st).1) r = 1%nat /\
  has_returned r (downloadVideo_resume r ok st).1 = true /\
  (forall r', count_occ Nat.eq_dec (downloadHistory st) r' =
              if has_returned r' st then 1%nat else 0%nat).
Proof.
  intros Hre Hsus. apply reachable_invariant in Hre as Hinv.
  assert (Hstep : step (WrapperResolves r ok) st
                  = Some (downloadVideo_resume r ok st).1)
    by (cbn [step]; by rewrite Hsus).
  pose proof (invariant_step _ _ _ Hinv Hstep) as [_ _ Hh' _ _].
  destruct Hinv as [Hf _ Hh _ _].
  destruct (is_suspended_inv _ _ Hsus) as (fr & Hfr & Hph).
  assert (Hal : (r < length (heap st))%nat)
    by (rewrite <- Hf; by eapply lookup_lt_Some).
  destruct (lookup_lt_is_Some_2 (heap st) r Hal) as [t Hr].
  assert (Hret : has_returned r (downloadVideo_resume r ok st).1 = true).
  { etrans; [apply (in_phase_settle returned returned r r fr st);
             [done|by rewrite (downloadVideo_resume_eq _ _ _ _ _ Hr Hfr)]|].
    by rewrite decide_True. }
  split; [by rewrite (downloadVideo_resume_eq _ _ _ _ _ Hr Hfr)|].
  split.
  { rewrite Hh. unfold has_returned. by rewrite (in_phase_Some _ _ _ _ Hfr), Hph. }
  split; [by rewrite Hh', Hret|]. by split.
Qed.

Lemma history_records_every_call_witness :
  downloadHistory (downloadVideo_resume 0 false one_paused).1 = [0%nat] /\
  count_occ Nat.eq_dec (downloadHistory one_paused) 0%nat = 0%nat /\
  count_occ Nat.eq_dec
    (downloadHistory (downloadVideo_resume 0 false one_paused).1) 0%nat = 1%nat.
Proof.
  assert (Hre : reachable one_paused).
  { apply (run_reachable [DownloadVideo "k3j9x0aa" a_video mp4 true true true;
                          PauseDownload "k3j9x0aa"] init);
      [apply reachable_init | reflexivity]. }
  pose proof (history_records_every_call one_paused 0 false Hre eq_refl)
    as (H1 & H2 & H3 & _).
  exact (conj H1 (conj H2 H3)).
Defined.

(** C10.  Once the cancel flag of a task is set, the task has status
    [canceled]; a completion reported by the wrapper then changes
    nothing at all (no status [completed], no progress 100, no
    completion callback), nor does the wrapper call resolving as a
    success change the task; and through whatever happens later the
    task stays [canceled] with its flag set, no completion callback is
    invoked for it, and its progress only changes to a value the
    wrapper reported as progress. *)
Theorem canceled_task_stays_canceled st r t :
  reachable st -> heap st !! r = Some t -> cancelFlag t = true ->
  status t = canceled /\
  (forall filename, on_complete r filename st = st) /\
  heap (downloadVideo_resume r true st).1 = heap st /\
  invoked (downloadVideo_resume r true st).1 = invoked st /\
  (forall es st', run es st = Some st' ->
     exists t', heap st' !! r = Some t' /\
       status t' = canceled /\ cancelFlag t' = true /\
       completions_of r (invoked st') = completions_of r (invoked st) /\
       (progress t' = progress t \/ WrapperProgress r (progress t') ∈ es)).
Proof.
  intros Hre Hr Hcf. apply reachable_invariant in Hre as Hinv.
  pose proof Hinv as [Hf _ _ _ _].
  destruct (lookup_lt_is_Some_2 (frames st) r) as [fr Hfr].
  { rewrite Hf. by eapply lookup_lt_Some. }
  split; [by apply (task_ok_at _ _ _ Hinv Hr)|].
  split; [intros fn; by rewrite (on_complete_eq _ _ _ _ _ Hr Hfr), Hcf|].
  rewrite (downloadVideo_resume_eq _ _ _ _ _ Hr Hfr). simpl.
  split; [done|]. split; [by rewrite app_nil_r|].
  intros es st' Hrun.
  destruct (canceled_run es st st' r t Hinv Hr Hcf Hrun)
    as (t' & Hr' & Hcf' & Hcomp & Hprog).
  exists t'. repeat split; try done.
  by apply (task_ok_at st' r t' (run_invariant _ _ _ Hinv Hrun) Hr').
Qed.

Definition one_canceled : state := (cancelDownload "k3j9x0aa" one_download).1.

Lemma canceled_task_stays_canceled_witness :
  on_complete 0 "a title.mp4" one_canceled = one_canceled /\
  exists t', heap (on_complete 0 "a title.mp4" one_canceled) !! 0%nat = Some t' /\
    status t' = canceled /\ progress t' = JS.Int 0 /\
    completions_of 0 (invoked (on_complete 0 "a title.mp4" one_canceled)) = [].
Proof.
  assert (Hre : reachable one_canceled).
  { apply (run_reachable [DownloadVideo "k3j9x0aa" a_video mp4 true true true;
                          CancelDownload "k3j9x0aa"] init);
      [apply reachable_init | reflexivity]. }
  pose proof (canceled_task_stays_canceled one_canceled 0
    {| downloadId := "k3j9x0aa"; video := a_video; formatType := mp4;
       status := canceled; progress := JS.Int 0; error_text := Some "Canceled";
       pauseFlag := false; cancelFlag := true |} Hre eq_refl eq_refl)
    as (_ & Hsame & _ & _ & Hlater).
  split; [apply Hsame|].
  destruct (Hlater [WrapperComplete 0 "a title.mp4"] _ eq_refl)
    as (t' & Ht' & Hs & _ & Hc & Hp).
  exists t'. repeat split; try done.
  destruct Hp as [Hp|Hp]; [done|].
  apply elem_of_cons in Hp as [Hp|Hp]; [done|by apply elem_of_nil in Hp].
Defined.

End DownloadControllerFacts.


(** ** Strings and patterns *)
Section PatternFacts.
Import JS.

Lemma append_nil_l (s : string) : ("" ++ s)%string = s.
Proof. reflexivity. Qed.

Lemma append_cons c (s t : string) : (String c s ++ t)%string = String c (s ++ t).
Proof. reflexivity. Qed.

Lemma append_nil_r (s : string) : (s ++ "")%string = s.
Proof.
  induction s as [|c s IH]; [done|]. by rewrite append_cons, IH.
Qed.

Lemma append_assoc (s1 s2 s3 : string) :
  ((s1 ++ s2) ++ s3)%string = (s1 ++ (s2 ++ s3))%string.
Proof.
  induction s1 as [|c s1 IH]; [done|]. by rewrite !append_cons, IH.
Qed.

Lemma length_append (s1 s2 : string) :
  String.length (s1 ++ s2) = (String.length s1 + String.length s2)%nat.
Proof.
  induction s1 as [|c s1 IH]; [done|]. rewrite append_cons. simpl. by rewrite IH.
Qed.

(** Every character of the string is in the class. *)
Fixpoint all_chars (P : ascii -> bool) (s : string) : bool :=
  match s with
  | EmptyString => true
  | String c s' => P c && all_chars P s'
  end.

(** What an atom may match: characters of its class, as many as its
    quantifier allows. *)
Definition fits (a : atom) (seg : string) : Prop :=
  all_chars (class a) seg = true /\
  match quant a with
  | One => String.length seg = 1%nat
  | Opt => (String.length seg <= 1)%nat
  | Star => True
  | Plus => (1 <= String.length seg)%nat
  end.

Definition joined (segs : list string) : string := fold_right String.append "" segs.

Lemma many_sound class continue : forall s segs,
  many class continue s = Some segs ->
  exists seg segs' s', segs = seg :: segs' /\ all_chars class seg = true /\
    s = (seg ++ s')%string /\ continue s' = Some segs'.
Proof.
  assert (Hskip : forall s segs, skip continue s = Some segs ->
    exists seg segs' s', segs = seg :: segs' /\ all_chars class seg = true /\
      s = (seg ++ s')%string /\ continue s' = Some segs').
  { intros s segs H. unfold skip in H.
    destruct (continue s) as [segs'|] eqn:E; [|done].
    injection H as <-. by exists "", segs', s. }
  induction s as [|c s IH]; intros segs H; simpl in H; [by apply Hskip|].
  destruct (class c) eqn:Hc; [|by apply Hskip].
  destruct (many class continue s) as [[|seg segs']|] eqn:E; try by apply Hskip.
  injection H as <-.
  destruct (IH _ eq_refl) as (seg0 & segs0 & s0 & [= -> ->] & Hall & -> & Hk).
  exists (String c seg0), segs0, s0. simpl. by rewrite Hc, Hall.
Qed.

Lemma many_complete class continue : forall seg s',
  all_chars class seg = true -> is_Some (continue s') ->
  exists seg0 segs0, many class continue (seg ++ s') = Some (seg0 :: segs0).
Proof.
  assert (Hskip : forall s, is_Some (continue s) ->
    exists seg0 segs0, skip continue s = Some (seg0 :: segs0)).
  { intros s [segs E]. unfold skip. rewrite E. by eexists _, _. }
  assert (Hany : forall s, is_Some (continue s) ->
    exists seg0 segs0, many class continue s = Some (seg0 :: segs0)).
  { induction s as [|c s IH]; intros Hk; simpl; [by apply Hskip|].
    destruct (class c); [|by apply Hskip].
    destruct (many class continue s) as [[|seg segs']|]; try by apply Hskip.
    by eexists _, _. }
  induction seg as [|c seg IH]; intros s' Hall Hk; simpl; [by apply Hany|].
  simpl in Hall. apply andb_true_iff in Hall as [Hc Hall]. rewrite Hc.
  destruct (IH s' Hall Hk) as (seg0 & segs0 & ->). by eexists _, _.
Qed.

Lemma match_atoms_sound p to_end : forall s segs,
  match_atoms p to_end s = Some segs ->
  Forall2 fits p segs /\
  exists rest, s = (joined segs ++ rest)%string /\ (to_end = true -> rest = "").
Proof.
  induction p as [|a p IH]; intros s segs H; simpl in H.
  - destruct to_end.
    + destruct s; [|done]. injection H as <-. split; [constructor|]. by exists "".
    + injection H as <-. split; [constructor|]. by exists s.
  - destruct (quant a) eqn:Hq.
    + unfold once in H. destruct s as [|c s]; [done|].
      destruct (class a c) eqn:Hc; [|done].
      destruct (match_atoms p to_end s) as [segs'|] eqn:E; [|done].
      injection H as <-. destruct (IH _ _ E) as (Hfit & rest & -> & Hend).
      split; [|by exists rest].
      constructor; [|done]. split; [simpl; by rewrite Hc|by rewrite Hq].
    + assert (Hskip : skip (match_atoms p to_end) s = Some segs ->
        Forall2 fits (a :: p) segs /\
        exists rest, s = (joined segs ++ rest)%string /\ (to_end = true -> rest = "")).
      { unfold skip. destruct (match_atoms p to_end s) as [segs'|] eqn:E; [|done].
        intros [= <-]. destruct (IH _ _ E) as (Hfit & rest & -> & Hend).
        split; [|by exists rest]. constructor; [|done].
        split; [done|]. rewrite Hq. simpl. lia. }
      unfold optional in H. destruct s as [|c s]; [by apply Hskip|].
      destruct (class a c) eqn:Hc; [|by apply Hskip].
      destruct (match_atoms p to_end s) as [segs'|] eqn:E; [|by apply Hskip].
      injection H as <-. destruct (IH _ _ E) as (Hfit & rest & -> & Hend).
      split; [|by exists rest].
      constructor; [|done]. split; [simpl; by rewrite Hc|]. rewrite Hq. simpl. lia.
    + destruct (many_sound _ _ _ _ H) as (seg & segs' & s' & -> & Hall & -> & Hk).
      destruct (IH _ _ Hk) as (Hfit & rest & -> & Hend).
      split; [constructor; [|done]; split; [done|by rewrite Hq]|].
      exists rest. simpl. by rewrite append_assoc.
    + unfold several in H. destruct s as [|c s]; [done|].
      destruct (class a c) eqn:Hc; [|done].
      destruct (many (class a) (match_atoms p to_end) s) as [[|seg segs0]|] eqn:E;
        try done.
      injection H as <-.
      destruct (many_sound _ _ _ _ E) as (seg1 & segs' & s' & [= -> ->] & Hall & -> & Hk).
      destruct (IH _ _ Hk) as (Hfit & rest & -> & Hend).
      split.
      * constructor; [|done]. split; [simpl; by rewrite Hc, Hall|].
        rewrite Hq. simpl. lia.
      * exists rest. simpl. by rewrite append_assoc.
Qed.

Lemma match_atoms_complete p to_end : forall segs rest,
  Forall2 fits p segs -> (to_end = true -> rest = "") ->
  is_Some (match_atoms p to_end (joined segs ++ rest)%string).
Proof.
  induction p as [|a p IH]; intros segs rest Hfit Hend.
  - inversion Hfit; subst. simpl. destruct to_end; [|done]. by rewrite Hend.
  - inversion Hfit as [|? seg ? segs' [Hall Hq] Hfit']; subst.
    change (joined (seg :: segs')) with (seg ++ joined segs')%string.
    rewrite append_assoc.
    pose proof (IH segs' rest Hfit' Hend) as Hk.
    cbn [match_atoms].
    destruct (quant a).
    + destruct seg as [|c [|c' seg]]; try done.
      rewrite append_cons, append_nil_l. unfold once.
      simpl in Hall. apply andb_true_iff in Hall as [-> _].
      destruct Hk as [x ->]. done.
    + destruct seg as [|c [|c' seg]]; simpl in Hq; try lia.
      * rewrite append_nil_l. unfold optional, skip. destruct Hk as [x Hk].
        destruct (joined segs' ++ rest)%string as [|c s] eqn:E; rewrite ?Hk; [done|].
        destruct (class a c); [|done].
        by destruct (match_atoms p to_end s).
      * rewrite append_cons, append_nil_l. unfold optional.
        simpl in Hall. apply andb_true_iff in Hall as [-> _].
        destruct Hk as [x ->]. done.
    + destruct (many_complete (class a) _ seg _ Hall Hk) as (seg0 & segs0 & ->). done.
    + destruct seg as [|c seg]; simpl in Hq; [lia|].
      rewrite append_cons. unfold several.
      simpl in Hall. apply andb_true_iff in Hall as [-> Hall].
      destruct (many_complete (class a) _ seg _ Hall Hk) as (seg0 & segs0 & ->). done.
Qed.

Lemma map_string_append f (s t : string) :
  map_string f (s ++ t)%string = (map_string f s ++ map_string f t)%string.
Proof.
  induction s as [|c s IH]; [done|]. rewrite !append_cons. simpl. by rewrite append_cons, IH.
Qed.

Lemma map_string_cons_inv f (t : string) x r :
  map_string f t = String x r ->
  exists c t', t = String c t' /\ f c = x /\ map_string f t' = r.
Proof. destruct t as [|c t']; [done|]. simpl. intros [= <- <-]. by exists c, t'. Qed.

Lemma fits_one cls seg :
  fits (the One cls) seg <-> exists c, seg = String c "" /\ cls c = true.
Proof.
  unfold fits. simpl. split.
  - intros [Hall Hlen]. destruct seg as [|c [|c' seg]]; try done.
    exists c. simpl in Hall. apply andb_true_iff in Hall as [-> _]. done.
  - intros (c & -> & Hc). simpl. by rewrite Hc.
Qed.

Lemma fits_opt cls seg :
  fits (the Opt cls) seg <-> seg = "" \/ exists c, seg = String c "" /\ cls c = true.
Proof.
  unfold fits. simpl. split.
  - intros [Hall Hlen]. destruct seg as [|c [|c' seg]]; simpl in Hlen; try lia; [by left|].
    right. exists c. simpl in Hall. apply andb_true_iff in Hall as [-> _]. done.
  - intros [->|(c & -> & Hc)]; simpl; [split; [done|lia]|]. rewrite Hc. split; [done|lia].
Qed.

Lemma chr_i_spec x c : chr_i x c = true <-> lower c = lower x.
Proof. unfold chr_i. rewrite Ascii.eqb_eq. split; congruence. Qed.

Lemma chr_spec x c : chr x c = true <-> c = x.
Proof. unfold chr. rewrite Ascii.eqb_eq. split; congruence. Qed.

Lemma search_sound p to_end : forall s before segs,
  search p to_end s = Some (before, segs) ->
  exists after, s = (before ++ after)%string /\ match_atoms p to_end after = Some segs.
Proof.
  induction s as [|c s IH]; intros before segs H; simpl in H.
  - destruct (match_atoms p to_end "") as [segs'|] eqn:E; [|done].
    injection H as <- <-. by exists "".
  - destruct (match_atoms p to_end (String c s)) as [segs'|] eqn:E.
    + injection H as <- <-. by exists (String c s).
    + destruct (search p to_end s) as [[before' segs']|] eqn:E'; [|done].
      injection H as <- <-. destruct (IH _ _ eq_refl) as (after & -> & Hm).
      by exists after.
Qed.

Lemma search_complete p to_end : forall before after,
  is_Some (match_atoms p to_end after) ->
  is_Some (search p to_end (before ++ after)%string).
Proof.
  assert (Hhere : forall s, is_Some (match_atoms p to_end s) ->
                            is_Some (search p to_end s)).
  { intros s [segs H]. destruct s; simpl; by rewrite H. }
  induction before as [|c before IH]; intros after Hm; [by apply Hhere|].
  rewrite append_cons. simpl.
  destruct (match_atoms p to_end (String c (before ++ after))); [done|].
  destruct (IH after Hm) as [[b segs] ->]. done.
Qed.

Lemma test_anchored r s :
  from_start r = true ->
  test r s = true <-> is_Some (match_atoms (atoms r) (to_end r) s).
Proof.
  intros Hr. unfold test, exec. rewrite Hr.
  destruct (match_atoms (atoms r) (to_end r) s); simpl; split; try done.
Qed.

Lemma test_floating r s :
  from_start r = false ->
  test r s = true <->
  exists before after, s = (before ++ after)%string /\
    is_Some (match_atoms (atoms r) (to_end r) after).
Proof.
  intros Hr. unfold test, exec. rewrite Hr.
  destruct (search (atoms r) (to_end r) s) as [[before segs]|] eqn:E; split; try done.
  - intros _. apply search_sound in E as (after & -> & Hm). by exists before, after.
  - intros (before & after & -> & Hm).
    apply (search_complete _ _ before) in Hm. rewrite E in Hm. by destruct Hm.
Qed.

End PatternFacts.

(** ** The URL classifiers *)
Section AppFacts.
Import JS App.

Lemma url_prefix_matches (t : string) :
  is_Some (match_atoms (atoms url_prefix) false t) <->
  exists rest, toLowerCase t = ("http://" ++ rest)%string \/
               toLowerCase t = ("https://" ++ rest)%string.
Proof.
  split.
  - intros [segs H]. apply match_atoms_sound in H as (Hfit & rest & -> & _).
    unfold url_prefix in Hfit. cbn [atoms] in Hfit.
    repeat match goal with
    | H : Forall2 _ (_ :: _) _ |- _ =>
        apply Forall2_cons_inv_l in H as (? & ? & ? & ? & ->)
    | H : Forall2 _ [] _ |- _ => apply Forall2_nil_inv_l in H as ->
    | H : fits (the One _) _ |- _ => apply fits_one in H as (? & -> & ?%chr_i_spec)
    | H : fits (the Opt _) _ |- _ => apply fits_opt in H as [->|(? & -> & ?%chr_i_spec)]
    end.
    all: exists (toLowerCase rest); unfold toLowerCase; rewrite map_string_append;
      cbn [joined fold_right]; rewrite ?append_cons, ?append_nil_l; simpl;
      repeat match goal with H : lower _ = _ |- _ => rewrite H; clear H end.
    + by left.
    + by right.
  - intros [rest [H|H]]; unfold toLowerCase in H;
      repeat match type of H with
      | map_string _ _ = (String _ _ ++ _)%string => rewrite append_cons in H
      | map_string _ ?t = String _ _ =>
          let c := fresh "c" in let t' := fresh "t" in let Hc := fresh "Hc" in
          apply map_string_cons_inv in H as (c & t' & -> & Hc & H)
      end.
    + match goal with
      | |- is_Some (match_atoms _ _ (String ?a (String ?b (String ?c (String ?d
             (String ?e (String ?f (String ?g ?r)))))))) =>
          apply (match_atoms_complete (atoms url_prefix) false
                   [String a ""; String b ""; String c ""; String d ""; "";
                    String e ""; String f ""; String g ""] r); [|done]
      end.
      unfold url_prefix. cbn [atoms].
      repeat (constructor; [first [apply fits_one; eexists; split; [done|];
                                   by apply chr_i_spec
                                  |apply fits_opt; by left]|]).
      constructor.
    + match goal with
      | |- is_Some (match_atoms _ _ (String ?a (String ?b (String ?c (String ?d
             (String ?e (String ?f (String ?g (String ?h ?r))))))))) =>
          apply (match_atoms_complete (atoms url_prefix) false
                   [String a ""; String b ""; String c ""; String d ""; String e "";
                    String f ""; String g ""; String h ""] r); [|done]
      end.
      unfold url_prefix. cbn [atoms].
      repeat (constructor; [first [apply fits_one; eexists; split; [done|];
                                   by apply chr_i_spec
                                  |apply fits_opt; right; eexists; split; [done|];
                                   by apply chr_i_spec]|]).
      constructor.
Qed.

Lemma list_parameter_matches (t : string) :
  is_Some (match_atoms (atoms list_parameter) false t) <->
  exists rest, t = ("?list=" ++ rest)%string \/ t = ("&list=" ++ rest)%string.
Proof.
  split.
  - intros [segs H]. apply match_atoms_sound in H as (Hfit & rest & -> & _).
    unfold list_parameter in Hfit. cbn [atoms] in Hfit.
    repeat match goal with
    | H : Forall2 _ (_ :: _) _ |- _ =>
        apply Forall2_cons_inv_l in H as (? & ? & ? & ? & ->)
    | H : Forall2 _ [] _ |- _ => apply Forall2_nil_inv_l in H as ->
    | H : fits (the One (chr _)) _ |- _ =>
        let E := fresh in apply fits_one in H as (? & -> & E%chr_spec); subst
    | H : fits (the One (one_of _)) _ |- _ => apply fits_one in H as (? & -> & ?)
    end.
    exists rest. cbn [joined fold_right]. rewrite ?append_cons, ?append_nil_l.
    unfold one_of in *. simpl in *.
    repeat match goal with
    | H : _ || _ = true |- _ => apply orb_true_iff in H as [H|H]
    | H : Ascii.eqb _ _ = true |- _ => apply Ascii.eqb_eq in H as ->
    end; auto. done.
  - intros [rest [-> | ->]].
    + apply (match_atoms_complete (atoms list_parameter) false
               ["?"; "l"; "i"; "s"; "t"; "="]%string rest); [|done].
      unfold list_parameter. cbn [atoms].
      repeat (constructor; [apply fits_one; by eexists|]). constructor.
    + apply (match_atoms_complete (atoms list_parameter) false
               ["&"; "l"; "i"; "s"; "t"; "="]%string rest); [|done].
      unfold list_parameter. cbn [atoms].
      repeat (constructor; [apply fits_one; by eexists|]). constructor.
Qed.

(** C7.  [isUrl s] holds exactly when [s], trimmed, begins with "http://"
    or "https://" up to letter case, and [isPlaylistUrl s] holds exactly
    when [s] contains "?list=" or "&list="; the four examples of the
    specification evaluate as it says. *)
Theorem url_classification (s : string) :
  (isUrl s = true <->
     exists rest, toLowerCase (trim s) = ("http://" ++ rest)%string \/
                  toLowerCase (trim s) = ("https://" ++ rest)%string) /\
  (isPlaylistUrl s = true <->
     exists before after, s = (before ++ "?list=" ++ after)%string \/
                          s = (before ++ "&list=" ++ after)%string) /\
  isUrl "https://youtube.com/watch?v=abc" = true /\
  isUrl "cat videos" = false /\
  isPlaylistUrl "https://youtube.com/playlist?list=XYZ" = true /\
  isPlaylistUrl "https://youtube.com/watch?v=abc" = false.
Proof.
  split; [|split; [|by repeat split]].
  - unfold isUrl. rewrite test_anchored by done. apply url_prefix_matches.
  - unfold isPlaylistUrl. rewrite test_floating by done. split.
    + intros (before & after & -> & Hm).
      apply list_parameter_matches in Hm as [rest [-> | ->]];
        exists before, rest; auto.
    + intros (before & after & [-> | ->]); eexists before, _; (split; [done|]);
        apply list_parameter_matches; eexists; eauto.
Qed.

End AppFacts.



(** ** Formatting a duration *)
Section FormatDurationFacts.
Import JS Format.

(** A number below 100 written with exactly two decimal digits. *)
Definition two_digits (n : Z) : string :=
  String (digit_char (n / 10)) (String (digit_char (n mod 10)) "").

(** The two layouts of the specification. *)
Definition H_MM_SS (h m s : Z) : string :=
  (String_of h ++ ":" ++ two_digits m ++ ":" ++ two_digits s)%string.

Definition M_SS (m s : Z) : string :=
  (String_of m ++ ":" ++ two_digits s)%string.

Lemma String_of_one_digit n : 0 <= n < 10 -> String_of n = String (digit_char n) "".
Proof.
  intros Hn. unfold String_of.
  rewrite (proj2 (Z.ltb_ge n 0)) by lia. simpl.
  rewrite (proj2 (Z.ltb_lt n 10)) by lia. by rewrite Z.mod_small by lia.
Qed.

Lemma String_of_two_digits n : 10 <= n < 100 -> String_of n = two_digits n.
Proof.
  intros Hn. unfold String_of.
  rewrite (proj2 (Z.ltb_ge n 0)) by lia.
  assert (Hlog : 3 <= Z.log2 n).
  { change 3 with (Z.log2 8). apply Z.log2_le_mono. lia. }
  destruct (Z.to_nat (Z.log2 n)) as [|fuel] eqn:E; [lia|].
  simpl. rewrite (proj2 (Z.ltb_ge n 10)) by lia.
  rewrite (proj2 (Z.ltb_lt (n / 10) 10)) by (apply Z.div_lt_upper_bound; lia).
  unfold two_digits. rewrite (Z.mod_small (n / 10)); [done|].
  split; [apply Z.div_pos; lia | apply Z.div_lt_upper_bound; lia].
Qed.

Lemma padStart_two_digits n :
  0 <= n < 100 -> padStart (String_of n) 2 "0" = two_digits n.
Proof.
  intros Hn. destruct (Z.lt_ge_cases n 10) as [Hlt|Hge].
  - rewrite String_of_one_digit by lia. unfold padStart, two_digits. simpl.
    rewrite append_cons, append_nil_l.
    rewrite Z.div_small, Z.mod_small by lia. done.
  - rewrite String_of_two_digits by lia. unfold padStart, two_digits. simpl.
    by rewrite append_nil_l.
Qed.

(** *** [String(n)] writes the decimal numeral of [n] *)

Lemma digit_value_digit_char d :
  0 <= d < 10 -> digit_value 10 (digit_char d) = Some d.
Proof.
  intros Hd.
  assert (Hcases : d = 0 \/ d = 1 \/ d = 2 \/ d = 3 \/ d = 4 \/ d = 5 \/ d = 6 \/
                   d = 7 \/ d = 8 \/ d = 9) by lia.
  repeat (destruct Hcases as [-> | Hcases]; [reflexivity|]). by subst.
Qed.

(** Reading back what [decimal] writes in front of [acc]. *)
Lemma digits_decimal fuel : forall n acc value count,
  0 <= n < 2 ^ Z.of_nat fuel ->
  exists k,
    digits 10 (decimal fuel n acc) value count =
    digits 10 acc (value * 10 ^ Z.of_nat k + n) (count + k) /\
    (n = 0 -> fuel = O -> k = O).
Proof.
  induction fuel as [|fuel IH]; intros n acc value count Hn.
  - exists O. simpl in *. assert (n = 0) as -> by lia.
    split; [|done]. f_equal; lia.
  - cbn [decimal].
    destruct (n <? 10) eqn:E.
    + apply Z.ltb_lt in E. exists 1%nat. split; [|done].
      cbn [digits]. rewrite digit_value_digit_char by (apply Z.mod_pos_bound; lia).
      rewrite Z.mod_small by lia. f_equal; lia.
    + apply Z.ltb_ge in E.
      destruct (IH (n / 10) (String (digit_char (n mod 10)) acc) value count)
        as (k & Hk & _).
      { split; [apply Z.div_pos; lia|].
        apply Z.div_lt_upper_bound; [lia|].
        rewrite Nat2Z.inj_succ, Z.pow_succ_r in Hn by lia. lia. }
      exists (S k). split; [|done]. rewrite Hk. cbn [digits].
      rewrite digit_value_digit_char by (apply Z.mod_pos_bound; lia).
      f_equal; [|lia].
      rewrite Nat2Z.inj_succ, Z.pow_succ_r by lia.
      pose proof (Z.div_mod n 10 ltac:(lia)). lia.
Qed.

(** [String_of n] is [n] in decimal: reading its digits gives [n] back
    and leaves nothing over. *)
Lemma String_of_reads_back n :
  0 <= n -> exists k, digits 10 (String_of n) 0 0 = (n, k, "").
Proof.
  intros Hn. unfold String_of. rewrite (proj2 (Z.ltb_ge n 0)) by done.
  destruct (digits_decimal (S (Z.to_nat (Z.log2 n))) n "" 0 0) as (k & Hk & _).
  { split; [done|]. rewrite Nat2Z.inj_succ.
    destruct (Z.eq_dec n 0) as [->|Hne]; [done|].
    rewrite Z2Nat.id by apply Z.log2_nonneg.
    apply Z.log2_spec. lia. }
  exists k. rewrite Hk. simpl. by rewrite Z.mul_0_l, Z.add_0_l.
Qed.

(** *** The quotients of [formatDuration] in binary64 *)

Lemma Math_floor_reduce fuel : forall n k,
  Math_floor (reduce fuel n k) = Int (n / 2 ^ Z.of_N k).
Proof.
  induction fuel as [|fuel IH]; intros n k; [done|].
  cbn [reduce].
  destruct (N.eqb_spec k 0) as [->|Hk]; [done|].
  destruct (Z.even n) eqn:Hn; [|done].
  rewrite IH. f_equal.
  rewrite Z.div_div by (try apply Z.pow_pos_nonneg; lia).
  f_equal. rewrite <- Z.pow_succ_r by lia. f_equal. lia.
Qed.

Lemma Math_floor_dyadic n k : Math_floor (dyadic n k) = Int (n / 2 ^ Z.of_N k).
Proof.
  unfold dyadic. destruct (Z.eqb_spec n 0) as [->|Hn].
  - by rewrite Z.div_0_l by (apply Z.pow_nonzero; lia).
  - apply Math_floor_reduce.
Qed.

(** The nearest integer is within half of the quotient. *)
Lemma round_half_even_near num den :
  0 < den ->
  let m := round_half_even num den in
  2 * num - den <= 2 * (m * den) <= 2 * num + den.
Proof.
  intros Hden. unfold round_half_even.
  pose proof (Z.div_mod num den ltac:(lia)) as E.
  pose proof (Z.mod_pos_bound num den Hden) as B.
  destruct (Z.ltb_spec (2 * (num mod den)) den);
    [|destruct (Z.ltb_spec den (2 * (num mod den)));
      [|destruct (Z.even (num / den))]]; cbv zeta; nia.
Qed.

(** [Math.floor(x / y)] is the integer quotient for an integer [x]
    from 0 to [2^53] and a positive integer [y] below [2^53]: the
    binary64 quotient is within half a unit in the last place of
    [x / y], which is too little to reach the next integer. *)
Lemma floor_of_quotient x y :
  0 <= x < 2 ^ 53 -> 0 < y < 2 ^ 53 ->
  Math_floor (div_Int x y) = Int (x / y).
Proof.
  intros Hx Hy. unfold div_Int, binary64. cbv zeta.
  destruct (Z.eqb_spec x 0) as [->|Hne]; [done|].
  rewrite (Z.abs_eq x) by lia.
  assert (Hlx : 0 <= Z.log2 x <= 52).
  { split; [apply Z.log2_nonneg|].
    assert (Z.log2 x < 53); [|lia]. apply Z.log2_lt_pow2; lia. }
  assert (Hly : 0 <= Z.log2 y <= 52).
  { split; [apply Z.log2_nonneg|].
    assert (Z.log2 y < 53); [|lia]. apply Z.log2_lt_pow2; lia. }
  pose proof (Z.log2_spec y ltac:(lia)) as [_ Hyhi].
  set (e0 := Z.log2 x - Z.log2 y).
  set (e := if x * 2 ^ Z.max 0 (- e0) <? y * 2 ^ Z.max 0 e0 then e0 - 1 else e0).
  assert (He : e0 - 1 <= e <= e0) by (subst e; case_match; lia).
  rewrite (Z.max_l (e - 52) (-1074)) by lia.
  set (k := 52 - e).
  assert (Hk : Z.log2 y <= k <= 105) by lia.
  replace (- (e - 52)) with k by lia.
  rewrite (Z.max_r 0 k), (Z.max_l 0 (e - 52)) by lia.
  change (2 ^ 0) with 1. rewrite !Z.mul_1_r.
  set (K := 2 ^ k).
  assert (HK : 0 < K) by (apply Z.pow_pos_nonneg; lia).
  assert (HyK : y < 2 * K).
  { subst K. rewrite <- Z.pow_succ_r by lia.
    eapply Z.lt_le_trans; [exact Hyhi|].
    apply Z.pow_le_mono_r; lia. }
  set (m := round_half_even (x * K) y).
  pose proof (round_half_even_near (x * K) y ltac:(lia)) as Hm.
  cbv zeta in Hm. fold m in Hm.
  pose proof (Z.div_mod x y ltac:(lia)) as E.
  pose proof (Z.mod_pos_bound x y ltac:(lia)) as B.
  assert (Hlo : x / y * K <= m).
  { subst m. unfold round_half_even.
    assert (x / y * K <= x * K / y).
    { apply Z.div_le_lower_bound; [lia|]. nia. }
    repeat case_match; lia. }
  assert (Hhi : m < (x / y + 1) * K).
  { apply (Z.mul_lt_mono_pos_r y); [lia|].
    assert (2 * (m * y) < 2 * ((x / y + 1) * K * y)); [|lia].
    replace (2 * ((x / y + 1) * K * y))
      with (2 * (y * (x / y) * K) + 2 * y * K) by ring.
    replace (y * (x / y)) with (x - x mod y) by lia.
    assert (x mod y * K <= (y - 1) * K)
      by (apply Z.mul_le_mono_nonneg_r; lia).
    lia. }
  assert (Hinf : (0 <=? e - 52) && (2 ^ 1024 <=? m * 2 ^ (e - 52)) = false).
  { destruct (Z.leb_spec 0 (e - 52)); [|done]. simpl.
    replace (e - 52) with 0 by lia. change (2 ^ 0) with 1.
    apply Z.leb_gt. rewrite Z.mul_1_r.
    assert (K = 1) as HK1 by (subst K; replace k with 0 by lia; done).
    rewrite HK1 in Hhi.
    assert (x / y <= x) by (apply Z.div_le_upper_bound; nia).
    assert (2 ^ 53 + 1 < 2 ^ 1024) by done. lia. }
  rewrite Hinf.
  replace (Z.sgn x) with 1 by lia. rewrite Z.mul_1_l.
  rewrite Math_floor_dyadic. f_equal.
  rewrite Z2N.id by lia. fold K.
  symmetry. apply Z.div_unique with (m - x / y * K). 2: lia.
  left. lia.
Qed.

(** C5.  For every integer [d] below [2^53] (the integers that a number
    of the code counts one by one): [formatDuration d] is "Unknown" for
    a negative [d]; otherwise, with [h = d / 3600],
    [m = (d mod 3600) / 60] and [s = d mod 60], it is [h:mm:ss] when
    [h > 0] and [m:ss] when [h = 0], where [mm] and [ss] are [m] and [s]
    written with exactly two digits; [h], [m], [s] are the hours, minutes
    (below 60) and seconds (below 60) of [d], and they are what the
    code's [Math.floor(duration / 3600)],
    [Math.floor((duration % 3600) / 60)] and [Math.floor(duration % 60)]
    give in binary64.  The three examples of the specification evaluate
    as it says. *)
Theorem formatDuration_layout (d : Z) :
  d < 2 ^ 53 ->
  let h := d / 3600 in
  let m := d mod 3600 / 60 in
  let s := d mod 60 in
  formatDuration d =
    (if d <? 0 then "Unknown" else if 0 <? h then H_MM_SS h m s else M_SS m s) /\
  (0 <= m < 60 /\ 0 <= s < 60 /\ d = h * 3600 + m * 60 + s) /\
  (0 <= d ->
     Math_floor (div_Int d 3600) = Int h /\
     Math_floor (div_Int (Z.rem d 3600) 60) = Int m /\
     Math_floor (Int (Z.rem d 60)) = Int s) /\
  formatDuration 0 = "0:00" /\
  formatDuration 65 = "1:05" /\
  formatDuration 3661 = "1:01:01".
Proof.
  intros Hbound h m s.
  assert (Hm : 0 <= m < 60).
  { subst m. pose proof (Z.mod_pos_bound d 3600 ltac:(lia)).
    split; [apply Z.div_pos; lia | apply Z.div_lt_upper_bound; lia]. }
  assert (Hs : 0 <= s < 60) by (subst s; apply Z.mod_pos_bound; lia).
  split; [|split; [|split; [|by repeat split]]].
  - unfold formatDuration. destruct (d <? 0) eqn:Hd; [done|].
    apply Z.ltb_ge in Hd.
    rewrite !Z.rem_mod_nonneg by lia. fold h m s.
    rewrite !padStart_two_digits by lia. done.
  - split; [done|]. split; [done|]. subst h m s.
    pose proof (Z.div_mod d 3600 ltac:(lia)).
    pose proof (Z.div_mod (d mod 3600) 60 ltac:(lia)).
    assert (d mod 3600 mod 60 = d mod 60).
    { apply Z.mod_mod_divide. exists 60. lia. }
    lia.
  - intros Hd. rewrite !Z.rem_mod_nonneg by lia. fold s.
    pose proof (Z.mod_pos_bound d 3600 ltac:(lia)).
    rewrite !floor_of_quotient by lia.
    repeat split. unfold Math_floor, Int. f_equal. apply Z.div_1_r.
Qed.

Lemma formatDuration_layout_witness :
  3725 < 2 ^ 53 /\ formatDuration 3725 = "1:02:05".
Proof.
  split; [lia|].
  pose proof (formatDuration_layout 3725 ltac:(lia)) as [H _]. exact H.
Defined.

End FormatDurationFacts.


(** ** Choosing a stream *)
Section PickStreamFacts.
Import JS WrapperA.

(** The bitrate a descriptor is sorted by. *)
Definition rate (f : StreamFormat) : Z := default 0 (bitrate f).

(** The first descriptor of the highest rate. *)
Definition first_highest (c : StreamFormat) (l : list StreamFormat) : Prop :=
  exists before after, l = before ++ c :: after /\
    Forall (fun f => rate f < rate c) before /\
    Forall (fun f => rate f <= rate c) after.

Lemma head_insert_sorted (x : StreamFormat) l :
  head (insert_sorted by_bitrate x l) =
  match head l with
  | Some y => if rate y <=? rate x then Some x else Some y
  | None => Some x
  end.
Proof.
  destruct l as [|y l]; [done|]. simpl. unfold by_bitrate. fold (rate x) (rate y).
  destruct (rate y - rate x <=? 0) eqn:E.
  - rewrite (proj2 (Z.leb_le _ _)); [done|]. apply Z.leb_le in E. lia.
  - rewrite (proj2 (Z.leb_gt _ _)); [done|]. apply Z.leb_gt in E. lia.
Qed.

Lemma head_sort l :
  match head (sort by_bitrate l) with
  | Some c => first_highest c l
  | None => l = []
  end.
Proof.
  induction l as [|x l IH]; [done|].
  change (sort by_bitrate (x :: l)) with (insert_sorted by_bitrate x (sort by_bitrate l)).
  rewrite head_insert_sorted.
  destruct (head (sort by_bitrate l)) as [y|].
  - destruct IH as (before & after & -> & Hb & Ha).
    destruct (rate y <=? rate x) eqn:E.
    + apply Z.leb_le in E. exists [], (before ++ y :: after). split; [done|].
      split; [constructor|]. apply Forall_app. split.
      * eapply Forall_impl; [exact Hb|]. simpl. intros; lia.
      * constructor; [done|]. eapply Forall_impl; [exact Ha|]. simpl. intros; lia.
    + apply Z.leb_gt in E. exists (x :: before), after. split; [done|].
      split; [by constructor|done].
  - subst l. exists [], []. repeat split; constructor.
Qed.

Lemma startsWith_append s a b : startsWith s (a ++ b)%string = true -> startsWith s a = true.
Proof.
  revert s. induction a as [|c a IH]; intros s H; [by destruct s|].
  rewrite append_cons in H. destruct s as [|c' s]; [done|]. simpl in *.
  apply andb_true_iff in H as [-> H]. by apply IH.
Qed.

Lemma includes_append s a b : includes s (a ++ b)%string = true -> includes s a = true.
Proof.
  induction s as [|c s IH]; cbn [includes]; intros H.
  - apply orb_true_iff in H as [H|H]; [|done].
    by rewrite (startsWith_append _ _ _ H).
  - apply orb_true_iff in H as [H|H].
    + by rewrite (startsWith_append _ _ _ H).
    + rewrite (IH H). by rewrite orb_true_r.
Qed.

Lemma audio_mp4_is_audio f : mime_includes "audio/mp4" f = true -> mime_includes "audio" f = true.
Proof.
  unfold mime_includes. destruct (mime_type f) as [m|]; [|done].
  apply (includes_append m "audio" "/mp4").
Qed.

(** A record that only offers one progressive MP4 video. *)
Definition only_video : StreamingData :=
  {| formats := Some [ {| url := Some "https://r1.example/videoplayback?itag=18";
                          mime_type := Some "video/mp4; codecs=avc1.42001E, mp4a.40.2";
                          bitrate := Some 568000; has_audio := Some true;
                          has_video := Some true; quality_label := Some "360p" |} ];
     adaptive_formats := None |}.

Lemma chosen_mp3 streaming :
  chosen streaming mp3 =
  match with_url streaming with
  | [] => None
  | first :: _ =>
      Some (default first
              (head (sort by_bitrate
                       (filter (fun f => mime_includes "audio" f = true)
                               (with_url streaming)))))
  end.
Proof. unfold chosen. by destruct (with_url streaming). Qed.

(** C8, as stated, fails: with no audio descriptor on offer the MP3
    choice is not among the audio descriptors (there are none); it is the
    first descriptor with a URL, here a video, with extension "webm". *)
Lemma mp3_choice_without_audio :
  filter (fun f => mime_includes "audio" f = true) (with_url only_video) = [] /\
  exists c, chosen only_video mp3 = Some c /\
    mime_includes "audio" c = false /\
    pickStreamUrl only_video mp3 =
      Some ("https://r1.example/videoplayback?itag=18", "webm").
Proof. split; [reflexivity|]. eexists. repeat split; reflexivity. Qed.

(** C8, amended.  For formatType "mp3": when some descriptor has a URL
    and a mime type containing "audio", the chosen descriptor is the one
    of highest bitrate among these (the first such; a missing bitrate
    counts as 0), and the extension is "m4a" if its mime type contains
    "audio/mp4" and "webm" otherwise.  When no descriptor with a URL is
    an audio one, the first descriptor with a URL is chosen, with
    extension "webm"; when no descriptor has a URL nothing is chosen. *)
Theorem mp3_choice (streaming : StreamingData) :
  match filter (fun f => mime_includes "audio" f = true) (with_url streaming) with
  | audio_first :: audio_rest =>
      exists c, chosen streaming mp3 = Some c /\
        first_highest c (audio_first :: audio_rest) /\
        has_url c = true /\ mime_includes "audio" c = true /\
        pickStreamUrl streaming mp3 =
          Some (default "" (url c),
                if mime_includes "audio/mp4" c then "m4a" else "webm")
  | [] =>
      chosen streaming mp3 = head (with_url streaming) /\
      pickStreamUrl streaming mp3 =
        (fun c => (default "" (url c), "webm")) <$> head (with_url streaming)
  end.
Proof.
  unfold pickStreamUrl. rewrite chosen_mp3.
  destruct (filter _ (with_url streaming)) as [|a audio] eqn:Haudio.
  - destruct (with_url streaming) as [|first rest] eqn:Hall; [done|].
    simpl. split; [done|].
    assert (Hin : first ∈ with_url streaming) by (rewrite Hall; apply elem_of_cons; by left).
    assert (Hurl : has_url first = true).
    { unfold with_url in Hin. by apply list_elem_of_filter in Hin as [? _]. }
    assert (Hno : mime_includes "audio" first = false).
    { destruct (mime_includes "audio" first) eqn:E; [|done].
      assert (H : first ∈ filter (fun f => mime_includes "audio" f = true) (first :: rest))
        by (apply list_elem_of_filter; split; [done|apply elem_of_cons; by left]).
      rewrite Haudio in H. by apply elem_of_nil in H. }
    rewrite Hurl.
    destruct (mime_includes "audio/mp4" first) eqn:E; [|done].
    apply audio_mp4_is_audio in E. congruence.
  - destruct (with_url streaming) as [|first rest] eqn:Hall; [done|].
    pose proof (head_sort (a :: audio)) as Hhead.
    destruct (head (sort by_bitrate (a :: audio))) as [c|]; [|done].
    simpl. exists c. split; [done|]. split; [done|].
    assert (Hin : c ∈ filter (fun f => mime_includes "audio" f = true) (first :: rest)).
    { rewrite Haudio. destruct Hhead as (before & after & -> & _).
      apply elem_of_app. right. apply elem_of_cons. by left. }
    apply list_elem_of_filter in Hin as [Hc Hin].
    rewrite <- Hall in Hin. unfold with_url in Hin.
    apply list_elem_of_filter in Hin as [Hurl _].
    by rewrite Hurl.
Qed.

End PickStreamFacts.


(** ** Searching *)
Section SearchFacts.
Import JS videoModel.

(** The items a search result of the engine holds (variant A). *)
Definition offered (search : option WrapperA.value) : list WrapperA.value :=
  match search with
  | Some (WrapperA.object fields) =>
      match WrapperA.field "videos" fields with
      | Some (WrapperA.array elements) => elements
      | _ => []
      end
  | _ => []
  end.

(** The id an item of variant B carries: [video_id], else [id], else none. *)
Definition id_of (video : WrapperB.Video) : string :=
  default "" (WrapperB.or_else (WrapperB.video_id video)
                (WrapperB.or_else (WrapperB.id video) None)).

Lemma to_VideoInfo_id item v :
  WrapperA.to_VideoInfo item = Some v -> WrapperA.getItemId item = Some (videoId v).
Proof.
  unfold WrapperA.to_VideoInfo. intros H.
  destruct (WrapperA.getItemId item) as [id|]; [|done]. simpl in H.
  repeat match type of H with
  | (?m ≫= _) = Some _ => destruct m; simpl in H; [|done]
  end.
  by injection H as <-.
Qed.

Lemma length_slice0 {A} (l : list A) n : 0 <= n -> (length (WrapperA.slice0 l n) <= Z.to_nat n)%nat.
Proof.
  intros Hn. unfold WrapperA.slice0. rewrite (proj2 (Z.ltb_ge n 0)) by done.
  rewrite length_take. lia.
Qed.

(** What variant A answers once it has the engine's items. *)
Definition answer_A (items : list WrapperA.value) (q : string) (n : Z) : SearchResult :=
  default (WrapperA.no_results q)
    (videos ← mapM WrapperA.to_VideoInfo (WrapperA.slice0 items n);
     Some {| videos := videos; query := q; page := 1;
             hasMore := n <=? Z.of_nat (length videos) |}).

Lemma answer_A_spec items q n :
  query (answer_A items q n) = q /\
  (length (videos (answer_A items q n)) <= length (WrapperA.slice0 items n))%nat /\
  (videos (answer_A items q n) = [] \/
   Forall2 (fun item v => WrapperA.getItemId item = Some (videoId v))
           (WrapperA.slice0 items n) (videos (answer_A items q n))).
Proof.
  unfold answer_A.
  destruct (mapM WrapperA.to_VideoInfo (WrapperA.slice0 items n)) as [vs|] eqn:Hm; simpl.
  - apply mapM_Some_1 in Hm. split; [done|].
    split; [by rewrite (Forall2_length _ _ _ Hm)|]. right.
    eapply Forall2_impl; [exact Hm|]. intros item v. apply to_VideoInfo_id.
  - split; [done|]. split; [lia|by left].
Qed.

Lemma searchVideos_A_answer search q n :
  WrapperA.searchVideos true search q n = Some (answer_A (offered search) q n) \/
  WrapperA.searchVideos true search q n = Some (WrapperA.no_results q).
Proof.
  unfold WrapperA.searchVideos, answer_A. simpl.
  destruct search as [result|]; simpl; [|by right].
  destruct result as [| |b|x|s|fields|els]; simpl; try by right.
  - left. reflexivity.
  - left. reflexivity.
  - left. reflexivity.
  - destruct (WrapperA.field "videos" fields) as [found|] eqn:Hf; simpl.
    + destruct found as [| |b|x|s|fs|els]; simpl; try (left; reflexivity).
      * destruct b; simpl; [by right|left; reflexivity].
      * destruct x as [|neg|z k]; simpl; [by left|by right|].
        destruct (z =? 0); simpl; [by left|by right].
      * destruct (negb (s =? "")%string); simpl; [by right|left; reflexivity].
      * by right.
    + left. reflexivity.
  - left. reflexivity.
Qed.

Lemma searchVideos_B_spec search q n :
  query (WrapperB.searchVideos search q n) = q /\
  (videos (WrapperB.searchVideos search q n) = [] \/
   exists results found,
     search = Some (Some results) /\ WrapperB.videos results = Some found /\
     videos (WrapperB.searchVideos search q n) =
       map WrapperB.to_VideoInfo (WrapperA.slice0 found n)).
Proof.
  unfold WrapperB.searchVideos.
  destruct search as [[results|]|]; simpl; auto.
  destruct (WrapperB.videos results) as [[|video found]|] eqn:Hv; simpl; auto.
  split; [done|]. right. by exists results, (video :: found).
Qed.

(** An engine result whose only item carries no id, in the shape each
    variant receives it. *)
Definition anonymous_item_A : WrapperA.value :=
  WrapperA.object
    [("videos",
      WrapperA.array
        [WrapperA.object
           [("title", WrapperA.object [("text", WrapperA.str "Python Tutorial")]);
            ("duration", WrapperA.object [("seconds", WrapperA.num (Int 3600))])]])].

Definition anonymous_item_B : WrapperB.Search :=
  {| WrapperB.videos :=
       Some [{| WrapperB.video_id := None; WrapperB.id := None;
                WrapperB.thumbnails := None;
                WrapperB.title := WrapperB.title_string "Python Tutorial";
                WrapperB.length_text :=
                  Some {| WrapperB.text := Some "1:00:00"; WrapperB.runs := None |};
                WrapperB.short_view_count :=
                  Some {| WrapperB.text := Some "1.2M views"; WrapperB.runs := None |};
                WrapperB.view_count := None; WrapperB.author := None;
                WrapperB.published := None |}];
     WrapperB.has_continuation := Some true |}.

Definition no_search : SearchController.state :=
  {| SearchController.currentSearchResult := None; SearchController.invoked := [] |}.

(** C4, as stated, fails: when the engine returns an item without an id,
    either variant delivers a result whose video has the empty videoId. *)
Lemma search_delivers_empty_videoId :
  (exists r v,
     WrapperA.searchVideos true (Some anonymous_item_A) "python tutorial" 20 = Some r /\
     SearchController.invoked
       (SearchController.searchVideos (Some r) true true no_search)
       = [SearchController.callback r] /\
     videos r = [v] /\ title v = "Python Tutorial" /\ videoId v = "") /\
  (exists v,
     let r := WrapperB.searchVideos (Some (Some anonymous_item_B)) "python tutorial" 20 in
     SearchController.invoked
       (SearchController.searchVideos (Some r) true true no_search)
       = [SearchController.callback r] /\
     videos r = [v] /\ title v = "Python Tutorial" /\ videoId v = "").
Proof.
  split.
  - eexists _, _. split; [reflexivity|]. repeat split; reflexivity.
  - eexists. repeat split; reflexivity.
Qed.

(** C4, amended.  For every search with maxResults = 20: when the
    wrapper's promise is fulfilled, the result handed to the success
    callback has at most 20 videos and the query that was asked; its
    videos are made, in order, from the first 20 items of the engine (or
    there are none), and the videoId of each is the id its item carries
    (variant A: [getItemId], the first truthy of [id], [video_id],
    [videoId] when it is a string; variant B: [video_id], else [id]),
    hence empty when the item carries none.  Variant A rejects, and the
    error callback is invoked instead, only when no client could be had. *)
Theorem search_delivery (q : string) (st : SearchController.state) (has_error : bool) :
  (forall client search,
     match WrapperA.searchVideos client search q 20 with
     | Some r =>
         SearchController.invoked
           (SearchController.searchVideos (Some r) true has_error st)
           = SearchController.invoked st ++ [SearchController.callback r] /\
         (length (videos r) <= 20)%nat /\
         query r = q /\
         (videos r = [] \/
          Forall2 (fun item v => WrapperA.getItemId item = Some (videoId v))
                  (take 20 (offered search)) (videos r))
     | None =>
         client = false /\
         SearchController.invoked
           (SearchController.searchVideos None true has_error st)
           = SearchController.invoked st ++
             (if has_error then [SearchController.errorCallback] else [])
     end) /\
  (forall search,
     let r := WrapperB.searchVideos search q 20 in
     SearchController.invoked
       (SearchController.searchVideos (Some r) true has_error st)
       = SearchController.invoked st ++ [SearchController.callback r] /\
     (length (videos r) <= 20)%nat /\
     query r = q /\
     (videos r = [] \/
      exists results found,
        search = Some (Some results) /\ WrapperB.videos results = Some found /\
        map videoId (videos r) = map id_of (take 20 found))).
Proof.
  split.
  - intros [|] search; [|done].
    pose proof (answer_A_spec (offered search) q 20) as (Hq & Hlen & Hids).
    pose proof (length_slice0 (offered search) 20 ltac:(lia)) as Hle.
    destruct (searchVideos_A_answer search q 20) as [-> | ->].
    + split; [done|]. split; [lia|]. split; [done|]. exact Hids.
    + split; [done|]. split; [simpl; lia|]. split; [done|]. by left.
  - intros search r.
    destruct (searchVideos_B_spec search q 20) as (Hq & Hvs). fold r in Hq, Hvs.
    split; [done|]. split; [|split; [done|]].
    + destruct Hvs as [-> | (results & found & _ & _ & ->)]; [simpl; lia|].
      rewrite length_map. pose proof (length_slice0 found 20 ltac:(lia)). lia.
    + destruct Hvs as [Hvs | (results & found & Hs & Hf & Hvs)]; [by left|].
      right. exists results, found. split; [done|]. split; [done|].
      rewrite Hvs. rewrite <- list_fmap_compose. reflexivity.
Qed.

End SearchFacts.


(** ** Parsing a view count *)
Section ParseViewCountFacts.
Import JS Format.

(** *** What the count pattern accepts *)

Lemma lower_idempotent c : lower (lower c) = lower c.
Proof. destruct c as [[] [] [] [] [] [] [] []]; reflexivity. Qed.

Definition digit_or_dot (c : ascii) : bool := is_digit c || chr "." c.
Definition kmb (c : ascii) : bool := one_of_i ["k"; "m"; "b"]%char c.

Lemma space_not_digit_or_dot c : is_space c = true -> digit_or_dot c = false.
Proof. destruct c as [[] [] [] [] [] [] [] []]; done. Qed.

Lemma kmb_not_digit_or_dot c : kmb c = true -> digit_or_dot c = false.
Proof. destruct c as [[] [] [] [] [] [] [] []]; done. Qed.

Lemma kmb_not_space c : kmb c = true -> is_space c = false.
Proof. destruct c as [[] [] [] [] [] [] [] []]; done. Qed.

(** The string does not begin with a character of the class. *)
Definition stops (P : ascii -> bool) (r : string) : Prop :=
  match r with
  | String c _ => P c = false
  | EmptyString => True
  end.

(** A run of a class followed by something that stops it splits in one
    way only. *)
Lemma span_unique P : forall x x' r r',
  all_chars P x = true -> all_chars P x' = true -> stops P r -> stops P r' ->
  (x ++ r)%string = (x' ++ r')%string -> x = x' /\ r = r'.
Proof.
  induction x as [|c x IH]; intros [|c' x'] r r' Hx Hx' Hr Hr' E.
  - done.
  - rewrite append_nil_l, append_cons in E. subst r. simpl in *.
    apply andb_true_iff in Hx' as [Hc _]. congruence.
  - rewrite append_nil_l, append_cons in E. subst r'. simpl in *.
    apply andb_true_iff in Hx as [Hc _]. congruence.
  - rewrite !append_cons in E. injection E as -> E. simpl in *.
    apply andb_true_iff in Hx as [_ Hx]. apply andb_true_iff in Hx' as [_ Hx'].
    destruct (IH x' r r' Hx Hx' Hr Hr' E) as [-> ->]. done.
Qed.

Lemma stops_append (P Q : ascii -> bool) ws r :
  (forall c, Q c = true -> P c = false) ->
  all_chars Q ws = true -> stops P r -> stops P (ws ++ r)%string.
Proof.
  intros HQ Hws Hr. destruct ws as [|c ws]; [done|].
  rewrite append_cons. simpl in *. apply andb_true_iff in Hws as [Hc _]. auto.
Qed.

(** A view-count suffix: nothing, or one of k, m, b in either case. *)
Definition is_suffix (s : string) : Prop :=
  s = "" \/ exists c, s = String c "" /\ kmb c = true.

Lemma is_suffix_stops P s :
  (forall c, kmb c = true -> P c = false) -> is_suffix s -> stops P s.
Proof. intros HP [->|(c & -> & Hc)]; simpl; auto. Qed.

Lemma count_pattern_sound text segs :
  match_atoms (atoms count_pattern) true text = Some segs ->
  exists numeral ws suffix,
    segs = [numeral; ws; suffix] /\ text = (numeral ++ ws ++ suffix)%string /\
    numeral <> "" /\ all_chars digit_or_dot numeral = true /\
    all_chars is_space ws = true /\ is_suffix suffix.
Proof.
  intros H. apply match_atoms_sound in H as (Hfit & rest & -> & Hend).
  rewrite (Hend eq_refl), append_nil_r.
  unfold count_pattern in Hfit. cbn [atoms] in Hfit.
  apply Forall2_cons_inv_l in Hfit as (g1 & segs1 & [H1 L1] & Hfit & ->).
  apply Forall2_cons_inv_l in Hfit as (g2 & segs2 & [H2 _] & Hfit & ->).
  apply Forall2_cons_inv_l in Hfit as (g3 & segs3 & H3 & Hfit & ->).
  apply Forall2_nil_inv_l in Hfit as ->.
  exists g1, g2, g3. cbn [joined fold_right]. rewrite append_nil_r.
  split; [done|]. split; [done|].
  split; [intros ->; simpl in L1; lia|].
  split; [done|]. split; [done|].
  apply fits_opt in H3 as [->|(c & -> & Hc)]; [by left|right; by exists c].
Qed.

Lemma count_pattern_complete numeral ws suffix :
  numeral <> "" -> all_chars digit_or_dot numeral = true ->
  all_chars is_space ws = true -> is_suffix suffix ->
  match_atoms (atoms count_pattern) true (numeral ++ ws ++ suffix)%string
  = Some [numeral; ws; suffix].
Proof.
  intros Hne Hnum Hws Hsuf.
  destruct (match_atoms_complete (atoms count_pattern) true [numeral; ws; suffix] "")
    as [segs Hsegs]; [|done|].
  { unfold count_pattern. cbn [atoms].
    constructor; [split; [done|]; destruct numeral; [done|simpl; lia]|].
    constructor; [by split|].
    constructor; [|constructor].
    apply fits_opt. destruct Hsuf as [->|(c & -> & Hc)]; [by left|right; by exists c]. }
  cbn [joined fold_right] in Hsegs. rewrite !append_nil_r in Hsegs.
  rewrite Hsegs. f_equal.
  apply count_pattern_sound in Hsegs
    as (g1 & g2 & g3 & -> & E & _ & H1 & H2 & H3).
  destruct (span_unique digit_or_dot numeral g1 (ws ++ suffix)%string (g2 ++ g3)%string)
    as [-> E'];
    try done.
  - apply (stops_append _ is_space); auto using space_not_digit_or_dot.
    apply is_suffix_stops; auto using kmb_not_digit_or_dot.
  - apply (stops_append _ is_space); auto using space_not_digit_or_dot.
    apply is_suffix_stops; auto using kmb_not_digit_or_dot.
  - destruct (span_unique is_space ws g2 suffix g3) as [-> ->]; try done;
      apply is_suffix_stops; auto using kmb_not_space.
Qed.

(** *** Reading a number *)

(** The value of a string of decimal digits, continuing from [acc]. *)
Fixpoint read_digits (s : string) (acc : Z) : Z :=
  match s with
  | EmptyString => acc
  | String c s' => read_digits s' (acc * 10 + (Z.of_N (code c) - 48))
  end.

(** The number the decimal literal [i.f] denotes: the binary64 value
    nearest to it. *)
Definition decimal_value (i f : string) : number :=
  binary64 (read_digits (i ++ f) 0) (10 ^ Z.of_nat (String.length f)).

Lemma digit_value_digit c :
  is_digit c = true -> digit_value 10 c = Some (Z.of_N (code c) - 48).
Proof. destruct c as [[] [] [] [] [] [] [] []]; done. Qed.

Lemma digit_value_other c : is_digit c = false -> digit_value 10 c = None.
Proof. destruct c as [[] [] [] [] [] [] [] []]; done. Qed.

Lemma digits_run : forall x r value count,
  all_chars is_digit x = true -> stops is_digit r ->
  digits 10 (x ++ r) value count = (read_digits x value, (count + String.length x)%nat, r).
Proof.
  induction x as [|c x IH]; intros r value count Hx Hr.
  - rewrite append_nil_l. simpl.
    destruct r as [|c r]; simpl; [by rewrite Nat.add_0_r|].
    simpl in Hr. by rewrite (digit_value_other _ Hr), Nat.add_0_r.
  - rewrite append_cons. simpl in *. apply andb_true_iff in Hx as [Hc Hx].
    rewrite (digit_value_digit _ Hc), (IH _ _ _ Hx Hr). f_equal. f_equal. lia.
Qed.

Lemma read_digits_append x y acc :
  read_digits (x ++ y) acc = read_digits y (read_digits x acc).
Proof.
  revert acc. induction x as [|c x IH]; intros acc; [done|].
  rewrite append_cons. simpl. apply IH.
Qed.

Lemma parseFloat_integer i :
  i <> "" -> all_chars is_digit i = true -> parseFloat i = decimal_value i "".
Proof.
  intros Hne Hi. unfold parseFloat, decimal_value.
  rewrite <- (append_nil_r i) at 1. rewrite digits_run by done.
  rewrite append_nil_r. simpl. destruct i; [done|]. done.
Qed.

Lemma parseFloat_fraction i f :
  (i <> "" \/ f <> "") -> all_chars is_digit i = true -> all_chars is_digit f = true ->
  parseFloat (i ++ "." ++ f) = decimal_value i f.
Proof.
  intros Hne Hi Hf. unfold parseFloat, decimal_value.
  rewrite digits_run by done. rewrite append_cons, append_nil_l.
  rewrite <- (append_nil_r f) at 1. rewrite digits_run by done.
  rewrite read_digits_append. simpl.
  destruct (String.length i + String.length f)%nat eqn:E.
  - destruct i, f; simpl in E; try lia. by destruct Hne.
  - simpl. do 2 f_equal. lia.
Qed.

(** *** Stripping "views" *)

Lemma all_chars_append P x y :
  all_chars P (x ++ y) = all_chars P x && all_chars P y.
Proof.
  induction x as [|c x IH]; [done|]. rewrite append_cons. simpl.
  by rewrite IH, andb_assoc.
Qed.

Fixpoint count_char (a : ascii) (s : string) : nat :=
  match s with
  | EmptyString => O
  | String c s' => ((if Ascii.eqb a c then 1 else 0) + count_char a s')%nat
  end.

Lemma count_char_append a x y :
  count_char a (x ++ y) = (count_char a x + count_char a y)%nat.
Proof.
  induction x as [|c x IH]; [done|]. rewrite append_cons. simpl. rewrite IH. lia.
Qed.

Lemma count_char_outside a P s :
  P a = false -> all_chars P s = true -> count_char a s = O.
Proof.
  intros Ha. induction s as [|c s IH]; [done|]. simpl.
  intros [Hc Hs]%andb_true_iff. rewrite (IH Hs).
  destruct (Ascii.eqb_spec a c) as [->|]; [congruence|done].
Qed.

(** Two ways of cutting one string: one cut comes first. *)
Lemma append_eq_append : forall x y u v : string,
  (x ++ u)%string = (y ++ v)%string ->
  exists z, (x = (y ++ z)%string /\ v = (z ++ u)%string) \/
            (y = (x ++ z)%string /\ u = (z ++ v)%string).
Proof.
  induction x as [|c x IH]; intros y u v E.
  - exists y. right. by rewrite !append_nil_l in *.
  - destruct y as [|c' y].
    + exists (String c x). left. by rewrite !append_nil_l in *.
    + rewrite !append_cons in E. injection E as -> E.
      destruct (IH y u v E) as [z [[-> ->]|[-> ->]]]; exists z; [left|right];
        by rewrite ?append_cons.
Qed.

(** What [/\s*views?\s*$/] matches in a lower-case string. *)
Definition views_tail (o ws : string) : string := ("view" ++ o ++ ws)%string.

Definition s_or_nothing (o : string) : Prop := o = "" \/ o = "s".

Lemma views_tail_one_v o ws :
  s_or_nothing o -> all_chars is_space ws = true ->
  count_char "v" (views_tail o ws) = 1%nat.
Proof.
  intros Ho Hws. unfold views_tail. rewrite !count_char_append.
  rewrite (count_char_outside "v" is_space ws) by done.
  by destruct Ho as [-> | ->].
Qed.

(** The place of the tail in a string is determined. *)
Lemma views_tail_unique x y o o' ws ws' :
  s_or_nothing o -> s_or_nothing o' ->
  all_chars is_space ws = true -> all_chars is_space ws' = true ->
  (x ++ views_tail o ws)%string = (y ++ views_tail o' ws')%string -> x = y.
Proof.
  intros Ho Ho' Hws Hws' E.
  pose proof (views_tail_one_v o ws Ho Hws) as H1.
  pose proof (views_tail_one_v o' ws' Ho' Hws') as H1'.
  destruct (append_eq_append _ _ _ _ E) as [z [[-> Hz]|[-> Hz]]].
  - destruct z as [|c z]; [by rewrite append_nil_r|]. exfalso.
    rewrite Hz, count_char_append, H1 in H1'.
    unfold views_tail in Hz. rewrite !append_cons in Hz. injection Hz as <- _.
    simpl in H1'. lia.
  - destruct z as [|c z]; [by rewrite append_nil_r|]. exfalso.
    rewrite Hz, count_char_append, H1' in H1.
    unfold views_tail in Hz. rewrite !append_cons in Hz. injection Hz as <- _.
    simpl in H1. lia.
Qed.

Lemma trimStart_spaces w : all_chars is_space w = true -> trimStart w = "".
Proof.
  induction w as [|c w IH]; [done|]. simpl.
  intros [-> Hw]%andb_true_iff. by apply IH.
Qed.

Lemma trimEnd_spaces w : all_chars is_space w = true -> trimEnd w = "".
Proof.
  induction w as [|c w IH]; [done|]. simpl.
  intros [Hc Hw]%andb_true_iff. by rewrite (IH Hw), Hc.
Qed.

Lemma trimEnd_append_spaces x w :
  all_chars is_space w = true -> trimEnd (x ++ w) = trimEnd x.
Proof.
  intros Hw. induction x as [|c x IH].
  - rewrite append_nil_l. by rewrite trimEnd_spaces.
  - rewrite append_cons. simpl. by rewrite IH.
Qed.

Lemma trim_append_spaces x w :
  all_chars is_space w = true -> trim (x ++ w) = trim x.
Proof.
  intros Hw. unfold trim. induction x as [|c x IH].
  - rewrite append_nil_l. by rewrite trimStart_spaces.
  - rewrite append_cons. simpl. destruct (is_space c); [done|].
    by rewrite <- append_cons, trimEnd_append_spaces.
Qed.

(** A character that lower-casing leaves alone. *)
Definition lower_case (c : ascii) : bool := Ascii.eqb (lower c) c.

Lemma toLowerCase_lower_case s : all_chars lower_case (toLowerCase s) = true.
Proof.
  unfold toLowerCase. induction s as [|c s IH]; [done|]. simpl.
  rewrite IH, andb_true_r.
  unfold lower_case. rewrite lower_idempotent. apply Ascii.eqb_refl.
Qed.

Lemma chr_i_lower_case x c :
  chr_i x c = true -> lower_case c = true -> c = lower x.
Proof.
  intros Hc%chr_i_spec Hl. unfold lower_case in Hl. apply Ascii.eqb_eq in Hl.
  congruence.
Qed.

Lemma views_suffix_sound u segs :
  all_chars lower_case u = true ->
  match_atoms (atoms views_suffix) true u = Some segs ->
  exists a o ws, u = (a ++ views_tail o ws)%string /\
    all_chars is_space a = true /\ s_or_nothing o /\ all_chars is_space ws = true.
Proof.
  intros Hlow H. apply match_atoms_sound in H as (Hfit & rest & -> & Hend).
  rewrite (Hend eq_refl), append_nil_r in *.
  unfold views_suffix in Hfit. cbn [atoms] in Hfit.
  apply Forall2_cons_inv_l in Hfit as (a & segs1 & [Ha _] & Hfit & ->).
  apply Forall2_cons_inv_l in Hfit as (? & ? & (c1 & -> & H1)%fits_one & Hfit & ->).
  apply Forall2_cons_inv_l in Hfit as (? & ? & (c2 & -> & H2)%fits_one & Hfit & ->).
  apply Forall2_cons_inv_l in Hfit as (? & ? & (c3 & -> & H3)%fits_one & Hfit & ->).
  apply Forall2_cons_inv_l in Hfit as (? & ? & (c4 & -> & H4)%fits_one & Hfit & ->).
  apply Forall2_cons_inv_l in Hfit as (o & ? & Ho%fits_opt & Hfit & ->).
  apply Forall2_cons_inv_l in Hfit as (ws & ? & [Hws _] & Hfit & ->).
  apply Forall2_nil_inv_l in Hfit as ->.
  cbn [joined fold_right] in *. rewrite append_nil_r in *.
  rewrite !all_chars_append in Hlow. simpl in Hlow. rewrite ?andb_true_r in Hlow.
  apply andb_true_iff in Hlow as [_ Hlow].
  apply andb_true_iff in Hlow as [L1 Hlow].
  apply andb_true_iff in Hlow as [L2 Hlow].
  apply andb_true_iff in Hlow as [L3 Hlow].
  apply andb_true_iff in Hlow as [L4 Hlow].
  apply andb_true_iff in Hlow as [Lo _].
  rewrite (chr_i_lower_case _ _ H1 L1), (chr_i_lower_case _ _ H2 L2),
    (chr_i_lower_case _ _ H3 L3), (chr_i_lower_case _ _ H4 L4).
  exists a, o, ws. split; [done|]. split; [done|]. split; [|done].
  destruct Ho as [->|(c & -> & Hc)]; [by left|right].
  simpl in Lo. rewrite andb_true_r in Lo.
  by rewrite (chr_i_lower_case _ _ Hc Lo).
Qed.

Lemma views_suffix_complete a o ws :
  all_chars is_space a = true -> s_or_nothing o -> all_chars is_space ws = true ->
  is_Some (match_atoms (atoms views_suffix) true (a ++ views_tail o ws)%string).
Proof.
  intros Ha Ho Hws.
  pose proof (match_atoms_complete (atoms views_suffix) true
                [a; "v"; "i"; "e"; "w"; o; ws]%string "") as H.
  cbn [joined fold_right] in H. rewrite !append_nil_r in H.
  apply H; [|done]. unfold views_suffix. cbn [atoms].
  constructor; [by split|].
  do 4 (constructor; [apply fits_one; by eexists|]).
  constructor; [apply fits_opt; destruct Ho as [-> | ->]; [by left|right; by eexists]|].
  constructor; [by split|]. constructor.
Qed.

Lemma exec_views_suffix t :
  exec views_suffix t = search (atoms views_suffix) true t.
Proof. reflexivity. Qed.

(** What is left of a lower-case string once "view" or "views" and the
    white space around it are taken off its end, and the rest is trimmed. *)
Lemma strip_views s before ws1 o ws2 :
  toLowerCase s = (before ++ ws1 ++ views_tail o ws2)%string ->
  all_chars is_space ws1 = true -> s_or_nothing o -> all_chars is_space ws2 = true ->
  trim (remove views_suffix (toLowerCase s)) = trim before.
Proof.
  intros E H1 Ho H2. unfold remove. rewrite exec_views_suffix.
  pose proof (search_complete (atoms views_suffix) true before _
                (views_suffix_complete ws1 o ws2 H1 Ho H2)) as [[b segs] Hs].
  rewrite <- E in Hs. rewrite Hs.
  apply search_sound in Hs as (after & Eb & Hm).
  pose proof (toLowerCase_lower_case s) as Hlow.
  rewrite Eb, all_chars_append in Hlow. apply andb_true_iff in Hlow as [_ Hlow].
  apply (views_suffix_sound _ _ Hlow) in Hm as (a & o' & ws' & -> & Ha & Ho' & Hws').
  rewrite E in Eb. rewrite <- !append_assoc in Eb.
  apply views_tail_unique in Eb; try done.
  rewrite <- (trim_append_spaces b a Ha), <- Eb. by apply trim_append_spaces.
Qed.

Lemma keep_without_views s :
  (forall before ws1 o ws2,
     all_chars is_space ws1 = true -> s_or_nothing o -> all_chars is_space ws2 = true ->
     toLowerCase s <> (before ++ ws1 ++ views_tail o ws2)%string) ->
  remove views_suffix (toLowerCase s) = toLowerCase s.
Proof.
  intros Hno. unfold remove. rewrite exec_views_suffix.
  destruct (search (atoms views_suffix) true (toLowerCase s)) as [[b segs]|] eqn:Hs;
    [|done].
  exfalso. apply search_sound in Hs as (after & Eb & Hm).
  pose proof (toLowerCase_lower_case s) as Hlow.
  rewrite Eb, all_chars_append in Hlow. apply andb_true_iff in Hlow as [_ Hlow].
  apply (views_suffix_sound _ _ Hlow) in Hm as (a & o' & ws' & -> & Ha & Ho' & Hws').
  by apply (Hno b a o' ws').
Qed.
(** *** The function as a whole *)

(** The text the count is read from. *)
Definition stripped (s : string) : string :=
  trim (remove views_suffix (toLowerCase s)).

(** The text is a run of digits and dots, white space, and a suffix. *)
Definition counts (text numeral suffix : string) : Prop :=
  exists ws, text = (numeral ++ ws ++ suffix)%string /\
    numeral <> "" /\ all_chars digit_or_dot numeral = true /\
    all_chars is_space ws = true /\ is_suffix suffix.

(** The multiplication a suffix asks for. *)
Definition scaled (suffix : string) (x : number) : number :=
  if String.eqb (toUpperCase suffix) "K" then mul x (Int 1000)
  else if String.eqb (toUpperCase suffix) "M" then mul x (Int 1000000)
  else if String.eqb (toUpperCase suffix) "B" then mul x (Int 1000000000)
  else x.

Lemma scaled_by_letter c x :
  kmb c = true ->
  scaled (String c "") x =
    mul x (Int (if chr_i "k" c then 1000
                else if chr_i "m" c then 1000000 else 1000000000)).
Proof. destruct c as [[] [] [] [] [] [] [] []]; done. Qed.

Lemma scaled_without_suffix x : scaled "" x = x.
Proof. reflexivity. Qed.

Lemma exec_count_pattern t :
  exec count_pattern t
  = option_map (pair EmptyString) (match_atoms (atoms count_pattern) true t).
Proof. reflexivity. Qed.

(** A text of the shape the pattern describes gets the rounded, scaled
    value [parseFloat] reads from its run of digits and dots. *)
Lemma parseViewCount_counts s numeral suffix :
  s <> "" -> counts (stripped s) numeral suffix ->
  parseViewCount s = Some (Math_round (scaled suffix (parseFloat numeral))).
Proof.
  intros Hs (ws & E & Hne & Hnum & Hws & Hsuf). unfold parseViewCount.
  destruct (String.eqb_spec s ""); [done|].
  fold (stripped s). rewrite E, exec_count_pattern.
  rewrite (count_pattern_complete numeral ws suffix) by done.
  cbn [option_map]. unfold scaled.
  by repeat destruct (String.eqb _ _).
Qed.

(** No value comes back exactly for the empty input and for a text that
    has not that shape. *)
Lemma parseViewCount_None s :
  parseViewCount s = None <->
  s = "" \/ ~ exists numeral suffix, counts (stripped s) numeral suffix.
Proof.
  split.
  - intros H. destruct (String.eqb_spec s "") as [->|Hs]; [by left|right].
    intros (numeral & suffix & Hc).
    by rewrite (parseViewCount_counts s numeral suffix) in H.
  - intros [->|Hno]; [done|]. unfold parseViewCount.
    destruct (String.eqb s ""); [done|]. fold (stripped s).
    rewrite exec_count_pattern.
    destruct (match_atoms (atoms count_pattern) true (stripped s)) as [segs|] eqn:Hm;
      [|done].
    exfalso. apply Hno.
    apply count_pattern_sound in Hm as (numeral & ws & suffix & _ & E & H).
    exists numeral, suffix, ws. by split.
Qed.

(** For a decimal literal with an optional suffix the value is the
    literal's, scaled and rounded. *)
Lemma parseViewCount_literal s i f suffix :
  s <> "" -> i <> "" ->
  all_chars is_digit i = true -> all_chars is_digit f = true ->
  (counts (stripped s) i suffix /\ f = "" \/
   counts (stripped s) (i ++ "." ++ f) suffix) ->
  parseViewCount s = Some (Math_round (scaled suffix (decimal_value i f))).
Proof.
  intros Hs Hi Di Df [[Hc ->]|Hc].
  - rewrite (parseViewCount_counts s i suffix) by done.
    by rewrite parseFloat_integer.
  - rewrite (parseViewCount_counts s _ suffix Hs Hc).
    rewrite parseFloat_fraction; auto.
Qed.

(** C6.  The four examples of the specification evaluate as it says.  But
    the pattern takes any run of digits and dots for the number, so an
    input that is not a number with an optional K/M/B suffix still gets a
    value: "." and "..5K" give NaN, "1.2.3 views" gives 1 and so does
    "1.234.567 views", a count written with dots between the thousands. *)
Theorem parseViewCount_takes_any_run_of_digits_and_dots :
  (parseViewCount "1.2M views" = Some (Int 1200000) /\
   parseViewCount "950 views" = Some (Int 950) /\
   parseViewCount "" = None /\
   parseViewCount "2.5K" = Some (Int 2500)) /\
  (parseViewCount "." = Some NaN /\
   parseViewCount "..5K" = Some NaN /\
   parseViewCount "1.2.3 views" = Some (Int 1) /\
   parseViewCount "1.234.567 views" = Some (Int 1)) /\
  (parseViewCount "no views" = None /\
   parseViewCount "1.2.3" <> None).
Proof. repeat split; try reflexivity. discriminate. Qed.

End ParseViewCountFacts.


(** ** The helpers of the wrappers *)
Section HelperFacts.
Import JS ytdlpWrapper.

(** *** Trimming *)

Lemma all_chars_impl (P Q : ascii -> bool) s :
  (forall c, P c = true -> Q c = true) -> all_chars P s = true -> all_chars Q s = true.
Proof.
  intros HPQ. induction s as [|c s IH]; [done|]. simpl.
  intros [Hc Hs]%andb_true_iff. by rewrite (HPQ c Hc), IH.
Qed.

Lemma all_chars_trimStart P s : all_chars P s = true -> all_chars P (trimStart s) = true.
Proof.
  induction s as [|c s IH]; [done|]. simpl.
  intros [Hc Hs]%andb_true_iff. destruct (is_space c); [auto|].
  simpl. by rewrite Hc, Hs.
Qed.

Lemma all_chars_trimEnd P s : all_chars P s = true -> all_chars P (trimEnd s) = true.
Proof.
  induction s as [|c s IH]; [done|]. simpl.
  intros [Hc Hs]%andb_true_iff. specialize (IH Hs).
  destruct (trimEnd s) as [|c' r].
  - destruct (is_space c); [done|]. simpl. by rewrite Hc.
  - change (P c && all_chars P (String c' r) = true). by rewrite Hc, IH.
Qed.

Lemma all_chars_trim P s : all_chars P s = true -> all_chars P (trim s) = true.
Proof. intros H. by apply all_chars_trimEnd, all_chars_trimStart. Qed.

Lemma trimStart_stops s : stops is_space (trimStart s).
Proof.
  induction s as [|c s IH]; [done|]. simpl.
  destruct (is_space c) eqn:E; [done|]. done.
Qed.

Lemma trimStart_fixed s : stops is_space s -> trimStart s = s.
Proof. destruct s as [|c s]; [done|]. simpl. by intros ->. Qed.

Lemma trimEnd_stops s : stops is_space s -> stops is_space (trimEnd s).
Proof.
  destruct s as [|c s]; [done|]. simpl. intros Hc.
  destruct (trimEnd s); [by rewrite Hc|done].
Qed.

Lemma trimEnd_cons c s :
  trimEnd (String c s) =
  match trimEnd s with
  | EmptyString => if is_space c then EmptyString else String c EmptyString
  | rest => String c rest
  end.
Proof. reflexivity. Qed.

Lemma trimEnd_trimEnd s : trimEnd (trimEnd s) = trimEnd s.
Proof.
  induction s as [|c s IH]; [done|]. rewrite trimEnd_cons.
  destruct (trimEnd s) as [|c' r] eqn:E.
  - destruct (is_space c) eqn:Ec; [done|]. simpl. by rewrite Ec.
  - by rewrite trimEnd_cons, IH.
Qed.

Lemma trim_trim s : trim (trim s) = trim s.
Proof.
  unfold trim. rewrite (trimStart_fixed (trimEnd _)).
  - apply trimEnd_trimEnd.
  - apply trimEnd_stops, trimStart_stops.
Qed.

(** A string that neither begins nor ends with white space. *)
Lemma trim_fixed_append x y :
  stops is_space x -> x <> "" -> trim y = y -> y <> "" -> trim (x ++ y) = (x ++ y)%string.
Proof.
  intros Hx Hne Hy Hney. unfold trim.
  rewrite trimStart_fixed by (destruct x; done).
  assert (Hend : trimEnd y = y).
  { unfold trim in Hy. rewrite <- Hy at 1. rewrite trimEnd_trimEnd. done. }
  clear Hx Hne. induction x as [|c x IH]; [by rewrite append_nil_l|].
  rewrite append_cons, trimEnd_cons, IH.
  destruct (x ++ y)%string eqn:E; [|done].
  destruct x; [rewrite append_nil_l in E; done|by rewrite append_cons in E].
Qed.

(** *** [sanitizeFilename] *)

Definition allowed (c : ascii) : bool := negb (forbidden c).

Lemma remove_all_allowed class s :
  all_chars (fun c => negb (class c)) (remove_all class s) = true.
Proof.
  induction s as [|c s IH]; [done|]. simpl.
  destruct (class c) eqn:E; [done|]. simpl. by rewrite E, IH.
Qed.

Lemma remove_all_fixed class s :
  all_chars (fun c => negb (class c)) s = true -> remove_all class s = s.
Proof.
  induction s as [|c s IH]; [done|]. simpl.
  intros [Hc Hs]%andb_true_iff. apply negb_true_iff in Hc. by rewrite Hc, IH.
Qed.

(** What a file name is after [sanitizeFilename]. *)
Definition clean (name : string) : Prop :=
  name <> "" /\ all_chars allowed name = true /\ trim name = name.

Lemma sanitizeFilename_is_clean name : clean (sanitizeFilename name).
Proof.
  unfold sanitizeFilename.
  destruct (String.eqb_spec (trim (remove_all forbidden name)) "") as [E|E].
  - by repeat split.
  - split; [done|]. split; [|apply trim_trim].
    apply all_chars_trim, remove_all_allowed.
Qed.

Lemma sanitizeFilename_of_clean name : clean name -> sanitizeFilename name = name.
Proof.
  intros (Hne & Hall & Htrim). unfold sanitizeFilename.
  rewrite (remove_all_fixed forbidden name Hall), Htrim.
  by destruct (String.eqb_spec name "").
Qed.

(** *** [normalizeDirUri] *)

Lemma endsWith_append x y : endsWith (x ++ y) y = true.
Proof.
  induction x as [|c x IH].
  - rewrite append_nil_l. destruct y; simpl; [done|].
    by rewrite Ascii.eqb_refl, String.eqb_refl.
  - rewrite append_cons. simpl. rewrite IH. apply orb_true_r.
Qed.

Lemma append_not_empty (x y : string) : y <> "" -> (x ++ y)%string <> "".
Proof. destruct x; [by rewrite append_nil_l|by rewrite append_cons]. Qed.

(** *** The patterns of the extractors *)

Lemma exec_floating r t :
  from_start r = false -> exec r t = search (atoms r) (to_end r) t.
Proof. unfold exec. by intros ->. Qed.

Lemma id_char_not_ampersand c : id_char c = true -> not_ampersand c = true.
Proof. destruct c as [[] [] [] [] [] [] [] []]; done. Qed.

Lemma id_char_not_space c : id_char c = true -> is_space c = false.
Proof. destruct c as [[] [] [] [] [] [] [] []]; done. Qed.

Lemma not_query_not_ampersand c :
  negb (one_of ["?"; "&"]%char c) = true -> not_ampersand c = true.
Proof. destruct c as [[] [] [] [] [] [] [] []]; done. Qed.

Lemma fits_plus cls seg :
  fits (the Plus cls) seg <-> seg <> "" /\ all_chars cls seg = true.
Proof.
  unfold fits. simpl. split.
  - intros [H L]. split; [|done]. intros ->. simpl in L. lia.
  - intros [Hne H]. split; [done|]. destruct seg; [done|simpl; lia].
Qed.

Ltac take_apart H :=
  repeat match type of H with
  | Forall2 _ (_ :: _) _ =>
      let H1 := fresh "Hfit" in
      apply Forall2_cons_inv_l in H as (? & ? & H1 & H & ->)
  | Forall2 _ [] _ => apply Forall2_nil_inv_l in H as ->
  end.

Lemma v_parameter_sound after segs :
  match_atoms (atoms v_parameter) false after = Some segs ->
  exists q g rest, segs = [q; "v"; "="; g] /\ after = (q ++ "v=" ++ g ++ rest)%string /\
    (q = "?" \/ q = "&") /\ g <> "" /\ all_chars not_ampersand g = true.
Proof.
  intros H. apply match_atoms_sound in H as (Hfit & rest & -> & _).
  unfold v_parameter in Hfit. cbn [atoms] in Hfit. take_apart Hfit.
  apply fits_one in Hfit0 as (q & -> & Hq).
  apply fits_one in Hfit1 as (? & -> & ->%chr_spec).
  apply fits_one in Hfit2 as (? & -> & ->%chr_spec).
  apply fits_plus in Hfit3 as [Hne Hg].
  eexists _, _, rest. split; [done|]. cbn [joined fold_right].
  rewrite append_nil_r. split; [by rewrite !append_cons, !append_nil_l|].
  split; [|done].
  destruct q as [[] [] [] [] [] [] [] []]; try done; auto.
Qed.

Lemma list_value_sound after segs :
  match_atoms (atoms list_value) false after = Some segs ->
  exists q g rest, segs = [q; "l"; "i"; "s"; "t"; "="; g] /\
    after = (q ++ "list=" ++ g ++ rest)%string /\
    (q = "?" \/ q = "&") /\ g <> "" /\ all_chars not_ampersand g = true.
Proof.
  intros H. apply match_atoms_sound in H as (Hfit & rest & -> & _).
  unfold list_value in Hfit. cbn [atoms] in Hfit. take_apart Hfit.
  apply fits_one in Hfit0 as (q & -> & Hq).
  repeat match goal with
  | H : fits (the One (chr _)) _ |- _ => apply fits_one in H as (? & -> & ->%chr_spec)
  end.
  apply fits_plus in Hfit6 as [Hne Hg].
  eexists _, _, rest. split; [done|]. cbn [joined fold_right].
  rewrite append_nil_r. split; [by rewrite !append_cons, !append_nil_l|].
  split; [|done].
  destruct q as [[] [] [] [] [] [] [] []]; try done; auto.
Qed.

Lemma short_link_sound after segs :
  match_atoms (atoms short_link) false after = Some segs ->
  exists g rest, segs = ["y"; "o"; "u"; "t"; "u"; "."; "b"; "e"; "/"; g] /\
    after = ("youtu.be/" ++ g ++ rest)%string /\
    g <> "" /\ all_chars not_ampersand g = true.
Proof.
  intros H. apply match_atoms_sound in H as (Hfit & rest & -> & _).
  unfold short_link in Hfit. cbn [atoms] in Hfit. take_apart Hfit.
  repeat match goal with
  | H : fits (the One (chr _)) _ |- _ => apply fits_one in H as (? & -> & ->%chr_spec)
  end.
  apply fits_plus in Hfit9 as [Hne Hg].
  eexists _, rest. split; [done|]. cbn [joined fold_right].
  rewrite append_nil_r. split; [by rewrite !append_cons, !append_nil_l|].
  split; [done|]. by apply (all_chars_impl _ _ _ not_query_not_ampersand).
Qed.

Lemma bare_id_sound t :
  test bare_id t = true -> String.length t = 11%nat /\ all_chars id_char t = true.
Proof.
  intros H. apply test_anchored in H as [segs H]; [|done].
  apply match_atoms_sound in H as (Hfit & rest & -> & Hend).
  rewrite (Hend eq_refl), append_nil_r.
  unfold bare_id in Hfit. cbn [atoms] in Hfit. take_apart Hfit.
  repeat match goal with
  | H : fits (the One _) _ |- _ => apply fits_one in H as (? & -> & ?)
  end.
  cbn [joined fold_right]. rewrite !append_cons, !append_nil_l.
  split; [done|]. simpl.
  repeat match goal with H : id_char _ = true |- _ => rewrite H; clear H end.
  done.
Qed.

Lemma bare_id_complete t :
  String.length t = 11%nat -> all_chars id_char t = true -> test bare_id t = true.
Proof.
  intros L H.
  do 11 (destruct t as [|? t]; [done|]). destruct t; [|done].
  simpl in H. repeat (apply andb_true_iff in H as [? H]).
  unfold test, exec. simpl.
  repeat match goal with E : id_char _ = true |- _ => rewrite E; clear E end.
  done.
Qed.

Lemma trimStart_spaces_append w x :
  all_chars is_space w = true -> trimStart (w ++ x) = trimStart x.
Proof.
  induction w as [|c w IH]; [by rewrite append_nil_l|].
  rewrite append_cons. simpl. intros [-> Hw]%andb_true_iff. auto.
Qed.

Lemma trim_no_space t :
  all_chars (fun c => negb (is_space c)) t = true -> trim t = t.
Proof.
  intros H. unfold trim. rewrite trimStart_fixed.
  - induction t as [|c t IH]; [done|]. rewrite trimEnd_cons.
    simpl in H. apply andb_true_iff in H as [Hc Ht]. rewrite (IH Ht).
    apply negb_true_iff in Hc. rewrite Hc. by destruct t.
  - destruct t as [|c t]; [done|]. simpl in *.
    apply andb_true_iff in H as [Hc _]. by apply negb_true_iff.
Qed.

(** X1.  Whatever [extractVideoId] returns is not empty and has no
    ampersand in it, so a caller that tests the result for truth tests
    for [null] and nothing else. *)
Theorem extractVideoId_gives_an_id value id :
  extractVideoId value = Some id ->
  id <> "" /\ all_chars not_ampersand id = true.
Proof.
  unfold extractVideoId.
  destruct (String.eqb_spec (trim value) "") as [|Hne]; [done|].
  destruct (test bare_id (trim value)) eqn:Hbare.
  - intros [= <-]. split; [done|].
    apply bare_id_sound in Hbare as [_ H].
    by apply (all_chars_impl _ _ _ id_char_not_ampersand).
  - rewrite !exec_floating by done.
    destruct (search (atoms v_parameter) _ _) as [[b segs]|] eqn:Hv.
    + apply search_sound in Hv as (after & _ & Hm).
      apply v_parameter_sound in Hm as (q & g & rest & -> & _ & _ & Hg & Hall).
      by intros [= <-].
    + destruct (search (atoms short_link) _ _) as [[b segs]|] eqn:Hs; [|done].
      apply search_sound in Hs as (after & _ & Hm).
      apply short_link_sound in Hm as (g & rest & -> & _ & Hg & Hall).
      by intros [= <-].
Qed.

Lemma extractVideoId_gives_an_id_witness :
  extractVideoId "https://youtu.be/dQw4w9WgXcQ?t=3" = Some "dQw4w9WgXcQ" /\
  "dQw4w9WgXcQ" <> "" /\ all_chars not_ampersand "dQw4w9WgXcQ" = true.
Proof.
  split; [reflexivity|].
  apply (extractVideoId_gives_an_id "https://youtu.be/dQw4w9WgXcQ?t=3"). reflexivity.
Defined.

(** X2.  An identifier given bare, eleven characters out of letters,
    digits, underscore and hyphen with any white space around it, is
    returned as it is. *)
Theorem extractVideoId_of_bare_id before t after :
  all_chars is_space before = true -> all_chars is_space after = true ->
  String.length t = 11%nat -> all_chars id_char t = true ->
  extractVideoId (before ++ t ++ after) = Some t.
Proof.
  intros Hb Ha L H.
  assert (Ht : trim t = t).
  { apply trim_no_space, (all_chars_impl id_char); [|done].
    intros c Hc. by rewrite (id_char_not_space c Hc). }
  assert (E : trim (before ++ t ++ after) = t).
  { rewrite <- append_assoc, trim_append_spaces by done.
    unfold trim. rewrite trimStart_spaces_append by done. apply Ht. }
  unfold extractVideoId. rewrite E.
  destruct (String.eqb_spec t "") as [->|_]; [done|].
  by rewrite bare_id_complete.
Qed.

Lemma extractVideoId_of_bare_id_witness :
  extractVideoId (" " ++ "dQw4w9WgXcQ" ++ "  ") = Some "dQw4w9WgXcQ".
Proof. apply extractVideoId_of_bare_id; reflexivity. Defined.

(** *** Searching a text that is known in part *)

Lemma search_here p e s segs :
  match_atoms p e s = Some segs -> search p e s = Some ("", segs).
Proof. intros H. destruct s; simpl; by rewrite H. Qed.

Lemma search_next p e c s :
  match_atoms p e (String c s) = None ->
  search p e (String c s) =
  match search p e s with
  | Some (before, segs) => Some (String c before, segs)
  | None => None
  end.
Proof. intros H. simpl. by rewrite H. Qed.

Lemma first_atom_fails cls p e c s :
  cls c = false -> match_atoms (the One cls :: p) e (String c s) = None.
Proof. intros H. simpl. by rewrite H. Qed.

Lemma many_all cls continue segs g :
  continue "" = Some segs -> all_chars cls g = true ->
  many cls continue g = Some (g :: segs).
Proof.
  intros Hend. induction g as [|c g IH]; simpl.
  - intros _. unfold skip. by rewrite Hend.
  - intros [-> Hg]%andb_true_iff. by rewrite (IH Hg).
Qed.

Lemma several_all cls continue segs g :
  continue "" = Some segs -> g <> "" -> all_chars cls g = true ->
  several cls continue g = Some (g :: segs).
Proof.
  intros Hend. destruct g as [|c g]; [done|]. intros _. simpl.
  intros [-> Hg]%andb_true_iff. by rewrite (many_all cls continue segs g Hend Hg).
Qed.

Definition watch_url (id : string) : string := "https://youtube.com/watch?v=" ++ id.

Lemma extractVideoId_watch_url id :
  id <> "" -> all_chars not_ampersand id = true -> trim id = id ->
  extractVideoId (watch_url id) = Some id.
Proof.
  intros Hne Hall Htrim. unfold extractVideoId, watch_url.
  rewrite trim_fixed_append by done.
  rewrite !append_cons, append_nil_l.
  destruct (String.eqb_spec (String "h" (String "t" (String "t" (String "p"
    (String "s" (String ":" (String "/" (String "/" (String "y" (String "o"
    (String "u" (String "t" (String "u" (String "b" (String "e" (String "."
    (String "c" (String "o" (String "m" (String "/" (String "w" (String "a"
    (String "t" (String "c" (String "h" (String "?" (String "v"
    (String "=" id)))))))))))))))))))))))))))) "") as [|_]; [done|].
  replace (test bare_id _) with false by reflexivity.
  rewrite exec_floating by done.
  unfold v_parameter. cbn [atoms to_end].
  repeat (rewrite search_next by (apply first_atom_fails; reflexivity)).
  rewrite (search_here _ _ _ ["?"; "v"; "="; id]); [done|].
  cbn [match_atoms quant class the once chr Ascii.eqb Bool.eqb one_of existsb orb
       option_map].
  by rewrite (several_all _ _ []).
Qed.

(** X3.  The address variant B gives a search result leads back to the
    result's video: when the id is not empty, has no ampersand and no
    white space at its ends, [extractVideoId] reads it out of the
    address again. *)
Theorem address_of_a_result_names_its_video (video : WrapperB.Video) :
  let v := WrapperB.to_VideoInfo video in
  videoModel.videoId v <> "" ->
  all_chars not_ampersand (videoModel.videoId v) = true ->
  trim (videoModel.videoId v) = videoModel.videoId v ->
  extractVideoId (videoModel.url v) = Some (videoModel.videoId v).
Proof. intros v. apply extractVideoId_watch_url. Qed.

Definition a_result : WrapperB.Video :=
  {| WrapperB.video_id := Some "dQw4w9WgXcQ"; WrapperB.id := None;
     WrapperB.thumbnails := None; WrapperB.title := WrapperB.title_string "a title";
     WrapperB.length_text := None; WrapperB.short_view_count := None;
     WrapperB.view_count := None; WrapperB.author := None;
     WrapperB.published := None |}.

Lemma address_of_a_result_names_its_video_witness :
  extractVideoId (videoModel.url (WrapperB.to_VideoInfo a_result))
  = Some (videoModel.videoId (WrapperB.to_VideoInfo a_result)).
Proof. apply address_of_a_result_names_its_video; [done|reflexivity|reflexivity]. Defined.

(** X4.  The same for variant A, where an item's own [url] is taken when
    it is a string; the address is built from the id otherwise, and
    then leads back to it. *)
Theorem address_of_an_item_names_its_video (item : WrapperA.value) v :
  WrapperA.to_VideoInfo item = Some v ->
  (forall u, WrapperA.get item "url" <> Some (WrapperA.str u)) ->
  videoModel.videoId v <> "" ->
  all_chars not_ampersand (videoModel.videoId v) = true ->
  trim (videoModel.videoId v) = videoModel.videoId v ->
  extractVideoId (videoModel.url v) = Some (videoModel.videoId v).
Proof.
  unfold WrapperA.to_VideoInfo. intros H Hurl.
  destruct (WrapperA.getItemId item) as [id|]; [|done]. simpl in H.
  repeat match type of H with
  | (?m ≫= _) = Some _ => destruct m eqn:?; simpl in H; [|done]
  end.
  injection H as <-. simpl. intros Hne Hall Htrim.
  match goal with E : WrapperA.getItemUrl _ _ = Some _ |- _ => rename E into Eu end.
  unfold WrapperA.getItemUrl in Eu.
  destruct (WrapperA.get item "url") as [u|] eqn:Eg; [|done]. simpl in Eu.
  destruct u as [| | | |u| |]; try by destruct (Hurl u).
  all: injection Eu as <-; destruct (String.eqb_spec id ""); [done|];
    by apply extractVideoId_watch_url.
Qed.

Definition an_item : WrapperA.value :=
  WrapperA.object [("id", WrapperA.str "dQw4w9WgXcQ")].

Lemma address_of_an_item_names_its_video_witness :
  exists v, WrapperA.to_VideoInfo an_item = Some v /\
    extractVideoId (videoModel.url v) = Some (videoModel.videoId v).
Proof.
  eexists. split; [reflexivity|].
  apply (address_of_an_item_names_its_video an_item); try reflexivity; try done.
Defined.

(** X5.  When [extractPlaylistId] finds an id, the id is not empty and
    has no ampersand, and the text is one [isPlaylistUrl] accepts. *)
Theorem extractPlaylistId_gives_an_id value id :
  extractPlaylistId value = Some id ->
  id <> "" /\ all_chars not_ampersand id = true /\ App.isPlaylistUrl value = true.
Proof.
  unfold extractPlaylistId. rewrite exec_floating by done.
  destruct (search (atoms list_value) _ _) as [[b segs]|] eqn:Hs; [|done].
  apply search_sound in Hs as (after & -> & Hm).
  apply list_value_sound in Hm as (q & g & rest & -> & -> & Hq & Hg & Hall).
  intros [= <-]. split; [done|]. split; [done|].
  unfold App.isPlaylistUrl. apply test_floating; [done|].
  eexists b, _. split; [done|]. apply list_parameter_matches.
  exists (g ++ rest)%string. destruct Hq as [-> | ->]; auto.
Qed.

Lemma extractPlaylistId_gives_an_id_witness :
  extractPlaylistId "https://youtube.com/playlist?list=PL123&index=2" = Some "PL123" /\
  "PL123" <> "" /\ all_chars not_ampersand "PL123" = true /\
  App.isPlaylistUrl "https://youtube.com/playlist?list=PL123&index=2" = true.
Proof.
  split; [reflexivity|].
  apply (extractPlaylistId_gives_an_id
           "https://youtube.com/playlist?list=PL123&index=2"). reflexivity.
Defined.

(** X6.  A name that went through [sanitizeFilename] is never empty, has
    none of the characters the pattern lists (so no slash and no
    backslash), and neither begins nor ends with white space. *)
Theorem sanitizeFilename_result (name : string) :
  sanitizeFilename name <> "" /\
  all_chars allowed (sanitizeFilename name) = true /\
  trim (sanitizeFilename name) = sanitizeFilename name.
Proof. apply sanitizeFilename_is_clean. Qed.

(** X7.  [sanitizeFilename] changes nothing the second time. *)
Theorem sanitizeFilename_idempotent (name : string) :
  sanitizeFilename (sanitizeFilename name) = sanitizeFilename name.
Proof. apply sanitizeFilename_of_clean, sanitizeFilename_is_clean. Qed.

(** X8.  [normalizeDirUri] gives the empty string or a path that ends
    with a slash, and normalizing its result again changes nothing. *)
Theorem normalizeDirUri_idempotent (path : option string) :
  (normalizeDirUri path = "" \/ endsWith (normalizeDirUri path) "/" = true) /\
  normalizeDirUri (Some (normalizeDirUri path)) = normalizeDirUri path.
Proof.
  destruct path as [p|]; [|by split; [left|]]. simpl.
  destruct (String.eqb_spec p "") as [->|Hne]; [by split; [left|]|].
  destruct (endsWith p "/") eqn:E.
  - split; [by right|]. simpl. rewrite E. by destruct (String.eqb_spec p "").
  - pose proof (endsWith_append p "/") as H. split; [by right|]. simpl. rewrite H.
    destruct (String.eqb_spec (p ++ "/") "") as [E'|_]; [|done].
    by apply append_not_empty in E'.
Qed.

End HelperFacts.

(** ** Sorting with a comparator *)
Section SortFacts.
Import WrapperA.
Context {A : Type} (compare : A -> A -> Z).
Hypothesis total : forall x y, compare x y <= 0 \/ compare y x <= 0.
Hypothesis transitive :
  forall x y z, compare x y <= 0 -> compare y z <= 0 -> compare x z <= 0.

(** [c] stands in [l] where the comparator puts nothing before it:
    what precedes it has to come after it, what follows it may. *)
Definition first_best (c : A) (l : list A) : Prop :=
  exists before after, l = before ++ c :: after /\
    Forall (fun f => ~ compare f c <= 0) before /\
    Forall (fun f => compare c f <= 0) after.

Lemma head_insert_sorted_by (x : A) l :
  head (insert_sorted compare x l) =
  match head l with
  | Some y => if compare x y <=? 0 then Some x else Some y
  | None => Some x
  end.
Proof. destruct l as [|y l]; [done|]. simpl. by destruct (compare x y <=? 0). Qed.

Lemma head_sort_by l :
  match head (sort compare l) with
  | Some c => first_best c l
  | None => l = []
  end.
Proof.
  induction l as [|x l IH]; [done|].
  change (sort compare (x :: l)) with (insert_sorted compare x (sort compare l)).
  rewrite head_insert_sorted_by.
  destruct (head (sort compare l)) as [y|].
  - destruct IH as (before & after & -> & Hb & Ha).
    destruct (compare x y <=? 0) eqn:E.
    + apply Z.leb_le in E. exists [], (before ++ y :: after). split; [done|].
      split; [constructor|]. apply Forall_app. split.
      * eapply Forall_impl; [exact Hb|]. simpl. intros f Hf.
        destruct (total y f) as [H|H]; [eauto|done].
      * constructor; [done|]. eapply Forall_impl; [exact Ha|]. simpl. eauto.
    + apply Z.leb_gt in E. exists (x :: before), after. split; [done|].
      split; [|done]. constructor; [lia|done].
  - subst l. exists [], []. repeat split; constructor.
Qed.

Lemma first_best_all c l : first_best c l -> c ∈ l /\ forall f, f ∈ l -> compare c f <= 0.
Proof.
  intros (before & after & -> & Hb & Ha). split.
  - apply elem_of_app. right. apply elem_of_cons. by left.
  - intros f [Hf|Hf]%elem_of_app.
    + rewrite Forall_forall in Hb. destruct (total c f) as [H|H]; [done|].
      by destruct (Hb f Hf).
    + apply elem_of_cons in Hf as [->|Hf].
      * by destruct (total c c).
      * rewrite Forall_forall in Ha. auto.
Qed.

End SortFacts.

(** ** The format and the file name of variant B *)
Section SelectionFacts.
Import JS WrapperB.

Definition tall (f : StreamFormat) : Z := default 0 (height f).
Definition rate_of (f : StreamFormat) : Z := default 0 (bitrate f).

(** The heights the comparator prefers. *)
Definition fitting (f : StreamFormat) : Prop := 360 <= tall f <= 720.

Ltac compare_cases :=
  unfold by_resolution, by_bitrate in *; cbv zeta in *;
  repeat (match goal with
          | H : context [?a <=? ?b] |- _ => destruct (Z.leb_spec a b)
          | H : context [?a <? ?b] |- _ => destruct (Z.ltb_spec a b)
          | |- context [?a <=? ?b] => destruct (Z.leb_spec a b)
          | |- context [?a <? ?b] => destruct (Z.ltb_spec a b)
          end; cbn [andb] in *).

Lemma by_resolution_total x y : by_resolution x y <= 0 \/ by_resolution y x <= 0.
Proof. compare_cases; lia. Qed.

Lemma by_resolution_transitive x y z :
  by_resolution x y <= 0 -> by_resolution y z <= 0 -> by_resolution x z <= 0.
Proof. intros H1 H2. compare_cases; lia. Qed.

Lemma by_resolution_spec c f :
  by_resolution c f <= 0 ->
  (fitting f -> fitting c /\ tall f <= tall c) /\ (~ fitting c -> tall f <= tall c).
Proof.
  unfold fitting, tall. intros H. compare_cases; lia.
Qed.

Lemma by_bitrate_total x y : by_bitrate x y <= 0 \/ by_bitrate y x <= 0.
Proof. unfold by_bitrate. lia. Qed.

Lemma by_bitrate_transitive x y z :
  by_bitrate x y <= 0 -> by_bitrate y z <= 0 -> by_bitrate x z <= 0.
Proof. unfold by_bitrate. lia. Qed.

Lemma filter_nil_none {A} (P : A -> bool) (l : list A) :
  filter (fun f => P f = true) l = [] -> Forall (fun f => P f = false) l.
Proof.
  intros H. apply Forall_forall. intros f Hf.
  destruct (P f) eqn:E; [|done].
  assert (Hin : f ∈ filter (fun f => P f = true) l) by by apply list_elem_of_filter.
  rewrite H in Hin. by apply elem_of_nil in Hin.
Qed.

(** X9.  The format variant B downloads.  For a video it is a format
    whose mime type contains "video"; when one of these has a height
    from 360 to 720, the selected one has such a height and none of
    these is taller, otherwise none at all is taller.  For audio it is
    a format whose mime type contains "audio", of the highest bitrate.
    Nothing is selected exactly when there is no format of the kind. *)
Theorem selectedFormat_choice (formats : list StreamFormat) :
  match selectedFormat formats WrapperA.mp4 with
  | Some c =>
      c ∈ formats /\ mime_includes "video" c = true /\
      forall f, f ∈ formats -> mime_includes "video" f = true ->
        (fitting f -> fitting c /\ tall f <= tall c) /\
        (~ fitting c -> tall f <= tall c)
  | None => Forall (fun f => mime_includes "video" f = false) formats
  end /\
  match selectedFormat formats WrapperA.mp3 with
  | Some c =>
      c ∈ formats /\ mime_includes "audio" c = true /\
      forall f, f ∈ formats -> mime_includes "audio" f = true -> rate_of f <= rate_of c
  | None => Forall (fun f => mime_includes "audio" f = false) formats
  end.
Proof.
  unfold selectedFormat. split.
  - destruct (filter _ formats) as [|v vs] eqn:Hv; [by apply filter_nil_none|].
    pose proof (head_sort_by by_resolution by_resolution_total
                  by_resolution_transitive (v :: vs)) as Hhead.
    destruct (head _) as [c|]; [|done].
    apply (first_best_all _ by_resolution_total) in Hhead as [Hin Hall].
    rewrite <- Hv in Hin, Hall. apply list_elem_of_filter in Hin as [Hc Hin].
    split; [done|]. split; [done|]. intros f Hf Hvid.
    apply by_resolution_spec, Hall. by apply list_elem_of_filter.
  - destruct (filter _ formats) as [|a audio] eqn:Ha; [by apply filter_nil_none|].
    pose proof (head_sort_by by_bitrate by_bitrate_total
                  by_bitrate_transitive (a :: audio)) as Hhead.
    destruct (head _) as [c|]; [|done].
    apply (first_best_all _ by_bitrate_total) in Hhead as [Hin Hall].
    rewrite <- Ha in Hin, Hall. apply list_elem_of_filter in Hin as [Hc Hin].
    split; [done|]. split; [done|]. intros f Hf Haud.
    assert (H : by_bitrate c f <= 0) by by apply Hall, list_elem_of_filter.
    unfold by_bitrate in H. unfold rate_of. lia.
Qed.

(** *** The name of the file *)

Lemma split_parts P separator s :
  all_chars P s = true ->
  Forall (fun part => all_chars P part = true) (split separator s).
Proof.
  induction s as [|c s IH]; simpl; [by repeat constructor|].
  intros [Hc Hs]%andb_true_iff. specialize (IH Hs).
  destruct (Ascii.eqb c separator); [by constructor|].
  destruct (split separator s) as [|part parts]; [repeat constructor; simpl; by rewrite Hc|].
  apply Forall_cons in IH as [Hp Hps]. constructor; [|done]. simpl. by rewrite Hc.
Qed.

Lemma split_no_separator separator s :
  Forall (fun part => all_chars (fun c => negb (Ascii.eqb c separator)) part = true)
    (split separator s).
Proof.
  induction s as [|c s IH]; simpl; [by repeat constructor|].
  destruct (Ascii.eqb c separator) eqn:E; [by constructor|].
  destruct (split separator s) as [|part parts]; [repeat constructor; simpl; by rewrite E|].
  apply Forall_cons in IH as [Hp Hps]. constructor; [|done]. simpl. by rewrite E.
Qed.

Definition no_slash (c : ascii) : bool := negb (Ascii.eqb c "/").

Lemma allowed_no_slash c : ytdlpWrapper.forbidden c = false -> no_slash c = true.
Proof. destruct c as [[] [] [] [] [] [] [] []]; done. Qed.

Lemma extension_of_result mime formatType :
  extension_of mime formatType <> "" /\
  all_chars no_slash (extension_of mime formatType) = true /\
  trim (extension_of mime formatType) = extension_of mime formatType.
Proof.
  unfold extension_of.
  destruct (or_else mime None) as [m|]; [|by destruct formatType].
  pose proof (split_no_separator "/" m) as Hparts.
  destruct (split "/" m) as [|p0 [|sub parts]]; [done..|].
  destruct (includes sub "webm"); [done|].
  destruct (includes sub "mp4"); [by destruct formatType|].
  apply Forall_cons in Hparts as [_ [Hsub _]%Forall_cons].
  pose proof (split_parts _ ";" sub Hsub) as Hsemi.
  destruct (split ";" sub) as [|e es]; simpl; [done|].
  apply Forall_cons in Hsemi as [He _].
  unfold or_else. destruct (String.eqb_spec (trim e) "") as [|Hne]; [done|].
  simpl. split; [done|]. split; [by apply all_chars_trim|apply trim_trim].
Qed.

(** X10.  The file variant B downloads to is named by a stem that is not
    empty, a dot and an extension that is not empty, and there is no
    slash in the name: with the cache path in front it names a file
    directly in the cache directory, whatever the title of the video
    and the mime type of the format are. *)
Theorem fileName_stays_in_the_directory title mime formatType :
  exists stem extension,
    fileName title mime formatType = (stem ++ "." ++ extension)%string /\
    stem <> "" /\ extension <> "" /\
    all_chars no_slash (fileName title mime formatType) = true.
Proof.
  exists (ytdlpWrapper.sanitizeFilename title), (extension_of mime formatType).
  destruct (extension_of_result mime formatType) as (He & Hslash & _).
  destruct (sanitizeFilename_is_clean title) as (Hs & Hall & _).
  split; [done|]. split; [done|]. split; [done|].
  unfold fileName. rewrite !all_chars_append, Hslash. simpl.
  rewrite (all_chars_impl allowed no_slash); [done| |done].
  intros c Hc. apply allowed_no_slash. by apply negb_true_iff.
Qed.

End SelectionFacts.

(** ** [pickStreamUrl] beyond the MP3 choice *)
Section PickStreamUrlFacts.
Import JS WrapperA.

(** The descriptors of a record, in the order [pickStreamUrl] lists them. *)
Definition on_offer (streaming : StreamingData) : list StreamFormat :=
  default [] (formats streaming) ++ default [] (adaptive_formats streaming).

Lemma chosen_on_offer streaming formatType c :
  chosen streaming formatType = Some c -> c ∈ with_url streaming.
Proof.
  unfold chosen. destruct (with_url streaming) as [|first rest] eqn:E; [done|].
  assert (Hfirst : first ∈ first :: rest) by (apply elem_of_cons; by left).
  destruct formatType; intros [= <-].
  - destruct (find _ _) as [a|] eqn:Hfind; simpl.
    + apply find_some in Hfind as [Hin _]. apply list_elem_of_In in Hin.
      by apply list_elem_of_filter in Hin as [_ Hin].
    + destruct (filter _ (first :: rest)) as [|m ms] eqn:Hm; [done|]. simpl.
      assert (Hin : m ∈ filter (fun f => mime_includes "video/mp4" f = true) (first :: rest))
        by (rewrite Hm; apply elem_of_cons; by left).
      by apply list_elem_of_filter in Hin as [_ Hin].
  - pose proof (head_sort (filter (fun f => mime_includes "audio" f = true) (first :: rest)))
      as Hhead.
    destruct (head _) as [a|]; [|done]. simpl.
    destruct Hhead as (before & after & Hl & _).
    assert (Hin : a ∈ filter (fun f => mime_includes "audio" f = true) (first :: rest))
      by (rewrite Hl; apply elem_of_app; right; apply elem_of_cons; by left).
    by apply list_elem_of_filter in Hin as [_ Hin].
Qed.

(** A record with one progressive MP4 video and one audio stream. *)
Definition a_progressive_video : StreamingData :=
  {| formats := Some [ {| url := Some "https://r1.example/videoplayback?itag=18";
                          mime_type := Some "video/mp4; codecs=avc1.42001E, mp4a.40.2";
                          bitrate := Some 568000; has_audio := Some true;
                          has_video := Some true; quality_label := Some "360p" |} ];
     adaptive_formats :=
       Some [ {| url := Some "https://r1.example/videoplayback?itag=140";
                 mime_type := Some "audio/mp4; codecs=mp4a.40.2";
                 bitrate := Some 129000; has_audio := Some true;
                 has_video := Some false; quality_label := None |} ] |}.

(** X11.  The address [pickStreamUrl] returns is not empty and is the
    [url] of one of the descriptors of the record; the extension is
    "mp4" for a video, "m4a" or "webm" for audio. *)
Theorem pickStreamUrl_result streaming formatType address extension :
  pickStreamUrl streaming formatType = Some (address, extension) ->
  address <> "" /\
  (exists c, c ∈ on_offer streaming /\ url c = Some address) /\
  match formatType with
  | mp4 => extension = "mp4"
  | mp3 => extension = "m4a" \/ extension = "webm"
  end.
Proof.
  unfold pickStreamUrl.
  destruct (chosen streaming formatType) as [c|] eqn:Hc; [|done].
  apply chosen_on_offer in Hc. unfold with_url in Hc.
  apply list_elem_of_filter in Hc as [Hurl Hin]. rewrite Hurl.
  intros [= <- <-]. unfold has_url in Hurl.
  destruct (url c) as [u|] eqn:Eu; [|done]. simpl.
  split; [by destruct (String.eqb_spec u "")|].
  split; [by exists c|].
  destruct formatType; [done|]. destruct (mime_includes _ c); auto.
Qed.

Lemma pickStreamUrl_result_witness :
  pickStreamUrl a_progressive_video mp4 = Some ("https://r1.example/videoplayback?itag=18", "mp4") /\
  "https://r1.example/videoplayback?itag=18" <> "" /\
  (exists c, c ∈ on_offer a_progressive_video /\
     url c = Some "https://r1.example/videoplayback?itag=18") /\
  "mp4" = "mp4".
Proof.
  split; [reflexivity|].
  apply (pickStreamUrl_result a_progressive_video mp4). reflexivity.
Defined.

(** X12.  [pickStreamUrl] returns [null] exactly when no descriptor of the
    record has a usable [url]. *)
Theorem pickStreamUrl_null streaming formatType :
  pickStreamUrl streaming formatType = None <->
  Forall (fun f => has_url f = false) (on_offer streaming).
Proof.
  unfold pickStreamUrl. split.
  - intros H. apply filter_nil_none. change (with_url streaming = []).
    destruct (chosen streaming formatType) as [c|] eqn:Hc.
    + apply chosen_on_offer in Hc. pose proof Hc as Hin.
      unfold with_url in Hin. apply list_elem_of_filter in Hin as [Hurl _].
      by rewrite Hurl in H.
    + unfold chosen in Hc. destruct (with_url streaming); [done|].
      by destruct formatType.
  - intros Hall.
    assert (E : with_url streaming = []).
    { change (filter (fun f => has_url f = true) (on_offer streaming) = []).
      induction (on_offer streaming) as [|f l IH]; [done|].
      apply Forall_cons in Hall as [Hf Hl]. rewrite filter_cons.
      destruct (decide (has_url f = true)) as [Ht|_]; [congruence|auto]. }
    unfold chosen. by rewrite E.
Qed.

(** [c] is the first element of [l] with the property. *)
Definition first_such {A} (P : A -> bool) (c : A) (l : list A) : Prop :=
  exists before after, l = before ++ c :: after /\ P c = true /\
    Forall (fun f => P f = false) before.

Lemma find_first_such {A} (P : A -> bool) l c :
  find P l = Some c -> first_such P c l.
Proof.
  induction l as [|x l IH]; [done|]. simpl. destruct (P x) eqn:E.
  - intros [= <-]. by exists [], l.
  - intros H. destruct (IH H) as (before & after & -> & Hc & Hb).
    exists (x :: before), after. split; [done|]. split; [done|]. by constructor.
Qed.

Lemma find_nothing {A} (P : A -> bool) l :
  find P l = None -> Forall (fun f => P f = false) l.
Proof.
  induction l as [|x l IH]; [constructor|]. simpl. destruct (P x) eqn:E; [done|].
  intros H. constructor; auto.
Qed.

Lemma find_filter {A} (P Q : A -> bool) l :
  find Q (filter (fun f => P f = true) l) = find (fun f => P f && Q f) l.
Proof.
  induction l as [|x l IH]; [done|]. rewrite filter_cons. simpl.
  destruct (decide (P x = true)) as [E|E].
  - rewrite E. simpl. by rewrite IH.
  - apply not_true_is_false in E. by rewrite E.
Qed.

Lemma head_filter {A} (P : A -> bool) l :
  head (filter (fun f => P f = true) l) = find P l.
Proof.
  induction l as [|x l IH]; [done|]. rewrite filter_cons. simpl.
  destruct (decide (P x = true)) as [E|E].
  - by rewrite E.
  - apply not_true_is_false in E. by rewrite E.
Qed.

(** An MP4 video with a URL, and one that has sound too. *)
Definition video_mp4 (f : StreamFormat) : bool :=
  has_url f && mime_includes "video/mp4" f.
Definition with_sound (f : StreamFormat) : bool :=
  has_url f && (mime_includes "video/mp4" f && bool_decide (has_audio f = Some true)).

Lemma chosen_mp4 streaming :
  chosen streaming mp4 =
  match find with_sound (on_offer streaming), find video_mp4 (on_offer streaming) with
  | Some c, _ => Some c
  | None, Some c => Some c
  | None, None => find has_url (on_offer streaming)
  end.
Proof.
  assert (E1 : find with_sound (on_offer streaming) =
               find (fun f => mime_includes "video/mp4" f &&
                              bool_decide (has_audio f = Some true)) (with_url streaming))
    by (symmetry; apply (find_filter has_url)).
  assert (E2 : find video_mp4 (on_offer streaming) =
               find (fun f => mime_includes "video/mp4" f) (with_url streaming))
    by (symmetry; apply (find_filter has_url)).
  assert (E3 : find has_url (on_offer streaming) = head (with_url streaming))
    by (symmetry; apply head_filter).
  rewrite E1, E2, E3. unfold chosen.
  destruct (with_url streaming) as [|first rest]; [done|].
  rewrite find_filter, head_filter.
  destruct (find (fun f => mime_includes "video/mp4" f && _) _); [done|].
  cbn [default]. by destruct (find _ (first :: rest)).
Qed.


(** X13.  The MP4 choice of variant A.  The chosen descriptor is the first
    on offer that has a URL, a mime type containing "video/mp4" and
    sound; when there is none of these, the first with a URL and such a
    mime type; when there is none of those either, the first with a
    URL, whatever it is.  The extension is "mp4" in each case. *)
Theorem mp4_choice streaming c :
  chosen streaming mp4 = Some c ->
  (first_such with_sound c (on_offer streaming) \/
   Forall (fun f => with_sound f = false) (on_offer streaming) /\
     first_such video_mp4 c (on_offer streaming) \/
   Forall (fun f => video_mp4 f = false) (on_offer streaming) /\
     first_such has_url c (on_offer streaming)) /\
  pickStreamUrl streaming mp4 = Some (default "" (url c), "mp4").
Proof.
  intros Hc. split.
  - rewrite chosen_mp4 in Hc.
    destruct (find with_sound _) as [a|] eqn:Ea.
    { injection Hc as <-. left. by apply find_first_such. }
    apply find_nothing in Ea.
    destruct (find video_mp4 _) as [v|] eqn:Ev.
    { injection Hc as <-. right. left. split; [done|]. by apply find_first_such. }
    apply find_nothing in Ev. right. right. split; [done|]. by apply find_first_such.
  - unfold pickStreamUrl. rewrite Hc.
    apply chosen_on_offer in Hc. unfold with_url in Hc.
    apply list_elem_of_filter in Hc as [-> _]. done.
Qed.

Lemma mp4_choice_witness :
  exists c, chosen a_progressive_video mp4 = Some c /\
    pickStreamUrl a_progressive_video mp4 = Some (default "" (url c), "mp4").
Proof.
  eexists. split; [reflexivity|].
  apply (mp4_choice a_progressive_video). reflexivity.
Defined.

End PickStreamUrlFacts.

(** ** Integers as binary64 values *)
Section NumberFacts.
Import JS.

Lemma reduce_power (k : nat) : forall fuel z,
  (k <= fuel)%nat -> reduce fuel (z * 2 ^ Z.of_nat k) (N.of_nat k) = Dy z 0.
Proof.
  induction k as [|k IH]; intros fuel z Hk.
  - simpl. rewrite Z.mul_1_r. by destruct fuel.
  - destruct fuel as [|fuel]; [lia|].
    cbn [reduce]. rewrite (proj2 (N.eqb_neq _ _)) by lia.
    rewrite Nat2Z.inj_succ, Z.pow_succ_r by lia.
    replace (z * (2 * 2 ^ Z.of_nat k)) with (2 * (z * 2 ^ Z.of_nat k)) by lia.
    rewrite Z.even_mul. simpl.
    rewrite Z.mul_comm, Z.div_mul by lia.
    replace (N.of_nat (S k) - 1)%N with (N.of_nat k) by lia.
    apply IH. lia.
Qed.

(** An integer below [2^53] in size is a binary64 value. *)
Lemma binary64_exact z : Z.abs z < 2 ^ 53 -> binary64 z 1 = Int z.
Proof.
  intros Hz. unfold binary64. cbv zeta.
  destruct (Z.eqb_spec z 0) as [->|Hne]; [done|].
  set (a := Z.abs z). assert (Ha : 0 < a) by lia.
  change (Z.log2 1) with 0. rewrite Z.sub_0_r.
  pose proof (Z.log2_spec a Ha) as [Hlo Hhi].
  assert (He : 0 <= Z.log2 a <= 52).
  { split; [apply Z.log2_nonneg|].
    assert (Z.log2 a < 53); [|lia]. apply Z.log2_lt_pow2; lia. }
  rewrite (Z.max_l 0 (- Z.log2 a)), (Z.max_r 0 (Z.log2 a)) by lia.
  rewrite Z.mul_1_r, Z.mul_1_l.
  rewrite (proj2 (Z.ltb_ge _ _)) by lia.
  rewrite (Z.max_l (Z.log2 a - 52) (-1074)) by lia.
  set (k := 52 - Z.log2 a).
  replace (- (Z.log2 a - 52)) with k by lia.
  rewrite (Z.max_r 0 k), (Z.max_l 0 (Z.log2 a - 52)) by lia.
  rewrite Z.mul_1_l.
  assert (Hm : round_half_even (a * 2 ^ k) 1 = a * 2 ^ k).
  { unfold round_half_even. rewrite Z.mod_1_r, Z.div_1_r. done. }
  change (2 ^ 0) with 1. rewrite Hm.
  assert (Hinf : (0 <=? Z.log2 a - 52) && (2 ^ 1024 <=? a * 2 ^ k * 2 ^ (Z.log2 a - 52))
                 = false).
  { destruct (Z.leb_spec 0 (Z.log2 a - 52)); [|done]. simpl.
    assert (Z.log2 a = 52) as E by lia. subst k. rewrite E. simpl.
    apply Z.leb_gt. change (2 ^ 1024) with (2 ^ 53 * 2 ^ 971). nia. }
  rewrite Hinf, Z.mul_1_r.
  unfold dyadic.
  assert (Hp : 0 < 2 ^ k) by (apply Z.pow_pos_nonneg; lia).
  rewrite (proj2 (Z.eqb_neq _ _)) by nia.
  replace (Z.sgn z * (a * 2 ^ k)) with (z * 2 ^ Z.of_nat (Z.to_nat k)).
  2: { rewrite Z2Nat.id by lia. subst a. rewrite Z.mul_assoc. f_equal. lia. }
  replace (Z.to_N k) with (N.of_nat (Z.to_nat k)) by lia.
  apply reduce_power. lia.
Qed.

Lemma mul_Int a b : Z.abs (a * b) < 2 ^ 53 -> mul (Int a) (Int b) = Int (a * b).
Proof. intros H. unfold mul, Int. simpl. by apply binary64_exact. Qed.

Lemma add_Int a b : Z.abs (a + b) < 2 ^ 53 -> add (Int a) (Int b) = Int (a + b).
Proof.
  intros H. unfold add, Int. simpl. rewrite !Z.mul_1_r. by apply binary64_exact.
Qed.

End NumberFacts.

(** ** Reading a duration *)
Section DurationFacts.
Import JS Format WrapperB.

Lemma digits_all x value count :
  all_chars is_digit x = true ->
  digits 10 x value count = (read_digits x value, (count + String.length x)%nat, "").
Proof.
  intros Hx. rewrite <- (append_nil_r x) at 1. by apply digits_run.
Qed.

Lemma digits_to_the_end : forall s value count value' count',
  digits 10 s value count = (value', count', "") ->
  all_chars is_digit s = true /\ value' = read_digits s value.
Proof.
  induction s as [|c s IH]; intros value count value' count'; simpl.
  - by intros [= <- _].
  - destruct (is_digit c) eqn:E.
    + rewrite (digit_value_digit c E). intros H. by apply IH in H.
    + by rewrite (digit_value_other c E).
Qed.

Lemma String_of_digits n :
  0 <= n -> all_chars is_digit (String_of n) = true /\ read_digits (String_of n) 0 = n.
Proof.
  intros Hn. destruct (String_of_reads_back n Hn) as [k Hk].
  by apply digits_to_the_end in Hk as [? <-].
Qed.

Lemma decimal_not_empty fuel : forall n acc, acc <> "" -> decimal fuel n acc <> "".
Proof.
  induction fuel as [|fuel IH]; intros n acc Hacc; [done|]. simpl.
  destruct (n <? 10); [done|]. by apply IH.
Qed.

Lemma String_of_not_empty n : String_of n <> "".
Proof.
  unfold String_of. destruct (n <? 0); [done|].
  simpl. destruct (n <? 10); [done|]. by apply decimal_not_empty.
Qed.

Lemma is_digit_digit_char d : 0 <= d < 10 -> is_digit (digit_char d) = true.
Proof.
  intros Hd.
  assert (Hcases : d = 0 \/ d = 1 \/ d = 2 \/ d = 3 \/ d = 4 \/ d = 5 \/ d = 6 \/
                   d = 7 \/ d = 8 \/ d = 9) by lia.
  repeat (destruct Hcases as [-> | Hcases]; [reflexivity|]). by subst.
Qed.

Lemma code_digit_char d : 0 <= d < 10 -> Z.of_N (code (digit_char d)) - 48 = d.
Proof.
  intros Hd.
  assert (Hcases : d = 0 \/ d = 1 \/ d = 2 \/ d = 3 \/ d = 4 \/ d = 5 \/ d = 6 \/
                   d = 7 \/ d = 8 \/ d = 9) by lia.
  repeat (destruct Hcases as [-> | Hcases]; [reflexivity|]). by subst.
Qed.

Lemma two_digits_digits n :
  0 <= n < 100 ->
  all_chars is_digit (two_digits n) = true /\ read_digits (two_digits n) 0 = n.
Proof.
  intros Hn.
  assert (H1 : 0 <= n / 10 < 10)
    by (split; [apply Z.div_pos; lia | apply Z.div_lt_upper_bound; lia]).
  assert (H0 : 0 <= n mod 10 < 10) by (apply Z.mod_pos_bound; lia).
  unfold two_digits. simpl.
  rewrite !is_digit_digit_char, !code_digit_char by done.
  split; [done|]. pose proof (Z.div_mod n 10 ltac:(lia)). lia.
Qed.

(** [parseInt] of a string of decimal digits. *)
Lemma parseInt_digits s :
  s <> "" -> all_chars is_digit s = true -> parseInt s = binary64 (read_digits s 0) 1.
Proof.
  destruct s as [|c s]; [done|]. intros _ H. simpl in H.
  apply andb_true_iff in H as [Hc Hs].
  destruct c as [[] [] [] [] [] [] [] []]; try discriminate Hc.
  all: try (unfold parseInt; simpl; rewrite digits_all by done; done).
  destruct s as [|c' s].
  - reflexivity.
  - simpl in Hs. apply andb_true_iff in Hs as [Hc' Hs].
    destruct c' as [[] [] [] [] [] [] [] []]; try discriminate Hc'.
    all: unfold parseInt; simpl; rewrite digits_all by done; done.
Qed.

Definition not_colon (c : ascii) : bool := negb (Ascii.eqb c ":").

Lemma digit_not_colon c : is_digit c = true -> not_colon c = true.
Proof. destruct c as [[] [] [] [] [] [] [] []]; done. Qed.

Lemma split_append x y :
  all_chars not_colon x = true ->
  split ":" (x ++ String ":" y) = x :: split ":" y.
Proof.
  induction x as [|c x IH]; [done|]. rewrite append_cons. simpl.
  intros [Hc Hx]%andb_true_iff. apply negb_true_iff in Hc. by rewrite Hc, (IH Hx).
Qed.

Lemma split_single x : all_chars not_colon x = true -> split ":" x = [x].
Proof.
  induction x as [|c x IH]; [done|]. simpl.
  intros [Hc Hx]%andb_true_iff. apply negb_true_iff in Hc. by rewrite Hc, (IH Hx).
Qed.

Lemma formatDuration_of d :
  0 <= d ->
  formatDuration d =
    if 0 <? d / 3600
    then H_MM_SS (d / 3600) (d mod 3600 / 60) (d mod 60)
    else M_SS (d mod 3600 / 60) (d mod 60).
Proof.
  intros Hd. unfold formatDuration. rewrite (proj2 (Z.ltb_ge d 0)) by done.
  rewrite !Z.rem_mod_nonneg by lia.
  assert (0 <= d mod 3600 / 60 < 60).
  { pose proof (Z.mod_pos_bound d 3600 ltac:(lia)).
    split; [apply Z.div_pos; lia | apply Z.div_lt_upper_bound; lia]. }
  pose proof (Z.mod_pos_bound d 60 ltac:(lia)).
  rewrite !padStart_two_digits by lia. done.
Qed.

Lemma parseInt_String_of n : 0 <= n < 2 ^ 53 -> parseInt (String_of n) = Int n.
Proof.
  intros Hn. destruct (String_of_digits n) as [Hd Hr]; [lia|].
  rewrite parseInt_digits, Hr by (done || apply String_of_not_empty).
  apply binary64_exact. lia.
Qed.

Lemma parseInt_two_digits n : 0 <= n < 100 -> parseInt (two_digits n) = Int n.
Proof.
  intros Hn. destruct (two_digits_digits n Hn) as [Hd Hr].
  rewrite parseInt_digits, Hr by done.
  apply binary64_exact. lia.
Qed.

(** X14.  Variant B reads the duration of a result from its length text,
    and reads back what [formatDuration] writes: a length text that is
    the display of [d] seconds gives the duration [d] (for the [d] that
    binary64 counts exactly). *)
Theorem duration_of_reads_formatDuration (video : Video) (d : Z) :
  0 <= d < 2 ^ 53 ->
  text_of (length_text video) = Some (formatDuration d) ->
  duration_of video = Int d.
Proof.
  intros Hd Htext. unfold duration_of. rewrite Htext.
  set (h := d / 3600). set (m := d mod 3600 / 60). set (s := d mod 60).
  assert (Hm : 0 <= m < 60).
  { subst m. pose proof (Z.mod_pos_bound d 3600 ltac:(lia)).
    split; [apply Z.div_pos; lia | apply Z.div_lt_upper_bound; lia]. }
  assert (Hs : 0 <= s < 60) by (subst s; apply Z.mod_pos_bound; lia).
  assert (Hh : 0 <= h <= d).
  { subst h. split; [apply Z.div_pos; lia|]. apply Z.div_le_upper_bound; lia. }
  assert (Hsum : d = h * 3600 + m * 60 + s).
  { subst h m s. pose proof (Z.div_mod d 3600 ltac:(lia)).
    pose proof (Z.div_mod (d mod 3600) 60 ltac:(lia)).
    assert (d mod 3600 mod 60 = d mod 60)
      by (apply Z.mod_mod_divide; exists 60; lia).
    lia. }
  assert (Hcolon : forall n, 0 <= n -> all_chars not_colon (String_of n) = true).
  { intros n Hn. destruct (String_of_digits n Hn) as [Hdig _].
    by apply (all_chars_impl is_digit _ _ digit_not_colon). }
  assert (Hcolon2 : forall n, 0 <= n < 100 -> all_chars not_colon (two_digits n) = true).
  { intros n Hn. destruct (two_digits_digits n Hn) as [Hdig _].
    by apply (all_chars_impl is_digit _ _ digit_not_colon). }
  rewrite formatDuration_of by lia. fold h m s.
  destruct (Z.ltb_spec 0 h) as [Hpos|Hzero].
  - unfold H_MM_SS.
    assert (Hne : (String_of h ++ ":" ++ two_digits m ++ ":" ++ two_digits s)%string <> "")
      by (apply append_not_empty; done).
    unfold or_else.
    destruct (String.eqb_spec (String_of h ++ ":" ++ two_digits m ++ ":" ++ two_digits s) "");
      [done|].
    rewrite !append_cons, !append_nil_l.
    rewrite split_append, split_append, split_single by (auto with lia).
    rewrite parseInt_String_of, !parseInt_two_digits by lia.
    rewrite !mul_Int, !add_Int by lia. f_equal. lia.
  - assert (h = 0) as Eh by lia. unfold M_SS.
    assert (Hne : (String_of m ++ ":" ++ two_digits s)%string <> "")
      by (apply append_not_empty; done).
    unfold or_else.
    destruct (String.eqb_spec (String_of m ++ ":" ++ two_digits s) ""); [done|].
    rewrite !append_cons, !append_nil_l.
    rewrite split_append, split_single by (auto with lia).
    rewrite parseInt_String_of, !parseInt_two_digits by lia.
    rewrite !mul_Int, !add_Int by lia. f_equal. lia.
Qed.

Definition a_result_of_length (t : string) : Video :=
  {| video_id := Some "dQw4w9WgXcQ"; id := None; thumbnails := None;
     title := title_string "a title";
     length_text := Some {| text := Some t; runs := None |};
     short_view_count := None; view_count := None; author := None;
     published := None |}.

Lemma duration_of_reads_formatDuration_witness :
  duration_of (a_result_of_length (formatDuration 3661)) = Int 3661.
Proof.
  apply duration_of_reads_formatDuration; [lia|reflexivity].
Defined.

End DurationFacts.

(** ** The store of the download controller *)
Section StoreFacts.
Import videoModel DownloadController.

(** A video and two states to try the controller on. *)
Definition a_clip : VideoInfo :=
  {| videoId := "jNQXAC9IVRw"; title := "a clip"; thumbnailUrl := "";
     duration := JS.Int 19; channel := "a channel"; viewCount := None;
     uploadDate := None; url := "https://youtube.com/watch?v=jNQXAC9IVRw";
     isPlaylist := false; playlistCount := None |}.

Definition a_download : state :=
  (downloadVideo_call "q7m2p4zz" a_clip mp4 true true true init).1.

Definition a_paused_download : state := (pauseDownload "q7m2p4zz" a_download).1.

(** The task a call of [downloadVideo] leaves in the store before it
    waits for the wrapper. *)
Definition started (id : string) (v : VideoInfo) (f : FormatType) : DownloadTask :=
  {| downloadId := id; video := v; formatType := f;
     status := downloading; progress := JS.Int 0; error_text := None;
     pauseFlag := false; cancelFlag := false |}.

(** What one turn can do to a task. *)
Inductive task_step : DownloadTask -> DownloadTask -> Prop :=
| reports_progress t p : task_step t (with_progress p t)
| completes t :
    cancelFlag t = false ->
    task_step t (with_status completed (with_progress (JS.Int 100) t))
| fails_canceled t :
    cancelFlag t = true ->
    task_step t (with_error "Canceled" (with_status canceled t))
| fails t :
    cancelFlag t = false ->
    task_step t (with_error "Download failed" (with_status error t))
| pauses t :
    includes [downloading; queued] (status t) = true ->
    task_step t (with_status paused (with_pauseFlag true t))
| resumes t :
    status t = paused ->
    task_step t (with_status downloading (with_pauseFlag false t))
| cancels t :
    terminal (status t) = false ->
    task_step t (with_error "Canceled" (with_status canceled
                   (with_pauseFlag false (with_cancelFlag true t)))).

(** What one turn can do to the store. *)
Inductive store_step (st st' : state) : Prop :=
| store_same :
    heap st' = heap st -> allDownloads st' = allDownloads st -> store_step st st'
| store_new id v f :
    heap st' = heap st ++ [started id v f] ->
    allDownloads st' = <[id := length (heap st)]> (allDownloads st) ->
    store_step st st'
| store_task r t t' :
    heap st !! r = Some t -> task_step t t' ->
    heap st' = <[r := t']> (heap st) -> allDownloads st' = allDownloads st ->
    store_step st st'.

Lemma step_store e st st' :
  invariant st -> step e st = Some st' -> store_step st st'.
Proof.
  intros Hinv Hstep. pose proof Hinv as [Hf _ _ _ _].
  destruct e as [id v f p c x|r p|r fn|r ok|r|id|id|id]; cbn [step] in Hstep.
  - rewrite downloadVideo_call_eq in Hstep. injection Hstep as <-.
    by apply (store_new _ _ id v f).
  - destruct (allocated r st) eqn:Hal; [|done]. injection Hstep as <-.
    apply allocated_spec in Hal.
    destruct (lookup_lt_is_Some_2 (heap st) r Hal) as [t Hr].
    destruct (lookup_lt_is_Some_2 (frames st) r ltac:(lia)) as [fr Hfr].
    rewrite (on_progress_eq _ _ _ _ _ Hr Hfr).
    eapply (store_task _ _ r t); [done|apply (reports_progress t p)|done..].
  - destruct (allocated r st) eqn:Hal; [|done]. injection Hstep as <-.
    apply allocated_spec in Hal.
    destruct (lookup_lt_is_Some_2 (heap st) r Hal) as [t Hr].
    destruct (lookup_lt_is_Some_2 (frames st) r ltac:(lia)) as [fr Hfr].
    rewrite (on_complete_eq _ _ _ _ _ Hr Hfr).
    destruct (cancelFlag t) eqn:Hcf; [by apply store_same|].
    eapply (store_task _ _ r t); [done|by apply completes|done..].
  - destruct (is_suspended r st) eqn:Hsus; [|done]. injection Hstep as <-.
    destruct (is_suspended_inv _ _ Hsus) as (fr & Hfr & Hph).
    assert (Hal : (r < length (heap st))%nat)
      by (rewrite <- Hf; by eapply lookup_lt_Some).
    destruct (lookup_lt_is_Some_2 (heap st) r Hal) as [t Hr].
    rewrite (downloadVideo_resume_eq _ _ _ _ _ Hr Hfr). cbn [fst].
    destruct ok; [by apply store_same|].
    destruct (cancelFlag t) eqn:Hcf.
    + eapply (store_task _ _ r t); [done|by apply fails_canceled|done..].
    + eapply (store_task _ _ r t); [done|by apply fails|done..].
  - destruct (is_suspended r st) eqn:Hsus; [|done]. injection Hstep as <-.
    by apply store_same.
  - injection Hstep as <-.
    destruct (get id st) as [[r t]|] eqn:Hget;
      [|unfold pauseDownload; rewrite Hget; by apply store_same].
    rewrite (pauseDownload_eq _ _ _ _ Hget).
    apply get_Some in Hget as [_ Hr].
    destruct (includes _ (status t)) eqn:Hin; [|by apply store_same].
    eapply (store_task _ _ r t); [done|by apply pauses|done..].
  - injection Hstep as <-.
    destruct (get id st) as [[r t]|] eqn:Hget;
      [|unfold resumeDownload; rewrite Hget; by apply store_same].
    rewrite (resumeDownload_eq _ _ _ _ Hget).
    apply get_Some in Hget as [_ Hr].
    destruct (Status_eqb (status t) paused) eqn:Hin; [|by apply store_same].
    eapply (store_task _ _ r t); [done| |done..].
    apply resumes. by destruct (status t).
  - injection Hstep as <-.
    destruct (get id st) as [[r t]|] eqn:Hget;
      [|unfold cancelDownload; rewrite Hget; by apply store_same].
    rewrite (cancelDownload_eq _ _ _ _ Hget).
    apply get_Some in Hget as [_ Hr].
    destruct (includes _ (status t)) eqn:Hin; [by apply store_same|].
    eapply (store_task _ _ r t); [done|by apply cancels|done..].
Qed.

(** How the flags, the error text and the status of a task go together. *)
Definition flags_ok (t : DownloadTask) : Prop :=
  (status t = paused -> pauseFlag t = true) /\
  (pauseFlag t = true ->
     status t = paused \/ status t = completed \/ status t = error) /\
  (status t = downloading \/ status t = paused -> error_text t = None) /\
  (status t = canceled -> error_text t = Some "Canceled") /\
  (status t = error -> error_text t = Some "Download failed") /\
  (status t = completed ->
     error_text t = None \/ error_text t = Some "Download failed").

Lemma task_step_identity t t' :
  task_step t t' ->
  downloadId t' = downloadId t /\ video t' = video t /\ formatType t' = formatType t.
Proof. by intros []. Qed.

Lemma task_step_flags t t' :
  task_ok t -> flags_ok t -> task_step t t' -> flags_ok t'.
Proof.
  intros [Hq Hc] (H1 & H2 & H3 & H4 & H5 & H6) Hstep.
  destruct Hstep; unfold flags_ok, terminal in *; simpl in *;
    destruct (status t) eqn:Es; simpl in *; intuition (try congruence).
Qed.

(** Every key of [allDownloads] leads to a task with that id, and the
    id of every task is a key, leading to that task or to a later one. *)
Definition keyed (st : state) : Prop :=
  (forall id r, allDownloads st !! id = Some r ->
     exists t, heap st !! r = Some t /\ downloadId t = id) /\
  (forall r t, heap st !! r = Some t ->
     exists r', allDownloads st !! downloadId t = Some r' /\ (r <= r')%nat).

Definition coherent (st : state) : Prop :=
  Forall flags_ok (heap st) /\ keyed st.

Lemma coherent_step st st' :
  invariant st -> coherent st -> store_step st st' -> coherent st'.
Proof.
  intros Hinv [Hflags [Hkey Hids]] [Hh Ha|id v f Hh Ha|r t t' Hr Hstep Hh Ha].
  - split; [by rewrite Hh|]. split.
    + intros id r. rewrite Ha, Hh. apply Hkey.
    + intros r t. rewrite Ha, Hh. apply Hids.
  - split; [|split].
    + rewrite Hh. apply Forall_app. split; [done|].
      repeat constructor; simpl; try done; by intros [|].
    + intros id' r. rewrite Ha, Hh.
      destruct (decide (id = id')) as [<-|Hne].
      * rewrite lookup_insert_eq. intros [= <-]. exists (started id v f).
        by rewrite list_lookup_middle.
      * rewrite lookup_insert_ne by done. intros Hl.
        destruct (Hkey _ _ Hl) as (t & Ht & Hid). exists t. split; [|done].
        by rewrite lookup_app_l by by eapply lookup_lt_Some.
    + intros r t. rewrite Ha, Hh. intros Hl.
      apply lookup_app_Some in Hl as [Hl|[Hge Hl]].
      * destruct (decide (id = downloadId t)) as [->|Hne].
        -- rewrite lookup_insert_eq. eexists. split; [done|].
           apply lookup_lt_Some in Hl. lia.
        -- rewrite lookup_insert_ne by done. by apply Hids.
      * apply list_lookup_singleton_Some in Hl as [Hz <-]. simpl.
        rewrite lookup_insert_eq. eexists. split; [done|]. lia.
  - destruct (task_step_identity _ _ Hstep) as (Hid & _).
    split; [|split].
    + rewrite Hh. apply Forall_insert; [done|].
      eapply task_step_flags; [by eapply task_ok_at| |done].
      by eapply Forall_lookup_1.
    + intros id r'. rewrite Ha, Hh. intros Hl.
      destruct (Hkey _ _ Hl) as (t0 & Ht0 & Hid0).
      destruct (decide (r = r')) as [<-|Hne].
      * exists t'. rewrite list_lookup_insert_eq by by eapply lookup_lt_Some.
        split; [done|]. congruence.
      * exists t0. by rewrite list_lookup_insert_ne.
    + intros r' t0. rewrite Ha, Hh. intros Hl.
      destruct (decide (r = r')) as [<-|Hne].
      * rewrite list_lookup_insert_eq in Hl by by eapply lookup_lt_Some.
        injection Hl as <-. rewrite Hid. by apply Hids.
      * rewrite list_lookup_insert_ne in Hl by done. by apply Hids.
Qed.

Lemma reachable_coherent st : reachable st -> coherent st.
Proof.
  induction 1 as [|st e st' Hreach IH Hstep].
  - split; [constructor|]. split; [intros id r H|intros r t H]; done.
  - pose proof (reachable_invariant _ Hreach) as Hinv.
    eapply coherent_step; [done..|]. by eapply step_store.
Qed.

Lemma getDownload_Some id st task :
  getDownload id st = Some task <-> exists r, get id st = Some (r, task).
Proof.
  unfold getDownload. destruct (get id st) as [[r t]|]; simpl; split.
  - intros [= <-]. by exists r.
  - by intros (r' & [= _ <-]).
  - done.
  - by intros (r' & ?).
Qed.

Lemma task_table st id task :
  reachable st -> getDownload id st = Some task ->
  downloadId task = id /\
  match status task with
  | queued => False
  | downloading =>
      pauseFlag task = false /\ cancelFlag task = false /\ error_text task = None
  | paused =>
      pauseFlag task = true /\ cancelFlag task = false /\ error_text task = None
  | completed =>
      cancelFlag task = false /\
      (error_text task = None \/ error_text task = Some "Download failed")
  | canceled =>
      pauseFlag task = false /\ cancelFlag task = true /\
      error_text task = Some "Canceled"
  | error =>
      cancelFlag task = false /\ error_text task = Some "Download failed"
  end.
Proof.
  intros Hreach [r Hget]%getDownload_Some.
  apply get_Some in Hget as [Hid Hr].
  destruct (reachable_coherent _ Hreach) as [Hflags [Hkey _]].
  destruct (Hkey _ _ Hid) as (t & Ht & Htid).
  assert (t = task) as -> by congruence.
  split; [done|].
  destruct (task_ok_at _ _ _ (reachable_invariant _ Hreach) Hr) as [Hq Hc].
  pose proof (Forall_lookup_1 _ _ _ _ Hflags Hr) as (H1 & H2 & H3 & H4 & H5 & H6).
  destruct (status task) eqn:Es; try done.
  all: destruct (pauseFlag task) eqn:Ep; destruct (cancelFlag task) eqn:Ecf;
    intuition (try congruence).
Qed.

(** X15.  In every state the controller can reach, the task [getDownload]
    returns for an id carries that id, and its fields agree with its
    status as follows.  No task is ever seen [queued].  A [downloading]
    task has neither flag set and no error text; a [paused] one has the
    pause flag set, the cancel flag unset and no error text; a
    [canceled] one has the cancel flag set, the pause flag unset and
    the error text "Canceled"; an [error] one has the cancel flag unset
    and the error text "Download failed"; a [completed] one has the
    cancel flag unset and no error text but "Download failed". *)
Theorem getDownload_task_agrees_with_its_status st id task :
  reachable st -> getDownload id st = Some task ->
  downloadId task = id /\
  match status task with
  | queued => False
  | downloading =>
      pauseFlag task = false /\ cancelFlag task = false /\ error_text task = None
  | paused =>
      pauseFlag task = true /\ cancelFlag task = false /\ error_text task = None
  | completed =>
      cancelFlag task = false /\
      (error_text task = None \/ error_text task = Some "Download failed")
  | canceled =>
      pauseFlag task = false /\ cancelFlag task = true /\
      error_text task = Some "Canceled"
  | error =>
      cancelFlag task = false /\ error_text task = Some "Download failed"
  end.
Proof. apply task_table. Qed.

Lemma reachable_a_paused_download : reachable a_paused_download.
Proof.
  apply (run_reachable [DownloadVideo "q7m2p4zz" a_clip mp4 true true true;
                        PauseDownload "q7m2p4zz"] init);
    [apply reachable_init | reflexivity].
Qed.

Lemma getDownload_task_agrees_with_its_status_witness :
  exists task, getDownload "q7m2p4zz" a_paused_download = Some task /\
    downloadId task = "q7m2p4zz" /\
    pauseFlag task = true /\ cancelFlag task = false /\ error_text task = None.
Proof.
  eexists. split; [reflexivity|].
  apply (getDownload_task_agrees_with_its_status a_paused_download "q7m2p4zz");
    [apply reachable_a_paused_download|reflexivity].
Defined.

(** X16.  A task the controller created can be got by its id for good,
    as long as no other task was given the same id. *)
Theorem getDownload_finds_every_task st r t :
  reachable st -> heap st !! r = Some t ->
  (forall r' t', heap st !! r' = Some t' -> downloadId t' = downloadId t -> r' = r) ->
  getDownload (downloadId t) st = Some t.
Proof.
  intros Hreach Hr Hunique.
  destruct (reachable_coherent _ Hreach) as [_ [Hkey Hids]].
  destruct (Hids _ _ Hr) as (r' & Hl & _).
  destruct (Hkey _ _ Hl) as (t' & Ht' & Hid).
  assert (r' = r) as -> by by eapply Hunique.
  apply getDownload_Some. exists r. apply get_Some. split; [done|]. congruence.
Qed.

Lemma getDownload_finds_every_task_witness :
  exists t, heap a_paused_download !! 0%nat = Some t /\
    getDownload (downloadId t) a_paused_download = Some t.
Proof.
  eexists. split; [reflexivity|].
  apply (getDownload_finds_every_task a_paused_download 0);
    [apply reachable_a_paused_download|reflexivity|].
  intros [|r'] t' H; [done|]. by destruct r'.
Defined.

(** X17.  Pausing a download and resuming it puts the controller back
    where it was: both calls return true, and the task, the map, the
    history and the callbacks invoked are as before the pause. *)
Theorem pause_then_resume_restores st id task :
  reachable st -> getDownload id st = Some task -> status task = downloading ->
  let paused_st := pauseDownload id st in
  let resumed_st := resumeDownload id paused_st.1 in
  paused_st.2 = true /\ resumed_st.2 = true /\
  heap resumed_st.1 = heap st /\
  allDownloads resumed_st.1 = allDownloads st /\
  downloadHistory resumed_st.1 = downloadHistory st /\
  invoked resumed_st.1 = invoked st.
Proof.
  intros Hreach Hget Hs.
  destruct (task_table st id task Hreach Hget)
    as (_ & Hflags).
  apply getDownload_Some in Hget as [r Hget]. cbv zeta.
  rewrite (pauseDownload_eq _ _ _ _ Hget). rewrite Hs. simpl.
  pose proof Hget as [Hid Hr]%get_Some.
  assert (Hget' : get id
    {| heap := <[r := with_status paused (with_pauseFlag true task)]> (heap st);
       frames := frames st; allDownloads := allDownloads st;
       downloadHistory := downloadHistory st; invoked := invoked st;
       assigned := assigned st ++ [(r, downloading, paused)] |}
    = Some (r, with_status paused (with_pauseFlag true task))).
  { apply get_Some. simpl. split; [done|].
    apply list_lookup_insert_eq. by eapply lookup_lt_Some. }
  rewrite (resumeDownload_eq _ _ _ _ Hget'). simpl.
  repeat split; try done.
  rewrite list_insert_insert_eq. apply list_insert_id.
  rewrite Hr. f_equal. rewrite Hs in Hflags. destruct Hflags as (Hp & _).
  destruct task; simpl in *. by subst.
Qed.

Lemma reachable_a_download : reachable a_download.
Proof.
  apply (run_reachable [DownloadVideo "q7m2p4zz" a_clip mp4 true true true] init);
    [apply reachable_init | reflexivity].
Qed.

Lemma pause_then_resume_restores_witness :
  (pauseDownload "q7m2p4zz" a_download).2 = true /\
  (resumeDownload "q7m2p4zz" (pauseDownload "q7m2p4zz" a_download).1).2 = true /\
  heap (resumeDownload "q7m2p4zz" (pauseDownload "q7m2p4zz" a_download).1).1
  = heap a_download.
Proof.
  destruct (pause_then_resume_restores a_download "q7m2p4zz"
              (started "q7m2p4zz" a_clip mp4) reachable_a_download eq_refl eq_refl)
    as (H1 & H2 & H3 & _).
  repeat split; assumption.
Defined.

(** *** The error callback *)

Definition errors_settled (st : state) : Prop :=
  forall r, errors_of r (invoked st) = [] \/
            has_returned r st = true /\ errors_of r (invoked st) = ["Download failed"].

Lemma errors_settled_step e st st' :
  invariant st -> errors_settled st -> step e st = Some st' -> errors_settled st'.
Proof.
  intros Hinv Hes Hstep. pose proof Hinv as [Hf _ _ He _].
  destruct e as [id v f p c x|r p|r fn|r ok|r|id|id|id]; cbn [step] in Hstep.
  - rewrite downloadVideo_call_eq in Hstep. injection Hstep as <-.
    intros r. simpl. destruct (Hes r) as [H|[Hret H]]; [by left|right].
    split; [|done]. unfold has_returned in *. erewrite in_phase_call by done.
    destruct (decide (r = length (frames st))) as [->|]; [|done].
    unfold in_phase in Hret. by rewrite (proj2 (lookup_ge_None _ _)) in Hret.
  - destruct (allocated r st) eqn:Hal; [|done]. injection Hstep as <-.
    apply allocated_spec in Hal.
    destruct (lookup_lt_is_Some_2 (heap st) r Hal) as [t Hr].
    destruct (lookup_lt_is_Some_2 (frames st) r ltac:(lia)) as [fr Hfr].
    rewrite (on_progress_eq _ _ _ _ _ Hr Hfr). intros r'. simpl.
    rewrite errors_of_app.
    destruct (has_progressCallback fr); simpl; rewrite app_nil_r; apply Hes.
  - destruct (allocated r st) eqn:Hal; [|done]. injection Hstep as <-.
    apply allocated_spec in Hal.
    destruct (lookup_lt_is_Some_2 (heap st) r Hal) as [t Hr].
    destruct (lookup_lt_is_Some_2 (frames st) r ltac:(lia)) as [fr Hfr].
    rewrite (on_complete_eq _ _ _ _ _ Hr Hfr).
    destruct (cancelFlag t); [done|]. intros r'. simpl.
    rewrite errors_of_app.
    destruct (has_completeCallback fr); simpl; rewrite app_nil_r; apply Hes.
  - destruct (is_suspended r st) eqn:Hsus; [|done]. injection Hstep as <-.
    destruct (is_suspended_inv _ _ Hsus) as (fr & Hfr & Hph).
    assert (Hal : (r < length (heap st))%nat)
      by (rewrite <- Hf; by eapply lookup_lt_Some).
    destruct (lookup_lt_is_Some_2 (heap st) r Hal) as [t Hr].
    rewrite (downloadVideo_resume_eq _ _ _ _ _ Hr Hfr). cbn [fst].
    intros r'. unfold has_returned.
    erewrite (in_phase_settle returned returned r r' fr st) by done.
    cbn [invoked]. rewrite errors_of_app.
    destruct (decide (r = r')) as [<-|Hne].
    + rewrite (He r) by (unfold has_returned; by rewrite (in_phase_Some _ _ _ _ Hfr), Hph).
      destruct (negb ok && negb (cancelFlag t) && has_errorCallback fr); simpl.
      * right. by rewrite decide_True.
      * by left.
    + destruct (negb ok && negb (cancelFlag t) && has_errorCallback fr); simpl;
        rewrite ?decide_False by done; rewrite app_nil_r; apply Hes.
  - destruct (is_suspended r st) eqn:Hsus; [|done]. injection Hstep as <-.
    destruct (is_suspended_inv _ _ Hsus) as (fr & Hfr & Hph).
    rewrite (downloadVideo_reject_eq _ _ _ Hfr). intros r'. simpl.
    destruct (Hes r') as [H|[Hret H]]; [by left|right]. split; [|done].
    unfold has_returned in *.
    erewrite (in_phase_settle returned rejected r r' fr st) by done.
    destruct (decide (r = r')) as [<-|]; [|done].
    by rewrite (in_phase_Some _ _ _ _ Hfr), Hph in Hret.
  - injection Hstep as <-.
    destruct (get id st) as [[r t]|] eqn:Hget;
      [|unfold pauseDownload; by rewrite Hget].
    rewrite (pauseDownload_eq _ _ _ _ Hget).
    by destruct (includes _ (status t)).
  - injection Hstep as <-.
    destruct (get id st) as [[r t]|] eqn:Hget;
      [|unfold resumeDownload; by rewrite Hget].
    rewrite (resumeDownload_eq _ _ _ _ Hget).
    by destruct (Status_eqb _ _).
  - injection Hstep as <-.
    destruct (get id st) as [[r t]|] eqn:Hget;
      [|unfold cancelDownload; by rewrite Hget].
    rewrite (cancelDownload_eq _ _ _ _ Hget).
    by destruct (includes _ (status t)).
Qed.

(** X18.  The error callback of a download is invoked at most once, with
    the message "Download failed", and not before the call of
    [downloadVideo] has come back from waiting for the wrapper. *)
Theorem errorCallback_at_most_once st r :
  reachable st ->
  errors_of r (invoked st) = [] \/
  has_returned r st = true /\ errors_of r (invoked st) = ["Download failed"].
Proof.
  intros Hreach. revert r. change (errors_settled st).
  induction Hreach as [|st e st' Hreach IH Hstep]; [by left|].
  eapply errors_settled_step; [by apply reachable_invariant|done..].
Qed.

Lemma errorCallback_at_most_once_witness :
  errors_of 0 (invoked (downloadVideo_resume 0 false a_download).1)
  = ["Download failed"].
Proof.
  assert (Hre : reachable (downloadVideo_resume 0 false a_download).1).
  { apply (run_reachable [DownloadVideo "q7m2p4zz" a_clip mp4 true true true;
                          WrapperResolves 0 false] init);
      [apply reachable_init | reflexivity]. }
  destruct (errorCallback_at_most_once _ 0%nat Hre) as [H|[_ H]]; [done|exact H].
Defined.

(** *** What stays *)

Lemma step_history e st st' :
  invariant st -> step e st = Some st' ->
  exists more, downloadHistory st' = downloadHistory st ++ more.
Proof.
  intros Hinv Hstep. pose proof Hinv as [Hf _ _ _ _].
  destruct e as [id v f p c x|r p|r fn|r ok|r|id|id|id]; cbn [step] in Hstep.
  - rewrite downloadVideo_call_eq in Hstep. injection Hstep as <-.
    exists []. simpl. by rewrite app_nil_r.
  - destruct (allocated r st) eqn:Hal; [|done]. injection Hstep as <-.
    apply allocated_spec in Hal.
    destruct (lookup_lt_is_Some_2 (heap st) r Hal) as [t Hr].
    destruct (lookup_lt_is_Some_2 (frames st) r ltac:(lia)) as [fr Hfr].
    rewrite (on_progress_eq _ _ _ _ _ Hr Hfr). exists []. simpl. by rewrite app_nil_r.
  - destruct (allocated r st) eqn:Hal; [|done]. injection Hstep as <-.
    apply allocated_spec in Hal.
    destruct (lookup_lt_is_Some_2 (heap st) r Hal) as [t Hr].
    destruct (lookup_lt_is_Some_2 (frames st) r ltac:(lia)) as [fr Hfr].
    rewrite (on_complete_eq _ _ _ _ _ Hr Hfr). exists [].
    destruct (cancelFlag t); simpl; by rewrite app_nil_r.
  - destruct (is_suspended r st) eqn:Hsus; [|done]. injection Hstep as <-.
    destruct (is_suspended_inv _ _ Hsus) as (fr & Hfr & Hph).
    assert (Hal : (r < length (heap st))%nat)
      by (rewrite <- Hf; by eapply lookup_lt_Some).
    destruct (lookup_lt_is_Some_2 (heap st) r Hal) as [t Hr].
    rewrite (downloadVideo_resume_eq _ _ _ _ _ Hr Hfr). by exists [r].
  - destruct (is_suspended r st) eqn:Hsus; [|done]. injection Hstep as <-.
    exists []. simpl. by rewrite app_nil_r.
  - injection Hstep as <-. exists []. rewrite app_nil_r.
    destruct (get id st) as [[r t]|] eqn:Hget;
      [|unfold pauseDownload; by rewrite Hget].
    rewrite (pauseDownload_eq _ _ _ _ Hget). by destruct (includes _ (status t)).
  - injection Hstep as <-. exists []. rewrite app_nil_r.
    destruct (get id st) as [[r t]|] eqn:Hget;
      [|unfold resumeDownload; by rewrite Hget].
    rewrite (resumeDownload_eq _ _ _ _ Hget). by destruct (Status_eqb _ _).
  - injection Hstep as <-. exists []. rewrite app_nil_r.
    destruct (get id st) as [[r t]|] eqn:Hget;
      [|unfold cancelDownload; by rewrite Hget].
    rewrite (cancelDownload_eq _ _ _ _ Hget). by destruct (includes _ (status t)).
Qed.

(** A later state of the store: the history has grown at its end, the
    keys are still keys, and each task is still there, for the same
    id, video and format. *)
Definition extends (st st' : state) : Prop :=
  (exists more, downloadHistory st' = downloadHistory st ++ more) /\
  (forall id, is_Some (allDownloads st !! id) -> is_Some (allDownloads st' !! id)) /\
  (forall r t, heap st !! r = Some t ->
     exists t', heap st' !! r = Some t' /\ downloadId t' = downloadId t /\
       video t' = video t /\ formatType t' = formatType t).

Lemma extends_refl st : extends st st.
Proof.
  split; [exists []; by rewrite app_nil_r|]. split; [done|].
  intros r t Hr. by exists t.
Qed.

Lemma extends_trans st1 st2 st3 : extends st1 st2 -> extends st2 st3 -> extends st1 st3.
Proof.
  intros ([m1 H1] & K1 & T1) ([m2 H2] & K2 & T2). split; [|split].
  - exists (m1 ++ m2). by rewrite H2, H1, app_assoc.
  - auto.
  - intros r t Hr. destruct (T1 _ _ Hr) as (t' & Hr' & E1 & E2 & E3).
    destruct (T2 _ _ Hr') as (t'' & Hr'' & F1 & F2 & F3).
    exists t''. split; [done|]. repeat split; congruence.
Qed.

Lemma step_extends e st st' :
  invariant st -> step e st = Some st' -> extends st st'.
Proof.
  intros Hinv Hstep. split; [by eapply step_history|].
  destruct (step_store _ _ _ Hinv Hstep) as [Hh Ha|id v f Hh Ha|r t t' Hr Hts Hh Ha].
  - rewrite Hh, Ha. split; [done|]. intros r t Hr. by exists t.
  - rewrite Hh, Ha. split.
    + intros id' Hs. destruct (decide (id = id')) as [<-|Hne].
      * by rewrite lookup_insert_eq.
      * by rewrite lookup_insert_ne.
    + intros r t Hr. exists t. split; [|done].
      by rewrite lookup_app_l by by eapply lookup_lt_Some.
  - rewrite Hh, Ha. split; [done|]. intros r' t0 Hr'.
    destruct (decide (r = r')) as [<-|Hne].
    + exists t'. rewrite list_lookup_insert_eq by by eapply lookup_lt_Some.
      split; [done|]. assert (t0 = t) as -> by congruence.
      by apply task_step_identity.
    + exists t0. by rewrite list_lookup_insert_ne.
Qed.

(** X19.  The controller forgets nothing.  Whatever happens next, the
    history only grows at its end, an id that was a key of
    [allDownloads] stays one, and a task stays in the store for the
    same id, video and format. *)
Theorem controller_forgets_nothing es : forall st st',
  reachable st -> run es st = Some st' -> extends st st'.
Proof.
  induction es as [|e es IH]; intros st st' Hreach Hrun; simpl in Hrun.
  - injection Hrun as <-. apply extends_refl.
  - destruct (step e st) as [st1|] eqn:Hstep; [|done].
    eapply extends_trans.
    + eapply step_extends; [by apply reachable_invariant|done].
    + apply IH; [by eapply reachable_step|done].
Qed.

Lemma controller_forgets_nothing_witness :
  exists st', run [WrapperResolves 0 true; CancelDownload "q7m2p4zz"] a_download
              = Some st' /\ extends a_download st'.
Proof.
  eexists. split; [reflexivity|].
  apply (controller_forgets_nothing [WrapperResolves 0 true; CancelDownload "q7m2p4zz"]);
    [apply reachable_a_download|reflexivity].
Defined.

End StoreFacts.

(** ** Showing a view count *)
Section FormatViewsFacts.
Import JS Format.

Lemma space_is_lower_case c : is_space c = true -> lower c = c.
Proof. destruct c as [[] [] [] [] [] [] [] []]; done. Qed.

Lemma digit_is_lower_case c : is_digit c = true -> lower c = c.
Proof. destruct c as [[] [] [] [] [] [] [] []]; done. Qed.

Lemma digit_is_no_space c : is_digit c = true -> negb (is_space c) = true.
Proof. destruct c as [[] [] [] [] [] [] [] []]; done. Qed.

Lemma digit_is_digit_or_dot c : is_digit c = true -> digit_or_dot c = true.
Proof. unfold digit_or_dot. by intros ->. Qed.

Lemma toLowerCase_fixed (P : ascii -> bool) s :
  (forall c, P c = true -> lower c = c) -> all_chars P s = true -> toLowerCase s = s.
Proof.
  intros HP. unfold toLowerCase. induction s as [|c s IH]; [done|]. simpl.
  intros [Hc Hs]%andb_true_iff. by rewrite (HP c Hc), (IH Hs).
Qed.

Lemma Math_round_Int n : Math_round (Int n) = Int n.
Proof.
  unfold Math_round, Int. simpl. f_equal.
  change (2 ^ 0) with 1. change (2 ^ 1) with 2.
  symmetry. apply (Z.div_unique _ _ _ 1); lia.
Qed.

(** X20.  [parseViewCount] reads a count the engine gives in full: the
    decimal numeral of [n], white space, "view" or "views" and white
    space again give [n] (for the [n] that binary64 counts exactly). *)
Theorem parseViewCount_reads_a_plain_count (n : Z) (ws1 o ws2 : string) :
  0 <= n < 2 ^ 53 ->
  all_chars is_space ws1 = true -> s_or_nothing o -> all_chars is_space ws2 = true ->
  parseViewCount (String_of n ++ ws1 ++ views_tail o ws2) = Some (Int n).
Proof.
  intros Hn H1 Ho H2.
  destruct (String_of_digits n) as [Hdig Hread]; [lia|].
  pose proof (String_of_not_empty n) as Hne.
  set (s := (String_of n ++ ws1 ++ views_tail o ws2)%string).
  assert (Hlow : toLowerCase s = s).
  { subst s. unfold toLowerCase, views_tail. rewrite !map_string_append.
    fold toLowerCase.
    rewrite (toLowerCase_fixed is_digit) by (done || apply digit_is_lower_case).
    rewrite (toLowerCase_fixed is_space ws1), (toLowerCase_fixed is_space ws2)
      by (done || apply space_is_lower_case).
    by destruct Ho as [-> | ->]. }
  assert (Hstripped : stripped s = String_of n).
  { unfold stripped. rewrite (strip_views s (String_of n) ws1 o ws2) by done.
    apply trim_no_space, (all_chars_impl is_digit); [|done]. apply digit_is_no_space. }
  rewrite (parseViewCount_literal s (String_of n) "" "").
  - rewrite scaled_without_suffix. unfold decimal_value.
    rewrite append_nil_r, Hread. change (10 ^ Z.of_nat (String.length "")) with 1.
    rewrite binary64_exact by lia. by rewrite Math_round_Int.
  - subst s. intros E. destruct (String_of n); [done|]. by rewrite append_cons in E.
  - done.
  - done.
  - done.
  - left. split; [|done]. rewrite Hstripped. exists "". rewrite !append_nil_r.
    split; [done|]. split; [done|].
    split; [by apply (all_chars_impl is_digit _ _ digit_is_digit_or_dot)|].
    split; [done|by left].
Qed.

Lemma parseViewCount_reads_a_plain_count_witness :
  parseViewCount (String_of 950 ++ " " ++ views_tail "s" "") = Some (Int 950).
Proof.
  apply parseViewCount_reads_a_plain_count; [lia|reflexivity|by right|reflexivity].
Defined.

(** A count of tenths written with one digit after the point, as the
    engine abbreviates a view count: 12 is "1.2". *)
Definition tenths (n : Z) : string :=
  (String_of (n / 10) ++ "." ++ String (digit_char (n mod 10)) "")%string.

(** The text is read as a count that is shown as [shown]. *)
Definition shown_as (text shown : string) : bool :=
  match parseViewCount text with
  | Some (Dy v 0) => String.eqb (formatViews (Some v)) shown
  | _ => false
  end.

Lemma shown_as_spec text shown :
  shown_as text shown = true ->
  exists v, parseViewCount text = Some (Int v) /\ formatViews (Some v) = shown.
Proof.
  unfold shown_as. destruct (parseViewCount text) as [[| |v [|k]]|]; try done.
  intros H%String.eqb_eq. by exists v.
Qed.

Definition abbreviation_shown (n : Z) : bool :=
  shown_as (tenths n ++ "K views") (tenths n ++ "K") &&
  shown_as (tenths n ++ "M views") (tenths n ++ "M").

Lemma abbreviations_shown : forallb abbreviation_shown (seqZ 10 990) = true.
Proof. vm_compute. reflexivity. Qed.

(** X21.  An abbreviated view count comes out of [formatViews] as the
    engine wrote it: a text from "1.0K views" to "99.9K views", or from
    "1.0M views" to "99.9M views", is read by [parseViewCount] as a
    count that [formatViews] shows as the same number with the same
    letter.  (By evaluation of each of the 990 numbers of tenths.) *)
Theorem abbreviated_count_is_shown_again (n : Z) :
  10 <= n < 1000 ->
  (exists v, parseViewCount (tenths n ++ "K views") = Some (Int v) /\
             formatViews (Some v) = (tenths n ++ "K")%string) /\
  (exists v, parseViewCount (tenths n ++ "M views") = Some (Int v) /\
             formatViews (Some v) = (tenths n ++ "M")%string).
Proof.
  intros Hn. pose proof abbreviations_shown as Hall.
  rewrite forallb_forall in Hall.
  assert (Hin : In n (seqZ 10 990)) by (apply list_elem_of_In, elem_of_seqZ; lia).
  apply Hall in Hin. unfold abbreviation_shown in Hin.
  apply andb_true_iff in Hin as [HK HM].
  split; by apply shown_as_spec.
Qed.

Lemma abbreviated_count_is_shown_again_witness :
  (exists v, parseViewCount (tenths 12 ++ "K views") = Some (Int v) /\
             formatViews (Some v) = (tenths 12 ++ "K")%string) /\
  (exists v, parseViewCount (tenths 12 ++ "M views") = Some (Int v) /\
             formatViews (Some v) = (tenths 12 ++ "M")%string).
Proof. apply abbreviated_count_is_shown_again. lia. Defined.

End FormatViewsFacts.

(** ** The buttons of a download *)
Section ButtonFacts.
Import videoModel DownloadController Downloads.

Lemma get_after_update id st st' r t t' :
  get id st = Some (r, t) ->
  heap st' = <[r := t']> (heap st) -> allDownloads st' = allDownloads st ->
  getDownload id st' = Some t'.
Proof.
  intros [Hid Hr]%get_Some Hh Ha. apply getDownload_Some. exists r.
  apply get_Some. rewrite Ha, Hh. split; [done|].
  apply list_lookup_insert_eq. by eapply lookup_lt_Some.
Qed.

(** X22.  The buttons of a download do what they say.  When the row of a
    task shows its buttons, pressing the first one leaves the task
    [downloading] if the button said "Resume" and [paused] if it said
    "Pause", and pressing Cancel leaves it [canceled]; when the row shows
    no button, the two handlers would change nothing. *)
Theorem buttons_do_what_they_say st id task :
  getDownload id st = Some task ->
  match first_button task with
  | Some label =>
      (exists task', getDownload id (handlePauseResume id st) = Some task' /\
         status task' = if String.eqb label "Resume" then downloading else paused) /\
      (exists task', getDownload id (handleCancel id st) = Some task' /\
         status task' = canceled)
  | None => handlePauseResume id st = st /\ handleCancel id st = st
  end.
Proof.
  intros Hget. unfold handlePauseResume, handleCancel. rewrite Hget.
  apply getDownload_Some in Hget as [r Hget].
  rewrite (pauseDownload_eq _ _ _ _ Hget), (resumeDownload_eq _ _ _ _ Hget),
    (cancelDownload_eq _ _ _ _ Hget).
  unfold first_button, isActive, canInteract, isPaused.
  destruct (status task) eqn:Es; simpl.
  all: try (split; eexists; (split; [by eapply get_after_update|done])).
  all: done.
Qed.

Lemma buttons_do_what_they_say_witness :
  first_button (started "q7m2p4zz" a_clip mp4) = Some "Pause" /\
  (exists task', getDownload "q7m2p4zz" (handlePauseResume "q7m2p4zz" a_download)
                 = Some task' /\ status task' = paused) /\
  (exists task', getDownload "q7m2p4zz" (handleCancel "q7m2p4zz" a_download)
                 = Some task' /\ status task' = canceled).
Proof.
  split; [reflexivity|].
  apply (buttons_do_what_they_say a_download "q7m2p4zz"
           (started "q7m2p4zz" a_clip mp4)). reflexivity.
Defined.

End ButtonFacts.

(** ** A page of search results *)
Section PageFacts.
Import JS videoModel.

(** X23.  A page of results of variant A is never longer than
    [maxResults] (not negative) asks for, and [hasMore] is only set on a
    full page: one with exactly [maxResults] videos. *)
Theorem hasMore_means_a_full_page search q maxResults r :
  0 <= maxResults ->
  WrapperA.searchVideos true search q maxResults = Some r ->
  (length (videos r) <= Z.to_nat maxResults)%nat /\
  (hasMore r = true -> Z.of_nat (length (videos r)) = maxResults).
Proof.
  intros Hn Hr.
  pose proof (answer_A_spec (offered search) q maxResults) as (_ & Hlen & _).
  pose proof (length_slice0 (offered search) maxResults Hn) as Hle.
  destruct (searchVideos_A_answer search q maxResults) as [E|E];
    rewrite E in Hr; injection Hr as <-.
  - split; [lia|]. revert Hlen. unfold answer_A.
    destruct (mapM _ _) as [vs|]; simpl; [|done].
    intros Hlen Hmore%Z.leb_le. lia.
  - split; [simpl; lia|done].
Qed.

Definition two_items : WrapperA.value :=
  WrapperA.object
    [("videos",
      WrapperA.array
        [WrapperA.object [("id", WrapperA.str "dQw4w9WgXcQ")];
         WrapperA.object [("id", WrapperA.str "jNQXAC9IVRw")]])].

Lemma hasMore_means_a_full_page_witness :
  exists r, WrapperA.searchVideos true (Some two_items) "two" 2 = Some r /\
    (length (videos r) <= 2)%nat /\
    (hasMore r = true -> Z.of_nat (length (videos r)) = 2).
Proof.
  eexists. split; [reflexivity|].
  apply (hasMore_means_a_full_page (Some two_items) "two" 2); [lia|reflexivity].
Defined.

End PageFacts.

(** ** Items the wrapper cannot read *)
Section ItemFacts.
Import JS videoModel WrapperA.

(** The value is [null] or [undefined]: reading a property of it throws. *)
Definition nullish (v : value) : Prop := v = null \/ v = undefined.

Lemma get_None v name : get v name = None <-> nullish v.
Proof.
  unfold nullish. destruct v; simpl; split; try done; try (intros [|]; done); auto.
Qed.

Lemma get_is_Some v name : ~ nullish v -> is_Some (get v name).
Proof.
  intros H. destruct (get v name) as [x|] eqn:E; [by exists x|].
  apply get_None in E. by destruct H.
Qed.

Lemma is_object_with_get name v :
  is_object_with name v = true -> forall other, is_Some (get v other).
Proof. by destruct v. Qed.

Lemma getItemId_is_Some item : ~ nullish item -> is_Some (getItemId item).
Proof.
  intros H. unfold getItemId.
  destruct (get_is_Some item "id" H) as [a ->]. simpl.
  destruct (truthy a); [done|].
  destruct (get_is_Some item "video_id" H) as [b ->]. simpl.
  destruct (truthy b); [done|].
  by destruct (get_is_Some item "videoId" H) as [c ->].
Qed.

Lemma getItemTitle_is_Some item : ~ nullish item -> is_Some (getItemTitle item).
Proof.
  intros H. unfold getItemTitle.
  destruct (get_is_Some item "title" H) as [title ->]. simpl.
  destruct (is_object_with "text" title) eqn:E.
  - destruct (is_object_with_get _ _ E "text") as [x ->]. by destruct title.
  - by destruct title.
Qed.

Lemma getItemDuration_is_Some item : ~ nullish item -> is_Some (getItemDuration item).
Proof.
  intros H. unfold getItemDuration.
  destruct (get_is_Some item "duration" H) as [d ->]. simpl.
  destruct (is_object_with "seconds" d) eqn:E.
  - destruct (is_object_with_get _ _ E "seconds") as [x ->]. by destruct d.
  - by destruct d.
Qed.

Lemma getItemAuthor_is_Some item : ~ nullish item -> is_Some (getItemAuthor item).
Proof.
  intros H. unfold getItemAuthor.
  destruct (get_is_Some item "author" H) as [a ->]. simpl.
  destruct (is_object_with "name" a) eqn:E.
  - destruct (is_object_with_get _ _ E "name") as [x ->]. by destruct a.
  - by destruct a.
Qed.

Lemma getItemViewCount_is_Some item : ~ nullish item -> is_Some (getItemViewCount item).
Proof.
  intros H. unfold getItemViewCount.
  destruct (get_is_Some item "view_count" H) as [a ->]. simpl.
  destruct (get_is_Some item "viewCount" H) as [b Hb].
  destruct a; simpl; rewrite ?Hb; done.
Qed.

Lemma getItemUrl_is_Some item id : ~ nullish item -> is_Some (getItemUrl item id).
Proof.
  intros H. unfold getItemUrl.
  by destruct (get_is_Some item "url" H) as [u ->].
Qed.

(** The thumbnails of the item begin with [null] or [undefined]. *)
Definition broken_thumbnail (item : value) : Prop :=
  exists first rest, get item "thumbnails" = Some (array (first :: rest)) /\ nullish first.

Lemma getItemThumbnail_None item :
  ~ nullish item -> getItemThumbnail item = None <-> broken_thumbnail item.
Proof.
  intros H. unfold getItemThumbnail, broken_thumbnail.
  destruct (get_is_Some item "thumbnails" H) as [thumbs ->]. simpl. split.
  - destruct thumbs as [| | | | | |[|first rest]]; try done.
    destruct (get first "url") eqn:E; [done|]. intros _.
    exists first, rest. split; [done|]. by apply get_None in E.
  - intros (first & rest & [= ->] & Hn).
    apply (get_None first "url") in Hn. by rewrite Hn.
Qed.

Lemma classic_nullish v : nullish v \/ ~ nullish v.
Proof. unfold nullish. destruct v; auto; right; by intros [|]. Qed.

Lemma to_VideoInfo_None (item : value) :
  to_VideoInfo item = None <-> nullish item \/ broken_thumbnail item.
Proof.
  destruct (classic_nullish item) as [Hn|Hn].
  - split; [by left|]. intros _. unfold to_VideoInfo, getItemId.
    apply (get_None item "id") in Hn. by rewrite Hn.
  - rewrite <- (getItemThumbnail_None item Hn). unfold to_VideoInfo.
    destruct (getItemId_is_Some item Hn) as [id ->]. simpl.
    destruct (getItemTitle_is_Some item Hn) as [t ->]. simpl.
    destruct (getItemThumbnail item) as [th|]; simpl; [|by split; [right|]].
    destruct (getItemDuration_is_Some item Hn) as [d ->]. simpl.
    destruct (getItemAuthor_is_Some item Hn) as [a ->]. simpl.
    destruct (getItemViewCount_is_Some item Hn) as [vc ->]. simpl.
    destruct (getItemUrl_is_Some item id Hn) as [u ->]. simpl.
    split; [done|]. by intros [|].
Qed.

(** X24.  Building the entry of an item throws in two cases and no
    other: the item is [null] or [undefined], or its thumbnails begin
    with [null] or [undefined]. *)
Theorem to_VideoInfo_throws (item : value) :
  to_VideoInfo item = None <-> nullish item \/ broken_thumbnail item.
Proof. apply to_VideoInfo_None. Qed.

(** X25.  One item that cannot be read spoils the page: when such an
    item is among those the search keeps, variant A answers with no
    videos at all. *)
Theorem one_unreadable_item_empties_the_page fields items bad q maxResults :
  field "videos" fields = Some (array items) ->
  bad ∈ slice0 items maxResults ->
  nullish bad \/ broken_thumbnail bad ->
  searchVideos true (Some (object fields)) q maxResults = Some (no_results q).
Proof.
  intros Hf Hin Hbad. unfold searchVideos. simpl. rewrite Hf. simpl.
  destruct (mapM to_VideoInfo (slice0 items maxResults)) as [vs|] eqn:Hm; [|done].
  exfalso. assert (Hsome : is_Some (mapM to_VideoInfo (slice0 items maxResults)))
    by by rewrite Hm.
  apply mapM_is_Some in Hsome. rewrite Forall_forall in Hsome.
  destruct (Hsome bad Hin) as [v Hv]. simpl in Hv.
  apply to_VideoInfo_None in Hbad. congruence.
Qed.

Definition a_page_with_a_gap : list value :=
  [object [("id", str "dQw4w9WgXcQ")];
   object [("id", str "jNQXAC9IVRw"); ("thumbnails", array [null])]].

Lemma one_unreadable_item_empties_the_page_witness :
  searchVideos true (Some (object [("videos", array a_page_with_a_gap)])) "two" 20
  = Some (no_results "two").
Proof.
  apply (one_unreadable_item_empties_the_page _ a_page_with_a_gap
           (object [("id", str "jNQXAC9IVRw"); ("thumbnails", array [null])])).
  - reflexivity.
  - apply elem_of_cons. right. apply elem_of_cons. by left.
  - right. exists null, []. split; [reflexivity|by left].
Defined.

End ItemFacts.

(** ** Finished downloads *)
Section FinishedFacts.
Import videoModel DownloadController.

Lemma task_step_terminal t t' :
  task_step t t' -> terminal (status t) = true -> terminal (status t') = true.
Proof.
  intros Hstep Ht. unfold terminal in *. destruct Hstep; simpl in *; try done;
    destruct (status t); simpl in *; congruence.
Qed.

Lemma step_terminal e st st' r t :
  invariant st -> step e st = Some st' ->
  heap st !! r = Some t -> terminal (status t) = true ->
  exists t', heap st' !! r = Some t' /\ terminal (status t') = true.
Proof.
  intros Hinv Hstep Hr Ht.
  destruct (step_store _ _ _ Hinv Hstep) as [Hh _|id v f Hh _|r0 t0 t0' Hr0 Hts Hh _].
  - exists t. by rewrite Hh.
  - exists t. split; [|done]. rewrite Hh.
    by rewrite lookup_app_l by by eapply lookup_lt_Some.
  - rewrite Hh. destruct (decide (r0 = r)) as [->|Hne].
    + exists t0'. rewrite list_lookup_insert_eq by by eapply lookup_lt_Some.
      split; [done|]. assert (t0 = t) as -> by congruence.
      by eapply task_step_terminal.
    + exists t. by rewrite list_lookup_insert_ne.
Qed.

(** X26.  A download that is over never becomes active again: once a
    task is [completed], [canceled] or [error], it has one of these
    three statuses in every later state. *)
Theorem finished_stays_finished es : forall st st' r t,
  reachable st -> heap st !! r = Some t -> terminal (status t) = true ->
  run es st = Some st' ->
  exists t', heap st' !! r = Some t' /\ terminal (status t') = true.
Proof.
  induction es as [|e es IH]; intros st st' r t Hreach Hr Ht Hrun; simpl in Hrun.
  - injection Hrun as <-. by exists t.
  - destruct (step e st) as [st1|] eqn:Hstep; [|done].
    destruct (step_terminal e st st1 r t (reachable_invariant _ Hreach) Hstep Hr Ht)
      as (t1 & Hr1 & Ht1).
    apply (IH st1 st' r t1); [by eapply reachable_step|done..].
Qed.

Definition a_canceled_download : state := (cancelDownload "q7m2p4zz" a_download).1.

Lemma finished_stays_finished_witness :
  exists st' t',
    run [ResumeDownload "q7m2p4zz"; WrapperComplete 0 "a clip.mp4";
         WrapperResolves 0 false] a_canceled_download = Some st' /\
    heap st' !! 0%nat = Some t' /\ terminal (status t') = true.
Proof.
  assert (Hre : reachable a_canceled_download).
  { apply (run_reachable [DownloadVideo "q7m2p4zz" a_clip mp4 true true true;
                          CancelDownload "q7m2p4zz"] init);
      [apply reachable_init | reflexivity]. }
  eexists. 
  destruct (finished_stays_finished
              [ResumeDownload "q7m2p4zz"; WrapperComplete 0 "a clip.mp4";
               WrapperResolves 0 false]
              a_canceled_download _ 0%nat _ Hre eq_refl eq_refl eq_refl)
    as (t' & Ht' & Hterm).
  exists t'. split; [reflexivity|]. by split.
Defined.

End FinishedFacts.
